(** * Android File Transfer for Linux: joined object streams and the CLI session

    A shallow embedding of

    - [mtp/ptp/JoinedObjectStream.h]: the input and output streams made of
      two subsequent streams, and
    - [cli/Session.cpp]: path resolution, child lookup, time formatting and
      the recursive [put] / [get] of the command line session,

    followed by the properties the specification states about them.

    Conventions.  A C++ member function that mutates its object takes the
    object's state and returns the new one.  A function that can throw
    returns a [result]; the state that is returned next to a [Throw] is the
    state at the point where the exception left the function.  Calls that
    leave the modelled object (to an underlying stream, to a virtual hook, or
    a recursive visit) are recorded in a list that the function returns. *)

From Stdlib Require Import ZArith String Ascii List Bool Arith Lia.
Import ListNotations.

Set Implicit Arguments.

(** ** Exceptions and results *)

(** The exception classes the modelled code throws or lets through. *)
Inductive exception : Type :=
| OperationCancelledException
| InvalidResponseException (code : Z)
| runtime_error (what : string).

Inductive result (A : Type) : Type :=
| Ok (a : A)
| Throw (e : exception).

Arguments Ok {A} a.
Arguments Throw {A} e.

Definition is_Ok {A : Type} (r : result A) : bool :=
  match r with Ok _ => true | Throw _ => false end.

(** Sequencing of computations that can throw. *)
Definition bind {A B : Type} (r : result A) (k : A -> result B) : result B :=
  match r with
  | Ok a => k a
  | Throw e => Throw e
  end.

Notation "x <- r ;; k" := (bind r (fun x => k))
  (at level 61, r at next level, right associativity).

(** * Part I: the model *)

Module mtp.

Definition u8 : Type := Byte.byte.

(** [size_t] and [u64] are 64 bits wide (LP64); arithmetic on them wraps. *)
Definition u64_modulus : Z := 2 ^ 64.

Definition to_size_t (v : Z) : Z := v mod u64_modulus.

(** Modelled from the spec: [IObjectInputStream] is declared in
    [mtp/ptp/IObjectStream.h], which is not among the sources.  A stream
    exposes its size and [Read(data, size)], which returns the number of
    bytes it stored at [data]; here [Read] returns those bytes, so the
    returned count is their length. *)
Record IObjectInputStream : Type := {
  in_state : Type;
  in_Read : in_state -> nat -> result (list u8) * in_state;
  in_GetSize : in_state -> Z
}.

(** Modelled from the spec: [IObjectOutputStream], from the same missing
    header.  [Write(data, size)] returns the number of bytes it took from
    the front of [data]. *)
Record IObjectOutputStream : Type := {
  out_state : Type;
  out_Write : out_state -> list u8 -> result nat * out_state
}.

(** Modelled from the spec: [CancellableStream::CheckCancelled], from the
    same missing header: "a shared cancellation flag checked before each
    read/write; on trip, the current call fails with Cancelled". *)
Definition CheckCancelled (cancelled : bool) : result unit :=
  if cancelled then Throw OperationCancelledException else Ok tt.

(** What a joined stream calls while it serves one [Read] or [Write]. *)
Inductive call : Type :=
| Stream1 (size : nat)
| Stream2 (size : nat)
| OnStream1Exhausted.

Definition is_Stream1 (c : call) : bool :=
  match c with Stream1 _ => true | _ => false end.

Definition is_Stream2 (c : call) : bool :=
  match c with Stream2 _ => true | _ => false end.

Definition is_OnStream1Exhausted (c : call) : bool :=
  match c with OnStream1Exhausted => true | _ => false end.

(** The order of calls of a joined stream, as an automaton over the
    exhaustion flag: the first stream is called only while the flag is
    false, the hook flips it, the second stream is called only once it is
    true.  Returns the flag after the calls, [None] if a call is out of
    order. *)
Fixpoint follows_protocol (exhausted : bool) (cs : list call)
  : option bool :=
  match cs with
  | [] => Some exhausted
  | Stream1 _ :: rest =>
    if exhausted then None else follows_protocol false rest
  | OnStream1Exhausted :: rest =>
    if exhausted then None else follows_protocol true rest
  | Stream2 _ :: rest =>
    if exhausted then follows_protocol true rest else None
  end.

(** How often the hook [OnStream1Exhausted] was called. *)
Definition hook_calls (cs : list call) : nat :=
  length (filter is_OnStream1Exhausted cs).

(** What a client of a stream object may do with it. *)
Inductive request : Type :=
| DoTransfer (size : nat)
| DoCancel.

(** *** JoinedObjectInputStreamBase and JoinedObjectInputStream *)

Module JoinedObjectInputStream.

Section Joined.

Variables S1 S2 : IObjectInputStream.

Record t : Type := {
  _cancelled : bool;
  _stream1Exhausted : bool;
  _stream1 : in_state S1;
  _stream2 : in_state S2;
  _stream1Size : Z;
  _stream2Size : Z
}.

(** The constructors: the flags start false, the sizes are read once. *)
Definition make (s1 : in_state S1) (s2 : in_state S2) : t :=
  {| _cancelled := false;
     _stream1Exhausted := false;
     _stream1 := s1;
     _stream2 := s2;
     _stream1Size := to_size_t (in_GetSize S1 s1);
     _stream2Size := to_size_t (in_GetSize S2 s2) |}.

Definition Cancel (j : t) : t :=
  {| _cancelled := true;
     _stream1Exhausted := _stream1Exhausted j;
     _stream1 := _stream1 j;
     _stream2 := _stream2 j;
     _stream1Size := _stream1Size j;
     _stream2Size := _stream2Size j |}.

Definition set_stream1 (j : t) (s1 : in_state S1) : t :=
  {| _cancelled := _cancelled j;
     _stream1Exhausted := _stream1Exhausted j;
     _stream1 := s1;
     _stream2 := _stream2 j;
     _stream1Size := _stream1Size j;
     _stream2Size := _stream2Size j |}.

Definition set_stream2 (j : t) (s2 : in_state S2) : t :=
  {| _cancelled := _cancelled j;
     _stream1Exhausted := _stream1Exhausted j;
     _stream1 := _stream1 j;
     _stream2 := s2;
     _stream1Size := _stream1Size j;
     _stream2Size := _stream2Size j |}.

Definition set_stream1Exhausted (j : t) : t :=
  {| _cancelled := _cancelled j;
     _stream1Exhausted := true;
     _stream1 := _stream1 j;
     _stream2 := _stream2 j;
     _stream1Size := _stream1Size j;
     _stream2Size := _stream2Size j |}.

(** [JoinedObjectInputStreamBase::Read].  [r] and [size] are [size_t]; no
    sum below leaves its range unless a stream returns more than it was
    asked for. *)
Definition Read (j : t) (size : nat) : result (list u8) * t * list call :=
  match CheckCancelled (_cancelled j) with
  | Throw e => (Throw e, j, [])
  | Ok _ =>
    if negb (_stream1Exhausted j) then
      match in_Read S1 (_stream1 j) size with
      | (Throw e, s1) => (Throw e, set_stream1 j s1, [Stream1 size])
      | (Ok d1, s1) =>
        let r := length d1 in
        if r <? size then
          let j1 := set_stream1Exhausted (set_stream1 j s1) in
          let cs := [Stream1 size; OnStream1Exhausted; Stream2 (size - r)] in
          match in_Read S2 (_stream2 j1) (size - r) with
          | (Throw e, s2) => (Throw e, set_stream2 j1 s2, cs)
          | (Ok d2, s2) => (Ok (d1 ++ d2), set_stream2 j1 s2, cs)
          end
        else (Ok d1, set_stream1 j s1, [Stream1 size])
      end
    else
      match in_Read S2 (_stream2 j) size with
      | (r, s2) => (r, set_stream2 j s2, [Stream2 size])
      end
  end.

(** [JoinedObjectInputStream::GetSize]: a [size_t] sum returned as [u64]. *)
Definition GetSize (j : t) : Z :=
  (_stream1Size j + _stream2Size j) mod u64_modulus.

(** A joined input stream is an input stream. *)
Definition as_stream : IObjectInputStream :=
  {| in_state := t;
     in_Read := fun j size => fst (Read j size);
     in_GetSize := GetSize |}.

(** What is left to read from a joined stream whose parts have the contents
    [c1] and [c2]: the first stream counts until it is exhausted. *)
Definition content (c1 : in_state S1 -> list u8)
  (c2 : in_state S2 -> list u8) (j : t) : list u8 :=
  (if _stream1Exhausted j then [] else c1 (_stream1 j)) ++ c2 (_stream2 j).

(** A client's session with the object: the calls made, in order. *)
Fixpoint run (j : t) (reqs : list request) : t * list call :=
  match reqs with
  | [] => (j, [])
  | DoTransfer size :: rest =>
    let '(_, j1, cs) := Read j size in
    let '(j2, cs') := run j1 rest in
    (j2, cs ++ cs')
  | DoCancel :: rest => run (Cancel j) rest
  end.

End Joined.

End JoinedObjectInputStream.

(** *** JoinedObjectOutputStreamBase and JoinedObjectOutputStream *)

Module JoinedObjectOutputStream.

Section Joined.

Variables S1 S2 : IObjectOutputStream.

Record t : Type := {
  _cancelled : bool;
  _stream1Exhausted : bool;
  _stream1 : out_state S1;
  _stream2 : out_state S2
}.

Definition make (s1 : out_state S1) (s2 : out_state S2) : t :=
  {| _cancelled := false;
     _stream1Exhausted := false;
     _stream1 := s1;
     _stream2 := s2 |}.

Definition Cancel (j : t) : t :=
  {| _cancelled := true;
     _stream1Exhausted := _stream1Exhausted j;
     _stream1 := _stream1 j;
     _stream2 := _stream2 j |}.

Definition set_stream1 (j : t) (s1 : out_state S1) : t :=
  {| _cancelled := _cancelled j;
     _stream1Exhausted := _stream1Exhausted j;
     _stream1 := s1;
     _stream2 := _stream2 j |}.

Definition set_stream2 (j : t) (s2 : out_state S2) : t :=
  {| _cancelled := _cancelled j;
     _stream1Exhausted := _stream1Exhausted j;
     _stream1 := _stream1 j;
     _stream2 := s2 |}.

Definition set_stream1Exhausted (j : t) : t :=
  {| _cancelled := _cancelled j;
     _stream1Exhausted := true;
     _stream1 := _stream1 j;
     _stream2 := _stream2 j |}.

(** [JoinedObjectOutputStreamBase::Write]; [data + r] is [skipn r data]. *)
Definition Write (j : t) (data : list u8) : result nat * t * list call :=
  let size := length data in
  match CheckCancelled (_cancelled j) with
  | Throw e => (Throw e, j, [])
  | Ok _ =>
    if negb (_stream1Exhausted j) then
      match out_Write S1 (_stream1 j) data with
      | (Throw e, s1) => (Throw e, set_stream1 j s1, [Stream1 size])
      | (Ok r, s1) =>
        if r <? size then
          let j1 := set_stream1Exhausted (set_stream1 j s1) in
          let cs := [Stream1 size; OnStream1Exhausted; Stream2 (size - r)] in
          match out_Write S2 (_stream2 j1) (skipn r data) with
          | (Throw e, s2) => (Throw e, set_stream2 j1 s2, cs)
          | (Ok r2, s2) => (Ok (r + r2), set_stream2 j1 s2, cs)
          end
        else (Ok r, set_stream1 j s1, [Stream1 size])
      end
    else
      match out_Write S2 (_stream2 j) data with
      | (r, s2) => (r, set_stream2 j s2, [Stream2 size])
      end
  end.

(** A joined output stream is an output stream. *)
Definition as_stream : IObjectOutputStream :=
  {| out_state := t;
     out_Write := fun j data => fst (Write j data) |}.

(** A client's session with the object; a transfer of [size] bytes writes
    the next [size] bytes of [pending]. *)
Fixpoint run (j : t) (pending : list u8) (reqs : list request)
  : t * list call :=
  match reqs with
  | [] => (j, [])
  | DoTransfer size :: rest =>
    let '(_, j1, cs) := Write j (firstn size pending) in
    let '(j2, cs') := run j1 (skipn size pending) rest in
    (j2, cs ++ cs')
  | DoCancel :: rest => run (Cancel j) pending rest
  end.

End Joined.

End JoinedObjectOutputStream.

(** *** Clients of a stream *)

(** The way a stream is drained, after the spec's "returning n<requested
    signals end-of-stream": [Read] is called with a fixed chunk size until
    it returns short.  [None] means that [fuel] calls did not reach the
    end. *)
Fixpoint read_all (S : IObjectInputStream) (fuel chunk : nat)
  (s : in_state S) : option (result (list u8)) :=
  match fuel with
  | O => None
  | Datatypes.S fuel' =>
    match in_Read S s chunk with
    | (Throw e, _) => Some (Throw e)
    | (Ok d, s') =>
      if length d <? chunk then Some (Ok d)
      else
        match read_all S fuel' chunk s' with
        | Some (Ok rest) => Some (Ok (d ++ rest))
        | other => other
        end
    end
  end.

(** The way a buffer sequence is written out: one [Write] per buffer, until
    a [Write] returns short.  Returns the number of bytes taken and the
    state of the stream afterwards. *)
Fixpoint write_all (S : IObjectOutputStream) (s : out_state S)
  (buffers : list (list u8)) : result nat * out_state S :=
  match buffers with
  | [] => (Ok O, s)
  | data :: rest =>
    match out_Write S s data with
    | (Throw e, s') => (Throw e, s')
    | (Ok r, s') =>
      if r <? length data then (Ok r, s')
      else
        match write_all S s' rest with
        | (Ok n, s'') => (Ok (r + n), s'')
        | other => other
        end
    end
  end.

(** A stream that hands out a fixed content, in order, and returns short
    only at its end. *)
Definition reads_content (S : IObjectInputStream)
  (content : in_state S -> list u8) : Prop :=
  forall s size, exists s',
    in_Read S s size = (Ok (firstn size (content s)), s') /\
    content s' = skipn size (content s).

(** A stream that stores a prefix of what it is given behind what it
    holds. *)
Definition writes_content (S : IObjectOutputStream)
  (stored : out_state S -> list u8) : Prop :=
  forall s data, exists r s',
    out_Write S s data = (Ok r, s') /\
    r <= length data /\
    stored s' = stored s ++ firstn r data.

(** Modelled from the spec: the byte-array input stream of
    [mtp/ptp/ByteArrayObjectStream.h] (not among the sources), which "reads
    from an in-memory buffer".  The state is what is left to read. *)
Definition ByteArrayObjectInputStream : IObjectInputStream :=
  {| in_state := list u8;
     in_Read := fun left size => (Ok (firstn size left), skipn size left);
     in_GetSize := fun left => Z.of_nat (length left) |}.

(** An input stream of zero bytes that are not held in memory (a sparse
    file, an object on a device): the state is the number of bytes left. *)
Definition ZeroInputStream : IObjectInputStream :=
  {| in_state := Z;
     in_Read := fun left size =>
       let n := Z.min (Z.of_nat size) (Z.max 0 left) in
       (Ok (repeat Byte.x00 (Z.to_nat n)), (left - n)%Z);
     in_GetSize := fun left => left |}.

(** Modelled from the spec: a byte-array output stream over a buffer of a
    fixed capacity (the "pre-built header" of a joined output stream).  The
    state is the bytes stored and the room left. *)
Definition FixedSizeByteArrayObjectOutputStream : IObjectOutputStream :=
  {| out_state := list u8 * nat;
     out_Write := fun st data =>
       let n := Nat.min (length data) (snd st) in
       (Ok n, (fst st ++ firstn n data, snd st - n)) |}.

(** *** Identifiers and messages of the MTP session *)

(** Modelled from the spec: "object IDs and storage IDs are opaque unsigned
    32-bit integers", with the reserved values [Device = 0],
    [Root = 0xFFFFFFFF], [AllStorages = 0xFFFFFFFF], [AnyStorage = 0]; they
    are declared in [mtp/ptp/Session.h], which is not among the sources. *)
Definition ObjectId : Type := Z.

Definition StorageId : Type := Z.

Definition Device : ObjectId := 0%Z.

Definition Root : ObjectId := 0xFFFFFFFF%Z.

Definition AllStorages : StorageId := 0xFFFFFFFF%Z.

Definition AnyStorage : StorageId := 0%Z.

(** The two object formats the session names, with their PTP codes. *)
Module ObjectFormat.

Definition t : Type := Z.

Definition Any : t := 0%Z.

Definition Association : t := 0x3001%Z.

End ObjectFormat.

(** The object properties the session asks for. *)
Module ObjectProperty.

Inductive t : Type :=
| ObjectFormat
| ObjectSize
| ObjectFilename
| ParentObject.

End ObjectProperty.

(** The fields of [msg::ObjectInfo] that the session reads or writes. *)
Record ObjectInfo : Type := {
  Filename : string;
  ObjectFormat_ : ObjectFormat.t;
  ObjectCompressedSize : Z;
  CaptureDate : string
}.

(** The result of [SendObjectInfo] and [CreateDirectory]. *)
Record NewObjectInfo : Type := {
  NewStorageId : StorageId;
  NewParentObjectId : ObjectId;
  NewObjectId : ObjectId
}.

End mtp.

(** ** The command line session ([cli/Session.cpp]) *)

Module cli.

Import mtp.

Local Open Scope string_scope.

Definition Path : Type := string.

Definition LocalPath : Type := string.

(** *** std::string and the C library *)

Definition NUL : ascii := Ascii.zero.

(** [s.find(c, pos)]; [None] is [npos]. *)
Fixpoint find (s : string) (c : ascii) (pos : nat) : option nat :=
  match s with
  | EmptyString => None
  | String a s' =>
    match pos with
    | O => if Ascii.eqb a c then Some O else option_map S (find s' c O)
    | S pos' => option_map S (find s' c pos')
    end
  end.

(** [s.rfind(c)]; [None] is [npos]. *)
Fixpoint rfind (s : string) (c : ascii) : option nat :=
  match s with
  | EmptyString => None
  | String a s' =>
    match rfind s' c with
    | Some n => Some (S n)
    | None => if Ascii.eqb a c then Some O else None
    end
  end.

(** [s.substr(pos, n)], for [pos <= s.size()]. *)
Definition substr (s : string) (pos n : nat) : string := substring pos n s.

(** [s.substr(pos)]. *)
Definition substr_from (s : string) (pos : nat) : string :=
  substring pos (String.length s - pos) s.

(** [tolower] of the C locale. *)
Definition tolower (c : ascii) : ascii :=
  let n := nat_of_ascii c in
  if (65 <=? n)%nat && (n <=? 90)%nat then ascii_of_nat (n + 32) else c.

(** The character of a C string at its front; the terminator for the empty
    string. *)
Definition front (s : string) : ascii :=
  match s with
  | EmptyString => NUL
  | String c _ => c
  end.

Definition rest (s : string) : string :=
  match s with
  | EmptyString => EmptyString
  | String _ s' => s'
  end.

(** [strncasecmp(a, b, n) == 0] on the C strings of [a] and [b]. *)
Fixpoint strncasecmp_is_0 (a b : string) (n : nat) : bool :=
  match n with
  | O => true
  | S n' =>
    if Ascii.eqb (tolower (front a)) (tolower (front b)) then
      if Ascii.eqb (front a) NUL then true
      else strncasecmp_is_0 (rest a) (rest b) n'
    else false
  end.

Definition BeginsWith (str prefix : string) : bool :=
  if (String.length str <? String.length prefix)%nat then false
  else strncasecmp_is_0 str prefix (String.length prefix).

(** [S_ISDIR] of [sys/stat.h]: [S_IFMT] is octal 170000, [S_IFDIR] is
    octal 040000. *)
Definition S_ISDIR (st_mode : Z) : bool :=
  (Z.land st_mode 0xF000 =? 0x4000)%Z.

(** What one call of [readdir_r] on an open directory gives; the end of
    the list is the end of the directory. *)
Inductive readdir_result : Type :=
| Entry (d_name : string)
| ReaddirFailure (error : string).

(** The entries that the loop of [Session::Put] passes over. *)
Definition is_dot (r : readdir_result) : bool :=
  match r with
  | Entry d_name => String.eqb d_name "." || String.eqb d_name ".."
  | ReaddirFailure _ => false
  end.

(** *** What the session works on *)

(** The device behind [_session] and the local file system, in a state of
    type [W].  Queries of the device read the state; operations that change
    the device or the file system return the new state.  The members are
    those of [mtp::Session], of [cli/PosixStreams.h], of
    [mtp::ObjectFormatFromFilename] and of the C library, none of which is
    among the sources; they are parameters of the model. *)
Record World (W : Type) : Type := {
  GetObjectHandles :
    W -> StorageId -> ObjectFormat.t -> ObjectId -> result (list ObjectId);
  GetObjectStringProperty :
    W -> ObjectId -> ObjectProperty.t -> result string;
  GetObjectIntegerProperty :
    W -> ObjectId -> ObjectProperty.t -> result Z;
  GetObjectParent : W -> ObjectId -> result ObjectId;
  GetObjectInfo : W -> ObjectId -> result ObjectInfo;
  CreateDirectory : W -> string -> ObjectId -> result NewObjectInfo * W;
  SendObjectInfo :
    W -> ObjectInfo -> StorageId -> ObjectId -> result NewObjectInfo * W;
  SendObject : W -> LocalPath -> result unit * W;
  GetObject : W -> ObjectId -> LocalPath -> result unit * W;
  SetSize : ObjectInfo -> Z -> ObjectInfo;
  ObjectFormatFromFilename : LocalPath -> ObjectFormat.t;
  ObjectInputStream : W -> LocalPath -> result Z;
  ObjectOutputStream : W -> LocalPath -> result unit * W;
  stat : W -> LocalPath -> string + Z;
  opendir : W -> LocalPath -> option (list readdir_result);
  mkdir : W -> LocalPath -> W
}.

(** The members of [cli::Session] that the modelled functions read. *)
Record Session : Type := {
  _cs : StorageId;
  _cd : ObjectId;
  _interactive : bool
}.

(** What a recursive transfer does besides calling the device: the visits
    of [Put] and [Get], and what is printed. *)
Inductive event : Type :=
| PutVisit (parentId : ObjectId) (dst : string) (src : LocalPath)
| GetVisit (dst : LocalPath) (srcId : ObjectId)
| perror (s : string).

Section Session.

Variable W : Type.
Variable world : World W.
Variable session : Session.

(** *** Path resolution *)

(** The loop of [Session::ResolveObjectChild]. *)
Fixpoint ResolveObjectChild_loop (w : W) (entity : string)
  (ObjectHandles : list ObjectId) : result ObjectId :=
  match ObjectHandles with
  | [] => Throw (runtime_error ("could not find " ++ entity ++ " in path"))
  | object :: others =>
    match GetObjectStringProperty world w object
            ObjectProperty.ObjectFilename with
    | Throw e => Throw e
    | Ok name =>
      if String.eqb name entity then Ok object
      else ResolveObjectChild_loop w entity others
    end
  end.

Definition ResolveObjectChild (w : W) (parent : ObjectId) (entity : string)
  : result ObjectId :=
  objectList <-
    GetObjectHandles world w (_cs session) ObjectFormat.Any parent ;;
  ResolveObjectChild_loop w entity objectList.

(** The body of the loop of [Session::Resolve], for one [entity]. *)
Definition Resolve_entity (w : W) (id : ObjectId) (entity : string)
  : result ObjectId :=
  if String.eqb entity "" || String.eqb entity "." then Ok id
  else if String.eqb entity ".." then
    id' <- GetObjectParent world w id ;;
    Ok (if (id' =? Device)%Z then Root else id')
  else ResolveObjectChild w id entity.

(** The loop of [Session::Resolve] from the position [p].  Every round
    moves [p] forward, so [String.length path - p] rounds are enough; with
    no round left the loop condition is false. *)
Fixpoint Resolve_loop (rounds : nat) (w : W) (path : Path) (p : nat)
  (id : ObjectId) : result ObjectId :=
  match rounds with
  | O => Ok id
  | S rounds' =>
    if (p <? String.length path)%nat then
      let next :=
        match find path "/" p with
        | Some n => n
        | None => String.length path
        end in
      let entity := substr path p (next - p) in
      id' <- Resolve_entity w id entity ;;
      Resolve_loop rounds' w path (next + 1) id'
    else Ok id
  end.

(** The whole loop, from [p = 0]. *)
Definition Resolve_from (w : W) (path : Path) (id : ObjectId)
  : result ObjectId :=
  Resolve_loop (String.length path) w path 0 id.

Definition Resolve (w : W) (path : Path) : result ObjectId :=
  Resolve_from w path (if BeginsWith path "/" then Root else _cd session).

Definition GetFilename (path : string) : string :=
  match rfind path "/" with
  | None => path
  | Some pos => substr_from path (pos + 1)
  end.

Definition GetDirname (path : string) : string :=
  match rfind path "/" with
  | None => ""
  | Some pos => substr path 0 pos
  end.

Definition FormatTime (timespec : string) : string :=
  if negb (String.length timespec =? 15)%nat
     || negb (match get 8 timespec with
              | Some c => Ascii.eqb c "T"
              | None => false
              end)
  then timespec
  else
    substr timespec 0 4 ++ "-" ++
    substr timespec 4 2 ++ "-" ++
    substr timespec 6 2 ++ " " ++
    substr timespec 9 2 ++ ":" ++
    substr timespec 11 2 ++ ":" ++
    substr timespec 13 2.

(** *** Recursive put and get *)

(** The outcome of a recursive transfer: what it returned or threw, the
    state it left, and its events. *)
Definition outcome : Type := result unit * W * list event.

Definition MakeOrResolveDirectory (w : W) (parentId : ObjectId)
  (dst : string) (src : LocalPath) : result ObjectId * W :=
  match CreateDirectory world w (GetFilename dst) parentId with
  | (Ok info, w1) => (Ok (NewObjectId info), w1)
  | (Throw _, w1) => (ResolveObjectChild w1 parentId src, w1)
  end.

(** The [readdir_r] loop of [Session::Put]; [put] is the recursive call. *)
Fixpoint Put_entries
  (put : W -> ObjectId -> string -> LocalPath -> option outcome)
  (w : W) (dirId : ObjectId) (dst : string) (src : LocalPath)
  (entries : list readdir_result) : option outcome :=
  match entries with
  | [] => Some (Ok tt, w, [])
  | ReaddirFailure error :: _ =>
    Some (Throw (runtime_error ("readdir failed: " ++ error)), w, [])
  | Entry d_name :: others =>
    if String.eqb d_name "." || String.eqb d_name ".." then
      Put_entries put w dirId dst src others
    else
      match put w dirId (dst ++ "/" ++ d_name) (src ++ "/" ++ d_name) with
      | None => None
      | Some (Throw e, w1, evs) => Some (Throw e, w1, evs)
      | Some (Ok _, w1, evs) =>
        match Put_entries put w1 dirId dst src others with
        | None => None
        | Some (r, w2, evs') => Some (r, w2, (evs ++ evs')%list)
        end
      end
  end.

(** [Session::Put(parentId, dst, src)].  [depth] bounds the nesting of the
    recursion; [None] means that it was not enough.  The progress bar is
    left out: what setting it up throws is caught and dropped. *)
Fixpoint Put (depth : nat) (w : W) (parentId : ObjectId) (dst : string)
  (src : LocalPath) : option outcome :=
  match depth with
  | O => None
  | S depth' =>
    let visit := PutVisit parentId dst src in
    match stat world w src with
    | inl error =>
      Some (Throw (runtime_error ("stat failed: " ++ error)), w, [visit])
    | inr st_mode =>
      if S_ISDIR st_mode then
        match MakeOrResolveDirectory w parentId dst src with
        | (Throw e, w1) => Some (Throw e, w1, [visit])
        | (Ok dirId, w1) =>
          match opendir world w1 src with
          | None => Some (Ok tt, w1, [visit; perror "opendir"])
          | Some entries =>
            match Put_entries (Put depth') w1 dirId dst src entries with
            | None => None
            | Some (r, w2, evs) => Some (r, w2, visit :: evs)
            end
          end
        end
      else
        match ObjectInputStream world w src with
        | Throw e => Some (Throw e, w, [visit])
        | Ok size =>
          let oi :=
            SetSize world
              {| Filename := GetFilename dst;
                 ObjectFormat_ := ObjectFormatFromFilename world src;
                 ObjectCompressedSize := 0;
                 CaptureDate := "" |} size in
          match SendObjectInfo world w oi AnyStorage parentId with
          | (Throw e, w1) => Some (Throw e, w1, [visit])
          | (Ok _, w1) =>
            match SendObject world w1 src with
            | (Throw e, w2) => Some (Throw e, w2, [visit])
            | (Ok _, w2) => Some (Ok tt, w2, [visit])
            end
          end
        end
    end
  end.

(** The loop over the handles in [Session::Get]; [get] is the recursive
    call. *)
Fixpoint Get_handles
  (get : W -> LocalPath -> ObjectId -> option outcome)
  (w : W) (dst : LocalPath) (ObjectHandles : list ObjectId)
  : option outcome :=
  match ObjectHandles with
  | [] => Some (Ok tt, w, [])
  | id :: others =>
    match GetObjectInfo world w id with
    | Throw e => Some (Throw e, w, [])
    | Ok info =>
      match get w (dst ++ "/" ++ Filename info) id with
      | None => None
      | Some (Throw e, w1, evs) => Some (Throw e, w1, evs)
      | Some (Ok _, w1, evs) =>
        match Get_handles get w1 dst others with
        | None => None
        | Some (r, w2, evs') => Some (r, w2, (evs ++ evs')%list)
        end
      end
    end
  end.

(** [Session::Get(dst, srcId)]; the cast to [ObjectFormat] keeps 16 bits. *)
Fixpoint Get (depth : nat) (w : W) (dst : LocalPath) (srcId : ObjectId)
  : option outcome :=
  match depth with
  | O => None
  | S depth' =>
    let visit := GetVisit dst srcId in
    match GetObjectIntegerProperty world w srcId
            ObjectProperty.ObjectFormat with
    | Throw e => Some (Throw e, w, [visit])
    | Ok v =>
      if (v mod 2 ^ 16 =? ObjectFormat.Association)%Z then
        let w1 := mkdir world w dst in
        match GetObjectHandles world w1 (_cs session)
                ObjectFormat.Any srcId with
        | Throw e => Some (Throw e, w1, [visit])
        | Ok obj =>
          match Get_handles (Get depth') w1 dst obj with
          | None => None
          | Some (r, w2, evs) => Some (r, w2, visit :: evs)
          end
        end
      else
        match ObjectOutputStream world w dst with
        | (Throw e, w1) => Some (Throw e, w1, [visit])
        | (Ok _, w1) =>
          match (if _interactive session
                 then GetObjectIntegerProperty world w1 srcId
                        ObjectProperty.ObjectSize
                 else Ok 0%Z) with
          | Throw e => Some (Throw e, w1, [visit])
          | Ok _ =>
            match GetObject world w1 srcId dst with
            | (Throw e, w2) => Some (Throw e, w2, [visit])
            | (Ok _, w2) => Some (Ok tt, w2, [visit])
            end
          end
        end
    end
  end.

End Session.

End cli.

(** ** A device and a local file system to run the session on *)

Module example.

Import mtp.
Import cli.

Local Open Scope string_scope.
Local Open Scope Z_scope.

(** An object on the device. *)
Record object : Type := {
  id : ObjectId;
  parent : ObjectId;
  name : string;
  format : ObjectFormat.t
}.

(** A node of the local file system. *)
Inductive node : Type :=
| File (size : Z)
| Directory (entries : list string).

(** The device and the local file system.  [create_error], when set, is
    what the device answers to every [CreateDirectory]; the device refuses
    to store or to send an object whose filename is in [refused];
    [written] lists the local paths made by [mkdir] and by downloads. *)
Record state : Type := {
  objects : list object;
  next_id : ObjectId;
  create_error : option exception;
  refused : list string;
  files : list (LocalPath * node);
  written : list LocalPath
}.

Definition GeneralError : exception := InvalidResponseException 0x2002.

Definition InvalidObjectHandle : exception := InvalidResponseException 0x2009.

Definition StoreFull : exception := InvalidResponseException 0x200C.

Definition AccessDenied : exception := InvalidResponseException 0x200F.

Definition lookup (st : state) (i : ObjectId) : option object :=
  List.find (fun o => id o =? i) (objects st).

(** The objects listed under [parentId]; those at the top report the
    parent [Device]. *)
Definition children (st : state) (parentId : ObjectId) : list object :=
  filter (fun o => parent o =? (if parentId =? Root then Device else parentId))
         (objects st).

Definition node_at (st : state) (path : LocalPath) : option node :=
  option_map snd (List.find (fun f => String.eqb (fst f) path) (files st)).

Definition add_object (st : state) (filename : string)
  (parentId : ObjectId) (fmt : ObjectFormat.t) : state :=
  {| objects :=
       objects st ++
       [{| id := next_id st;
           parent := if parentId =? Root then Device else parentId;
           name := filename;
           format := fmt |}];
     next_id := next_id st + 1;
     create_error := create_error st;
     refused := refused st;
     files := files st;
     written := written st |}.

Definition add_written (st : state) (path : LocalPath) : state :=
  {| objects := objects st;
     next_id := next_id st;
     create_error := create_error st;
     refused := refused st;
     files := files st;
     written := written st ++ [path] |}.

Definition store (st : state) (filename : string) (parentId : ObjectId)
  (fmt : ObjectFormat.t) : result NewObjectInfo * state :=
  if existsb (String.eqb filename) (refused st) then (Throw AccessDenied, st)
  else if existsb (fun o => String.eqb (name o) filename)
                  (children st parentId)
  then (Throw GeneralError, st)
  else (Ok {| NewStorageId := 0x10001;
              NewParentObjectId := parentId;
              NewObjectId := next_id st |},
        add_object st filename parentId fmt).

Definition world : World state :=
  {| GetObjectHandles := fun st _ _ parentId =>
       Ok (map id (children st parentId));
     GetObjectStringProperty := fun st i _ =>
       match lookup st i with
       | Some o => Ok (name o)
       | None => Throw InvalidObjectHandle
       end;
     GetObjectIntegerProperty := fun st i property =>
       match lookup st i with
       | Some o =>
         match property with
         | ObjectProperty.ObjectFormat => Ok (format o)
         | ObjectProperty.ParentObject => Ok (parent o)
         | _ => Ok 0
         end
       | None => Throw InvalidObjectHandle
       end;
     GetObjectParent := fun st i =>
       match lookup st i with
       | Some o => Ok (parent o)
       | None => Throw InvalidObjectHandle
       end;
     GetObjectInfo := fun st i =>
       match lookup st i with
       | Some o =>
         Ok {| Filename := name o;
               ObjectFormat_ := format o;
               ObjectCompressedSize := 0;
               CaptureDate := "" |}
       | None => Throw InvalidObjectHandle
       end;
     CreateDirectory := fun st filename parentId =>
       match create_error st with
       | Some e => (Throw e, st)
       | None => store st filename parentId ObjectFormat.Association
       end;
     SendObjectInfo := fun st oi _ parentId =>
       store st (Filename oi) parentId (ObjectFormat_ oi);
     SendObject := fun st _ => (Ok tt, st);
     GetObject := fun st i dst =>
       match lookup st i with
       | Some o =>
         if existsb (String.eqb (name o)) (refused st)
         then (Throw AccessDenied, st)
         else (Ok tt, st)
       | None => (Throw InvalidObjectHandle, st)
       end;
     SetSize := fun oi size =>
       {| Filename := Filename oi;
          ObjectFormat_ := ObjectFormat_ oi;
          ObjectCompressedSize := size;
          CaptureDate := CaptureDate oi |};
     ObjectFormatFromFilename := fun _ => 0x3000;
     ObjectInputStream := fun st path =>
       match node_at st path with
       | Some (File size) => Ok size
       | _ => Throw (runtime_error "open failed")
       end;
     ObjectOutputStream := fun st path => (Ok tt, add_written st path);
     stat := fun st path =>
       match node_at st path with
       | Some (File _) => inr 0x81A4
       | Some (Directory _) => inr 0x41ED
       | None => inl "No such file or directory"
       end;
     opendir := fun st path =>
       match node_at st path with
       | Some (Directory entries) =>
         Some (map Entry ("." :: ".." :: entries))
       | _ => None
       end;
     mkdir := add_written |}.

(** A phone with a camera folder and a music folder. *)
Definition phone : list object :=
  [ {| id := 1; parent := 0; name := "DCIM";
       format := ObjectFormat.Association |};
    {| id := 2; parent := 1; name := "Camera";
       format := ObjectFormat.Association |};
    {| id := 3; parent := 2; name := "IMG_0001.JPG"; format := 0x3801 |};
    {| id := 4; parent := 2; name := "img_0001.jpg"; format := 0x3801 |};
    {| id := 5; parent := 0; name := "Music";
       format := ObjectFormat.Association |};
    {| id := 6; parent := 5; name := "a.mp3"; format := 0x3009 |};
    {| id := 7; parent := 5; name := "b.mp3"; format := 0x3009 |};
    {| id := 8; parent := 5; name := "c.mp3"; format := 0x3009 |} ].

(** A local directory [album] with two files and, between them, the entry
    [broken] for which [stat] fails (a dangling symbolic link); and a local
    directory [Music]. *)
Definition disk : list (LocalPath * node) :=
  [ ("album", Directory ["a.mp3"; "broken"; "c.mp3"]);
    ("album/a.mp3", File 3);
    ("album/c.mp3", File 5);
    ("Music", Directory ["d.mp3"]);
    ("Music/d.mp3", File 7) ].

Definition st0 : state :=
  {| objects := phone;
     next_id := 9;
     create_error := None;
     refused := [];
     files := disk;
     written := [] |}.

(** The same, with a device that has no room for a new directory. *)
Definition st_full : state :=
  {| objects := phone;
     next_id := 9;
     create_error := Some StoreFull;
     refused := [];
     files := disk;
     written := [] |}.

(** The same, with a device that refuses to send [b.mp3]. *)
Definition st_refusing : state :=
  {| objects := phone;
     next_id := 9;
     create_error := None;
     refused := ["b.mp3"];
     files := disk;
     written := [] |}.

(** The phone of [st0] after [Music/d.mp3] was stored in [Music]. *)
Definition st0_with_d : state := add_object st0 "d.mp3" 5 0x3000.

Definition at_root : Session :=
  {| _cs := AllStorages; _cd := Root; _interactive := false |}.

Definition in_DCIM : Session :=
  {| _cs := AllStorages; _cd := 1; _interactive := false |}.

End example.

(** ** More of the code *)

(** *** Streams that keep to what they are asked *)

Module stream_laws.

Import mtp.

(** A [Read] never returns more bytes than it was asked for. *)
Definition reads_at_most (S : IObjectInputStream) : Prop :=
  forall s size d s',
    in_Read S s size = (Ok d, s') -> length d <= size.

(** A [Write] never takes more bytes than it was given. *)
Definition writes_at_most (S : IObjectOutputStream) : Prop :=
  forall s data r s',
    out_Write S s data = (Ok r, s') -> r <= length data.

(** [reads_content], for the states of a stream that satisfy [good]. *)
Definition reads_content_while (S : IObjectInputStream)
  (good : in_state S -> Prop) (content : in_state S -> list u8) : Prop :=
  forall s size, good s -> exists s',
    in_Read S s size = (Ok (firstn size (content s)), s') /\
    content s' = skipn size (content s) /\
    good s'.

(** A stream that stores what it is given as long as it has room: a
    [Write] takes as many bytes as there is room for, stores them behind
    what it holds, and has that much less room. *)
Definition writes_with_room (S : IObjectOutputStream)
  (stored : out_state S -> list u8) (room : out_state S -> nat) : Prop :=
  forall s data, exists s',
    out_Write S s data = (Ok (Nat.min (length data) (room s)), s') /\
    stored s' = stored s ++ firstn (room s) data /\
    room s' = room s - length data.

End stream_laws.

(** *** The other members of cli::Session *)

Module cli_Session.

Import mtp.
Import cli.

Local Open Scope string_scope.

(** The characters that have no literal here. *)
Definition newline : ascii := ascii_of_nat 10.

Definition quote : ascii := ascii_of_nat 34.

(** [s.c_str()] as the C library reads it: up to the first NUL. *)
Fixpoint c_str (s : string) : string :=
  match s with
  | EmptyString => EmptyString
  | String c s' => if Ascii.eqb c NUL then EmptyString else String c (c_str s')
  end.

(** The last character of a string that is not empty. *)
Fixpoint back (s : string) : option ascii :=
  match s with
  | EmptyString => None
  | String c EmptyString => Some c
  | String _ s' => back s'
  end.

(** A string in lower case. *)
Fixpoint lower (s : string) : string :=
  match s with
  | EmptyString => EmptyString
  | String c s' => String (tolower c) (lower s')
  end.

(** A path component that names a child: not empty, not [.] or [..], and
    without a slash. *)
Definition names_child (n : string) : Prop :=
  n <> "" /\ n <> "." /\ n <> ".." /\ find n "/" 0 = None.

(** The path that lists [names] from the top, each followed by a slash. *)
Fixpoint pathname (names : list string) : string :=
  match names with
  | [] => ""
  | n :: others => n ++ "/" ++ pathname others
  end.

(** The session after its current directory was set to [id]. *)
Definition with_cd (session : Session) (id : ObjectId) : Session :=
  {| _cs := _cs session; _cd := id; _interactive := _interactive session |}.

Section Members.

Variable W : Type.
Variable world : World W.
Variable session : Session.

(** [Session::ResolvePath(path, file)]: the object and what [file] is set
    to; [file] is set before the directory is resolved. *)
Definition ResolvePath (w : W) (path : string) : result ObjectId * string :=
  match rfind path "/" with
  | None => (Ok (_cd session), path)
  | Some pos =>
    (Resolve world session w (substr path 0 pos), substr_from path (pos + 1))
  end.

(** The loop of [Session::CurrentDirectory]; [None] when [fuel] rounds did
    not reach the top. *)
Fixpoint CurrentDirectory_loop (fuel : nat) (w : W) (id : ObjectId)
  (path : string) : option (result string) :=
  match fuel with
  | O => None
  | S fuel' =>
    if negb (id =? Device)%Z && negb (id =? Root)%Z then
      match GetObjectStringProperty world w id
              ObjectProperty.ObjectFilename with
      | Throw e => Some (Throw e)
      | Ok filename =>
        let path := filename ++ "/" ++ path in
        match GetObjectParent world w id with
        | Throw e => Some (Throw e)
        | Ok id' =>
          if (id' =? Device)%Z then Some (Ok path)
          else CurrentDirectory_loop fuel' w id' path
        end
      end
    else Some (Ok path)
  end.

(** [Session::CurrentDirectory]: what it prints. *)
Definition CurrentDirectory (fuel : nat) (w : W) : option (result string) :=
  match CurrentDirectory_loop fuel w (_cd session) "" with
  | Some (Ok path) => Some (Ok ("/" ++ path))
  | other => other
  end.

(** Walking up from [id] through the objects of [up], each with its
    filename, ends at [top]. *)
Fixpoint walks_up (w : W) (id : ObjectId) (up : list (ObjectId * string))
  (top : ObjectId) : Prop :=
  match up with
  | [] => id = top
  | (i, n) :: others =>
    id = i /\ i <> Device /\ i <> Root /\
    GetObjectStringProperty world w i ObjectProperty.ObjectFilename = Ok n /\
    exists p, GetObjectParent world w i = Ok p /\ walks_up w p others top
  end.

(** Looking up the names of [down] one after the other from [from] finds
    the objects of [down]. *)
Fixpoint walks_down (w : W) (from : ObjectId)
  (down : list (ObjectId * string)) : Prop :=
  match down with
  | [] => True
  | (i, n) :: others =>
    names_child n /\
    ResolveObjectChild world session w from n = Ok i /\
    walks_down w i others
  end.

(** [Session::Get(srcId)]. *)
Definition Get_here (depth : nat) (w : W) (srcId : ObjectId)
  : option (outcome W) :=
  match GetObjectInfo world w srcId with
  | Throw e => Some (Throw e, w, [])
  | Ok info => Get world session depth w (Filename info) srcId
  end.

(** Reading an object into a [ByteArrayObjectOutputStream]: a member of
    [mtp::Session] with a stream that is not among the sources. *)
Variable GetObject_ByteArray : W -> ObjectId -> result (list Byte.byte).

(** [Session::Cat]: what it writes to [stdout]. *)
Definition Cat (w : W) (path : Path) : result string :=
  id <- Resolve world session w path ;;
  data <- GetObject_ByteArray w id ;;
  let text := string_of_list_byte data in
  Ok (c_str text ++
      (if match back text with
          | None => true
          | Some c => Ascii.eqb c newline
          end
       then String newline "" else "")).

End Members.

End cli_Session.

(** *** Listing, completion and the command loop of cli::Session *)

Module cli_Shell.

Import mtp.
Import cli.
Import cli_Session.

Local Open Scope string_scope.

(** A line of a listing: the handle with the filename, the handle with the
    object info and the formatted capture date, or the report of an
    error. *)
Inductive line : Type :=
| name_line (objectId : ObjectId) (name : string)
| info_line (objectId : ObjectId) (info : ObjectInfo) (time : string)
| error_line (e : exception).

(** Whether a string contains a character. *)
Definition contains (s : string) (c : ascii) : bool :=
  match find s c 0 with
  | Some _ => true
  | None => false
  end.

Section Listing.

Variable W : Type.
Variable world : World W.
Variable session : Session.

(** Members of [mtp::Session] and the property list parser, none of them
    among the sources.  [Parse] gives the tuples that it handed to its
    callback and the exception that ended it, if any. *)
Variable GetObjectPropertyListSupported : W -> bool.
Variable GetObjectPropertyList :
  W -> ObjectId -> ObjectFormat.t -> ObjectProperty.t -> Z -> Z ->
  result (list u8).
Variable Parse :
  list u8 -> list (ObjectId * ObjectProperty.t * string) * option exception.

(** The loop over the handles in [Session::List]. *)
Fixpoint List_handles (w : W) (extended : bool)
  (ObjectHandles : list ObjectId) : list line :=
  match ObjectHandles with
  | [] => []
  | objectId :: others =>
    match GetObjectInfo world w objectId with
    | Ok info =>
      if extended
      then info_line objectId info (FormatTime (CaptureDate info))
      else name_line objectId (Filename info)
    | Throw e => error_line e
    end :: List_handles w extended others
  end.

(** [Session::List(parent, extended)]: what it returns or throws, and the
    lines it prints. *)
Definition List (w : W) (parent : ObjectId) (extended : bool)
  : result unit * list line :=
  if negb extended && GetObjectPropertyListSupported w then
    match GetObjectPropertyList w parent ObjectFormat.Any
            ObjectProperty.ObjectFilename 0 1 with
    | Throw e => (Throw e, [])
    | Ok data =>
      let (tuples, failure) := Parse data in
      (match failure with
       | Some e => Throw e
       | None => Ok tt
       end,
       map (fun t => name_line (fst (fst t)) (snd t)) tuples)
    end
  else
    match GetObjectHandles world w (_cs session) ObjectFormat.Any parent with
    | Throw e => (Throw e, [])
    | Ok handles => (Ok tt, List_handles w extended handles)
    end.

(** The loop over the handles in [Session::CompletePath]: what it throws,
    if anything, and what it has pushed to [result]. *)
Fixpoint CompletePath_loop (w : W) (dir filePrefix : string)
  (ObjectHandles : list ObjectId) : result unit * list string :=
  match ObjectHandles with
  | [] => (Ok tt, [])
  | object :: others =>
    match GetObjectStringProperty world w object
            ObjectProperty.ObjectFilename with
    | Throw e => (Throw e, [])
    | Ok name =>
      if BeginsWith name filePrefix then
        let name := if negb (String.eqb dir "")
                    then dir ++ "/" ++ name else name in
        match GetObjectIntegerProperty world w object
                ObjectProperty.ObjectFormat with
        | Throw e => (Throw e, [])
        | Ok v =>
          let name := if (v mod 2 ^ 16 =? ObjectFormat.Association)%Z
                      then name ++ "/" else name in
          let item := if contains name " "
                      then String quote name ++ String quote ""
                      else name in
          let (r, items) := CompletePath_loop w dir filePrefix others in
          (r, item :: items)
        end
      else CompletePath_loop w dir filePrefix others
    end
  end.

(** [Session::CompletePath(path, result)]. *)
Definition CompletePath (w : W) (path : Path) : result unit * list string :=
  match ResolvePath world session w path with
  | (Throw e, _) => (Throw e, [])
  | (Ok parent, filePrefix) =>
    let dir := GetDirname path in
    match GetObjectHandles world w (_cs session) ObjectFormat.Any parent with
    | Throw e => (Throw e, [])
    | Ok objectList => CompletePath_loop w dir filePrefix objectList
    end
  end.

End Listing.

(** *** The test of GetObjectPropertyList *)

(** [std::set<ObjectId>] as the increasing list of its elements. *)
Fixpoint set_insert (x : ObjectId) (s : list ObjectId) : list ObjectId :=
  match s with
  | [] => [x]
  | y :: s' =>
    if (x <? y)%Z then x :: s
    else if (x =? y)%Z then s
    else y :: set_insert x s'
  end.

(** [std::set_difference] of two sets: the elements of the first that are
    not in the second, in order. *)
Definition set_difference (a b : list ObjectId) : list ObjectId :=
  filter (fun x => negb (existsb (Z.eqb x) b)) a.

Section PropertyListTest.

(** The codes of [mtp::ObjectProperty], with [All]; the enumeration is not
    among the sources. *)
Variable property_t : Type.
Variable property_eqb : property_t -> property_t -> bool.
Variable All : property_t.

(** The callback given to the parser in [Session::GetObjectPropertyList],
    on the object list and the verdict so far. *)
Definition on_tuple (property : property_t)
  (state : list ObjectId * bool) (tuple : ObjectId * property_t)
  : list ObjectId * bool :=
  let (objectList, ok) := state in
  let (objectId, p) := tuple in
  if property_eqb p property || property_eqb property All
  then (set_insert objectId objectList, ok)
  else (objectList, false).

(** [Session::GetObjectPropertyList(parent, originalObjectList, property)]
    from the tuples that the parser found: whether it prints [PASSED]. *)
Definition GetObjectPropertyList_verdict (originalObjectList : list ObjectId)
  (property : property_t) (tuples : list (ObjectId * property_t)) : bool :=
  let (objectList, ok) := fold_left (on_tuple property) tuples ([], true) in
  match set_difference objectList originalObjectList with
  | [] => ok
  | _ :: _ => false
  end.

End PropertyListTest.

(** *** Commands *)

Section Shell.

(** The state of the session and all it works on. *)
Variable St : Type.

(** [cli::ICommand], which is not among the sources. *)
Record ICommand : Type := {
  Execute : St -> list string -> result unit * St;
  GetArgumentCount : nat;
  Complete : St -> nat -> string -> result (list string)
}.

(** The lexer of [cli/Tokenizer.h], which is not among the sources. *)
Variable Tokenizer : string -> list string.

(** The multimap [_commands], in the order of its keys. *)
Variable _commands : list (string * ICommand).

Variable _running : St -> bool.
Variable _interactive : bool.
Variable _showPrompt : bool.

(** [Session::ProcessCommand(Tokens &&)]; [find] gives the first command
    of the name. *)
Definition ProcessCommand_tokens (st : St) (tokens : list string)
  : result unit * St :=
  match tokens with
  | [] => (Throw (runtime_error "no token passed to ProcessCommand"), st)
  | cmdName :: args =>
    match List.find (fun c => String.eqb (fst c) cmdName) _commands with
    | None => (Throw (runtime_error ("invalid command " ++ cmdName)), st)
    | Some cmd => Execute (snd cmd) st args
    end
  end.

(** [Session::ProcessCommand(const std::string &)]. *)
Definition ProcessCommand (st : St) (input : string) : result unit * St :=
  match Tokenizer input with
  | [] => (Ok tt, st)
  | tokens => ProcessCommand_tokens st tokens
  end.

(** What [Session::InteractiveInput] writes. *)
Inductive output : Type :=
| banner
| error_output (e : exception)
| locked_hint
| last_newline.

Definition InvalidStorageID : Z := 0x2008.

(** What the two [catch] clauses of the loop write. *)
Definition report (e : exception) : list output :=
  match e with
  | InvalidResponseException code =>
    error_output e ::
    (if (code =? InvalidStorageID)%Z then [locked_hint] else [])
  | _ => [error_output e]
  end.

(** The loop of [Session::InteractiveInput] over the lines that [ReadLine]
    gives; at the end of the list [ReadLine] returns false. *)
Fixpoint InteractiveInput_loop (st : St) (lines : list string)
  : St * list output :=
  match lines with
  | [] => (st, if _showPrompt then [last_newline] else [])
  | input :: others =>
    match ProcessCommand st input with
    | (Ok _, st') =>
      if negb (_running st') then (st', [])
      else InteractiveInput_loop st' others
    | (Throw e, st') =>
      let (st'', out) := InteractiveInput_loop st' others in
      (st'', (report e ++ out)%list)
    end
  end.

Definition InteractiveInput (st : St) (lines : list string)
  : St * list output :=
  let (st', out) := InteractiveInput_loop st lines in
  (st', ((if _interactive && _showPrompt then [banner] else []) ++ out)%list).

(** The lines that are processed without ending the session: the state
    and the output after them; [None] if one of them ends it. *)
Fixpoint all_processed (st : St) (lines : list string)
  : option (St * list output) :=
  match lines with
  | [] => Some (st, [])
  | input :: others =>
    match ProcessCommand st input with
    | (Ok _, st') =>
      if negb (_running st') then None else all_processed st' others
    | (Throw e, st') =>
      match all_processed st' others with
      | Some (st'', out) => Some (st'', (report e ++ out)%list)
      | None => None
      end
    end
  end.

(** [Session::CompletionCallback(text, start, end)] with the line buffer
    of the command line; [None] is [NULL]. *)
Definition CompletionCallback (st : St) (lineBuffer text : string)
  (start end_ : Z) : result (option (list string)) :=
  let tokens := Tokenizer lineBuffer in
  if (length tokens <? 2)%nat then
    let command := last tokens "" in
    let comp :=
      filter (fun name =>
                negb (negb (end_ =? 0)%Z && negb (BeginsWith name command)))
             (map fst _commands) in
    match comp with
    | [] => Ok None
    | _ :: _ => Ok (Some comp)
    end
  else
    let commandName := hd "" tokens in
    let idx := (length tokens - 2)%nat in
    match List.find
            (fun c => String.eqb (fst c) commandName &&
                      (idx <? GetArgumentCount (snd c))%nat)
            _commands with
    | None => Ok None
    | Some c =>
      matches <- Complete (snd c) st idx text ;;
      match matches with
      | [] => Ok None
      | _ :: _ => Ok (Some matches)
      end
    end.

End Shell.

End cli_Shell.

(** *** mtp/backend/darwin/usb/DeviceDescriptor.h *)

Module usb.

(** [mtp::usb::Configuration]: the configuration value of the descriptor
    and the interfaces. *)
Record Configuration (Iface : Type) : Type := {
  bConfigurationValue : Z;
  _interfaces : list Iface
}.

(** An [int] taken as a [size_t] (LP64). *)
Definition int_to_size_t (i : Z) : Z := i mod 2 ^ 64.

(** A [size_t] returned as an [int]. *)
Definition size_t_to_int (n : Z) : Z :=
  (n + 2 ^ 31) mod 2 ^ 32 - 2 ^ 31.

Section Configuration.

Variable Iface : Type.
Variables Device Config : Type.

Definition GetIndex (c : Configuration Iface) : Z := bConfigurationValue c.

Definition GetInterfaceCount (c : Configuration Iface) : Z :=
  size_t_to_int (Z.of_nat (length (_interfaces c))).

Definition GetInterfaceAltSettingsCount (c : Configuration Iface) (idx : Z)
  : Z := 1.

(** [std::vector::at]: [None] stands for [std::out_of_range]. *)
Definition at_ (v : list Iface) (n : Z) : option Iface :=
  if (n <? Z.of_nat (length v))%Z then nth_error v (Z.to_nat n) else None.

(** [Configuration::GetInterface]: what the new [Interface] is made of. *)
Definition GetInterface (c : Configuration Iface) (device : Device)
  (config : Config) (idx settings : Z) : option (Device * Config * Iface) :=
  match at_ (_interfaces c) (int_to_size_t idx) with
  | Some i => Some (device, config, i)
  | None => None
  end.

End Configuration.

End usb.

(** *** More to run the session on *)

Module example_shell.

Import mtp.
Import cli.
Import cli_Shell.

Local Open Scope string_scope.

(** The example device, except that the info of [b.mp3] (handle 7) cannot
    be read. *)
Definition world_unreadable : World example.state :=
  {| GetObjectHandles := GetObjectHandles example.world;
     GetObjectStringProperty := GetObjectStringProperty example.world;
     GetObjectIntegerProperty := GetObjectIntegerProperty example.world;
     GetObjectParent := GetObjectParent example.world;
     GetObjectInfo := fun st i =>
       if (i =? 7)%Z then Throw example.AccessDenied
       else GetObjectInfo example.world st i;
     CreateDirectory := CreateDirectory example.world;
     SendObjectInfo := SendObjectInfo example.world;
     SendObject := SendObject example.world;
     GetObject := GetObject example.world;
     SetSize := SetSize example.world;
     ObjectFormatFromFilename := ObjectFormatFromFilename example.world;
     ObjectInputStream := ObjectInputStream example.world;
     ObjectOutputStream := ObjectOutputStream example.world;
     stat := stat example.world;
     opendir := opendir example.world;
     mkdir := mkdir example.world |}.

(** A device without property lists. *)
Definition no_property_lists (st : example.state) : bool := false.

Definition no_property_list (st : example.state) (parent : ObjectId)
  (format : ObjectFormat.t) (property : ObjectProperty.t) (depth group : Z)
  : result (list u8) :=
  Throw (InvalidResponseException 0x2005).

Definition parse_nothing (data : list u8)
  : list (ObjectId * ObjectProperty.t * string) * option exception :=
  ([], None).

(** A session state that is a counter and the flag [_running]; a lexer
    that takes a line that is not empty as one token; and three
    commands. *)
Definition shell_state : Type := nat * bool.

Definition one_token (input : string) : list string :=
  if String.eqb input "" then [] else [input].

Definition count : ICommand shell_state :=
  {| Execute := fun st _ => (Ok tt, (S (fst st), snd st));
     GetArgumentCount := 0;
     Complete := fun _ _ _ => Ok [] |}.

Definition locked : ICommand shell_state :=
  {| Execute := fun st _ => (Throw (InvalidResponseException 0x2008), st);
     GetArgumentCount := 0;
     Complete := fun _ _ _ => Ok [] |}.

Definition quit : ICommand shell_state :=
  {| Execute := fun st _ => (Ok tt, (fst st, false));
     GetArgumentCount := 0;
     Complete := fun _ _ _ => Ok [] |}.

Definition commands : list (string * ICommand shell_state) :=
  [("count", count); ("ls", locked); ("ls", locked); ("lsext", locked);
   ("quit", quit)].

End example_shell.

(** *** Devices that list no reserved handle *)

Module device_laws.

Import mtp.
Import cli.

(** No handle that the device lists is the reserved value [Device]. *)
Definition lists_no_Device (W : Type) (world : World W)
  (session : Session) (w : W) : Prop :=
  forall parent handles,
    GetObjectHandles world w (_cs session) ObjectFormat.Any parent
    = Ok handles ->
    ~ In Device handles.

End device_laws.

(** *** A directory that cannot be opened *)

Module example_private.

Import mtp.
Import cli.

Local Open Scope string_scope.

(** A local directory [album] whose second entry is the directory
    [private], which [stat] examines and [opendir] cannot open. *)
Definition disk : list (LocalPath * example.node) :=
  [ ("album", example.Directory ["a.mp3"; "private"; "c.mp3"]);
    ("album/a.mp3", example.File 3);
    ("album/private", example.Directory ["secret.mp3"]);
    ("album/private/secret.mp3", example.File 4);
    ("album/c.mp3", example.File 5) ].

Definition st0 : example.state :=
  {| example.objects := example.phone;
     example.next_id := 9%Z;
     example.create_error := None;
     example.refused := [];
     example.files := disk;
     example.written := [] |}.

Definition world : World example.state :=
  {| GetObjectHandles := GetObjectHandles example.world;
     GetObjectStringProperty := GetObjectStringProperty example.world;
     GetObjectIntegerProperty := GetObjectIntegerProperty example.world;
     GetObjectParent := GetObjectParent example.world;
     GetObjectInfo := GetObjectInfo example.world;
     CreateDirectory := CreateDirectory example.world;
     SendObjectInfo := SendObjectInfo example.world;
     SendObject := SendObject example.world;
     GetObject := GetObject example.world;
     SetSize := SetSize example.world;
     ObjectFormatFromFilename := ObjectFormatFromFilename example.world;
     ObjectInputStream := ObjectInputStream example.world;
     ObjectOutputStream := ObjectOutputStream example.world;
     stat := stat example.world;
     opendir := fun st path =>
       if String.eqb path "album/private" then None
       else opendir example.world st path;
     mkdir := mkdir example.world |}.

End example_private.

(** ** Tactics *)

Ltac break_match :=
  match goal with
  | |- context [match ?x with _ => _ end] => destruct x eqn:?
  end.

Ltac break_match_in H :=
  match type of H with
  | context [match ?x with _ => _ end] => destruct x eqn:?
  end.

Ltac inv H := inversion H; subst; clear H.

(** * Part II: the properties *)

Unset Implicit Arguments.

(** ** Joined streams *)

Section InputContent.

Import mtp.

Variable S : IObjectInputStream.
Variable good : in_state S -> Prop.
Variable content : in_state S -> list u8.

Hypothesis good_read : forall s size, good s -> exists s',
  in_Read S s size = (Ok (firstn size (content s)), s') /\
  content s' = skipn size (content s) /\ good s'.

(** Draining such a stream in chunks returns its content. *)
Lemma read_all_good (chunk : nat) :
  0 < chunk ->
  forall fuel s, good s -> length (content s) < fuel ->
  read_all S fuel chunk s = Some (Ok (content s)).
Proof.
  intros Hchunk fuel.
  induction fuel as [|fuel IH]; intros s Hs Hlen; [lia|].
  simpl.
  destruct (good_read s chunk Hs) as [s' [Hread [Hrest Hs']]].
  rewrite Hread.
  destruct (length (firstn chunk (content s)) <? chunk) eqn:Hshort.
  - apply Nat.ltb_lt in Hshort.
    rewrite length_firstn in Hshort.
    rewrite firstn_all2 by lia.
    reflexivity.
  - apply Nat.ltb_ge in Hshort.
    rewrite length_firstn in Hshort.
    rewrite IH; auto.
    + rewrite Hrest, firstn_skipn. reflexivity.
    + rewrite Hrest, length_skipn. lia.
Qed.

End InputContent.

Section JoinedInput.

Import mtp.
Import JoinedObjectInputStream.

Variables S1 S2 : IObjectInputStream.
Variable c1 : in_state S1 -> list u8.
Variable c2 : in_state S2 -> list u8.

Hypothesis reads1 : reads_content S1 c1.
Hypothesis reads2 : reads_content S2 c2.

(** One [Read] of a joined stream that is not cancelled hands out the next
    bytes of the first content followed by the second. *)
Lemma Read_content (j : t S1 S2) (size : nat) :
  _cancelled j = false ->
  exists j' cs,
    Read j size = (Ok (firstn size (content c1 c2 j)), j', cs) /\
    content c1 c2 j' = skipn size (content c1 c2 j) /\
    _cancelled j' = false.
Proof.
  intros Hc. unfold Read, content. rewrite Hc. simpl.
  destruct (_stream1Exhausted j) eqn:Hex; simpl.
  - destruct (reads2 (_stream2 j) size) as [s2 [Hr Hrest]].
    rewrite Hr. do 2 eexists. split; [reflexivity|].
    simpl. rewrite Hex. auto.
  - destruct (reads1 (_stream1 j) size) as [s1 [Hr1 Hrest1]].
    rewrite Hr1.
    rewrite firstn_app, skipn_app.
    destruct (length (firstn size (c1 (_stream1 j))) <? size) eqn:Hshort.
    + apply Nat.ltb_lt in Hshort. rewrite length_firstn in Hshort.
      rewrite (@firstn_all2 _ size (c1 (_stream1 j))) by lia.
      rewrite (@skipn_all2 _ size (c1 (_stream1 j))) by lia.
      simpl.
      destruct (reads2 (_stream2 j) (size - length (c1 (_stream1 j))))
        as [s2 [Hr2 Hrest2]].
      rewrite Hr2. do 2 eexists. split; [reflexivity|]. simpl. auto.
    + apply Nat.ltb_ge in Hshort. rewrite length_firstn in Hshort.
      replace (size - length (c1 (_stream1 j))) with 0 by lia.
      simpl. rewrite app_nil_r.
      do 2 eexists. split; [reflexivity|]. simpl. rewrite Hex, Hrest1. auto.
Qed.

Lemma as_stream_good (j : t S1 S2) (size : nat) :
  _cancelled j = false ->
  exists j',
    in_Read (as_stream S1 S2) j size
      = (Ok (firstn size (content c1 c2 j)), j') /\
    content c1 c2 j' = skipn size (content c1 c2 j) /\
    _cancelled j' = false.
Proof.
  intros Hc. destruct (Read_content j size Hc) as [j' [cs [Hr [Hrest Hc']]]].
  exists j'. simpl. rewrite Hr. auto.
Qed.

End JoinedInput.

Lemma firstn_plus (A : Type) (n m : nat) (l : list A) :
  firstn (n + m) l = firstn n l ++ firstn m (skipn n l).
Proof.
  revert l. induction n as [|n IH]; intros l; simpl; [reflexivity|].
  destruct l as [|a l]; simpl.
  - destruct m; reflexivity.
  - rewrite IH. reflexivity.
Qed.

Section JoinedOutput.

Import mtp.
Import JoinedObjectOutputStream.

Variables S1 S2 : IObjectOutputStream.
Variable st1 : out_state S1 -> list u8.
Variable st2 : out_state S2 -> list u8.

Hypothesis writes1 : writes_content S1 st1.
Hypothesis writes2 : writes_content S2 st2.

(** One [Write] of a joined stream that is not cancelled stores a prefix
    of the data: in the first stream, and behind that in the second one. *)
Lemma Write_stored (j : t S1 S2) (data : list u8) :
  _cancelled j = false ->
  exists r j' cs x y,
    Write j data = (Ok r, j', cs) /\
    r <= length data /\
    st1 (_stream1 j') = st1 (_stream1 j) ++ x /\
    st2 (_stream2 j') = st2 (_stream2 j) ++ y /\
    x ++ y = firstn r data /\
    (_stream1Exhausted j = true -> x = [] /\ _stream1Exhausted j' = true) /\
    (y = [] \/ _stream1Exhausted j' = true) /\
    _cancelled j' = false.
Proof.
  intros Hc. unfold Write. rewrite Hc. simpl.
  destruct (_stream1Exhausted j) eqn:Hex; simpl.
  - destruct (writes2 (_stream2 j) data) as [r [s2 [Hw [Hle Hst]]]].
    rewrite Hw.
    exists r, (set_stream2 j s2), [Stream2 (length data)], [], (firstn r data).
    simpl. rewrite app_nil_r. repeat split; auto.
  - destruct (writes1 (_stream1 j) data) as [r [s1 [Hw [Hle Hst]]]].
    rewrite Hw.
    destruct (r <? length data) eqn:Hshort.
    + apply Nat.ltb_lt in Hshort.
      destruct (writes2 (_stream2 j) (skipn r data))
        as [r2 [s2 [Hw2 [Hle2 Hst2]]]].
      rewrite Hw2. rewrite length_skipn in Hle2.
      do 3 eexists. exists (firstn r data), (firstn r2 (skipn r data)).
      split; [reflexivity|]. simpl.
      rewrite firstn_plus.
      repeat split; auto; try lia; discriminate.
    + do 3 eexists. exists (firstn r data), [].
      split; [reflexivity|]. simpl. rewrite !app_nil_r.
      repeat split; auto; discriminate.
Qed.

(** Writing a sequence of buffers to a joined stream stores the bytes taken
    in the first stream and, behind them, in the second. *)
Lemma write_all_stored (buffers : list (list u8)) :
  forall j : t S1 S2,
  _cancelled j = false ->
  exists n j' x y,
    write_all (as_stream S1 S2) j buffers = (Ok n, j') /\
    n <= length (concat buffers) /\
    st1 (_stream1 j') = st1 (_stream1 j) ++ x /\
    st2 (_stream2 j') = st2 (_stream2 j) ++ y /\
    x ++ y = firstn n (concat buffers) /\
    (_stream1Exhausted j = true -> x = []).
Proof.
  induction buffers as [|data rest IH]; intros j Hc.
  - exists 0, j, [], []. simpl. rewrite !app_nil_r. repeat split; auto.
  - destruct (Write_stored j data Hc)
      as (r & j1 & cs & x & y & Hw & Hle & Hx & Hy & Hxy & Hex & Hor & Hc1).
    cbn [write_all as_stream out_Write]. rewrite Hw. cbn [fst].
    destruct (r <? length data) eqn:Hshort.
    + apply Nat.ltb_lt in Hshort.
      exists r, j1, x, y. simpl. rewrite length_app.
      rewrite firstn_app. replace (r - length data) with 0 by lia.
      simpl. rewrite app_nil_r.
      repeat split; auto; try lia. intros H. apply Hex in H. tauto.
    + apply Nat.ltb_ge in Hshort.
      assert (r = length data) by lia. subst r.
      rewrite firstn_all in Hxy.
      destruct (IH j1 Hc1)
        as (n & j2 & x' & y' & Hw' & Hle' & Hx' & Hy' & Hxy' & Hex').
      rewrite Hw'.
      exists (length data + n), j2, (x ++ x'), (y ++ y').
      simpl. rewrite length_app.
      rewrite firstn_app. rewrite firstn_all2 by lia.
      replace (length data + n - length data) with n by lia.
      rewrite Hx', Hy', Hx, Hy, <- !app_assoc.
      repeat split; auto; try lia.
      * rewrite <- Hxy', <- Hxy.
        destruct Hor as [Hy0 | Hex1].
        -- subst y. rewrite !app_nil_r. reflexivity.
        -- rewrite (Hex' Hex1). simpl. rewrite <- !app_assoc. reflexivity.
      * intros H. destruct (Hex H) as [Hx0 Hex1].
        rewrite Hx0, (Hex' Hex1). reflexivity.
Qed.

End JoinedOutput.

Section JoinedOutputRoom.

Import mtp.
Import JoinedObjectOutputStream.

Variables S1 S2 : IObjectOutputStream.
Variable st1 : out_state S1 -> list u8.
Variable st2 : out_state S2 -> list u8.
Variable room1 : out_state S1 -> nat.
Variable room2 : out_state S2 -> nat.

Hypothesis writes1 : stream_laws.writes_with_room S1 st1 room1.
Hypothesis writes2 : stream_laws.writes_with_room S2 st2 room2.

(** One [Write] of a joined stream whose parts store what they have room
    for: the first stream is written while it is not exhausted, the bytes
    it has no room for go to the second stream within the same call, and
    an exhausted first stream is left alone. *)
Lemma Write_room (j : t S1 S2) (data : list u8) :
  _cancelled j = false ->
  let size := length data in
  let r1 := room1 (_stream1 j) in
  let r2 := room2 (_stream2 j) in
  exists j',
    _stream1Exhausted j' = (_stream1Exhausted j || (r1 <? size)) /\
    Write j data =
      (if _stream1Exhausted j
       then (Ok (Nat.min size r2), j', [Stream2 size])
       else if r1 <? size
       then (Ok (r1 + Nat.min (size - r1) r2), j',
             [Stream1 size; OnStream1Exhausted; Stream2 (size - r1)])
       else (Ok size, j', [Stream1 size])) /\
    st1 (_stream1 j') =
      st1 (_stream1 j) ++
      (if _stream1Exhausted j then [] else firstn r1 data) /\
    st2 (_stream2 j') =
      st2 (_stream2 j) ++
      (if _stream1Exhausted j then firstn r2 data
       else firstn r2 (skipn r1 data)) /\
    room1 (_stream1 j') =
      (if _stream1Exhausted j then r1 else r1 - size) /\
    room2 (_stream2 j') =
      (if _stream1Exhausted j then r2 - size else r2 - (size - r1)) /\
    _cancelled j' = false.
Proof.
  intros Hc size r1 r2. subst size r1 r2.
  unfold Write. rewrite Hc. cbn [CheckCancelled].
  destruct (_stream1Exhausted j) eqn:Hex; cbn [negb orb].
  - destruct (writes2 (_stream2 j) data) as [s2 [Hw [Hst Hroom]]].
    rewrite Hw. exists (set_stream2 j s2). simpl.
    rewrite app_nil_r. repeat split; auto.
  - destruct (writes1 (_stream1 j) data) as [s1 [Hw [Hst Hroom]]].
    rewrite Hw.
    destruct (room1 (_stream1 j) <? length data) eqn:Hshort.
    + apply Nat.ltb_lt in Hshort.
      rewrite Nat.min_r by lia.
      apply Nat.ltb_lt in Hshort. rewrite Hshort.
      cbn [_stream2 set_stream1Exhausted set_stream1].
      destruct (writes2 (_stream2 j) (skipn (room1 (_stream1 j)) data))
        as [s2 [Hw2 [Hst2 Hroom2]]].
      rewrite Hw2. rewrite length_skipn in *.
      eexists. split; [|split; [reflexivity|]]; simpl; auto.
    + apply Nat.ltb_ge in Hshort.
      rewrite Nat.min_l by lia.
      rewrite Nat.ltb_irrefl.
      exists (set_stream1 j s1). simpl.
      rewrite skipn_all2 by lia. rewrite firstn_nil, app_nil_r.
      replace (length data - room1 (_stream1 j)) with 0 by lia.
      rewrite Nat.sub_0_r.
      repeat split; auto.
Qed.

(** Writing a sequence of buffers to a joined stream whose parts store what
    they have room for: the stream takes what its parts have room for, the
    first stream stores the leading bytes up to its room, and the second
    stream the bytes behind them. *)
Lemma write_all_room (buffers : list (list u8)) :
  forall j : t S1 S2,
  _cancelled j = false ->
  let r1 := if _stream1Exhausted j then 0 else room1 (_stream1 j) in
  let r2 := room2 (_stream2 j) in
  exists j',
    write_all (as_stream S1 S2) j buffers
      = (Ok (Nat.min (length (concat buffers)) (r1 + r2)), j') /\
    st1 (_stream1 j') = st1 (_stream1 j) ++ firstn r1 (concat buffers) /\
    st2 (_stream2 j') =
      st2 (_stream2 j) ++ firstn r2 (skipn r1 (concat buffers)).
Proof.
  induction buffers as [|data rest IH]; intros j Hc r1 r2; subst r1 r2.
  - exists j. simpl. rewrite !firstn_nil, skipn_nil, firstn_nil, !app_nil_r.
    repeat split.
  - destruct (Write_room j data Hc)
      as (j1 & Hex1 & Hw & Hs1 & Hs2 & Hr1 & Hr2 & Hc1).
    destruct (IH j1 Hc1) as (j2 & Hw' & Hs1' & Hs2').
    cbn [write_all as_stream out_Write]. rewrite Hw.
    cbn [concat]. rewrite length_app.
    rewrite Hs1, Hex1, Hr1 in Hs1'.
    rewrite Hs2, Hex1, Hr1, Hr2 in Hs2'.
    rewrite Hex1, Hr1, Hr2 in Hw'.
    clear Hw Hr1 Hr2 Hex1 IH.
    destruct (_stream1Exhausted j) eqn:Hex; cbn [orb fst] in *.
    + (* the second stream alone *)
      destruct (Nat.min (length data) (room2 (_stream2 j)) <? length data)
        eqn:Hshort.
      * apply Nat.ltb_lt in Hshort.
        exists j1. rewrite Hs1, Hs2. cbn [firstn skipn].
        rewrite firstn_app.
        replace (room2 (_stream2 j) - length data) with 0 by lia.
        rewrite firstn_O, !app_nil_r.
        split; [f_equal; f_equal; lia|]. split; reflexivity.
      * apply Nat.ltb_ge in Hshort.
        rewrite Hw'. exists j2. rewrite Hs1', Hs2'. cbn [firstn skipn].
        rewrite firstn_app, (firstn_all2 data) by lia.
        rewrite !app_nil_r, <- !app_assoc.
        split; [f_equal; f_equal; lia|]. split; reflexivity.
    + destruct (room1 (_stream1 j) <? length data) eqn:Hfull; cbn [fst] in *.
      * (* the first stream comes back short *)
        apply Nat.ltb_lt in Hfull.
        assert (Hskip : skipn (room1 (_stream1 j)) (data ++ concat rest)
                        = skipn (room1 (_stream1 j)) data ++ concat rest).
        { rewrite skipn_app.
          replace (room1 (_stream1 j) - length data) with 0 by lia.
          reflexivity. }
        assert (Hfirst : firstn (room1 (_stream1 j)) (data ++ concat rest)
                         = firstn (room1 (_stream1 j)) data).
        { rewrite firstn_app.
          replace (room1 (_stream1 j) - length data) with 0 by lia.
          rewrite firstn_O, app_nil_r. reflexivity. }
        rewrite Hskip, Hfirst.
        destruct (room1 (_stream1 j)
                  + Nat.min (length data - room1 (_stream1 j))
                      (room2 (_stream2 j)) <? length data) eqn:Hshort.
        -- apply Nat.ltb_lt in Hshort.
           exists j1. rewrite Hs1, Hs2.
           rewrite firstn_app, length_skipn.
           replace (room2 (_stream2 j)
                    - (length data - room1 (_stream1 j))) with 0 by lia.
           rewrite firstn_O, app_nil_r.
           split; [f_equal; f_equal; lia|]. split; reflexivity.
        -- apply Nat.ltb_ge in Hshort.
           rewrite Hw'. exists j2. rewrite Hs1', Hs2'.
           cbn [firstn skipn]. rewrite app_nil_r.
           rewrite (firstn_app (room2 (_stream2 j))), length_skipn.
           rewrite (firstn_all2 (skipn (room1 (_stream1 j)) data))
             by (rewrite length_skipn; lia).
           rewrite <- !app_assoc.
           split; [f_equal; f_equal; lia|]. split; reflexivity.
      * (* the first stream takes the whole buffer *)
        apply Nat.ltb_ge in Hfull.
        rewrite Nat.ltb_irrefl.
        rewrite Hw'. exists j2. rewrite Hs1', Hs2'.
        rewrite (skipn_all2 data) by lia. rewrite firstn_nil, app_nil_r.
        replace (length data - room1 (_stream1 j)) with 0 by lia.
        rewrite Nat.sub_0_r.
        rewrite firstn_app, skipn_app, <- !app_assoc.
        rewrite (firstn_all2 data) by lia.
        rewrite (skipn_all2 data) by lia.
        split; [f_equal; f_equal; lia|]. split; reflexivity.
Qed.

End JoinedOutputRoom.

(** *** The order of the calls *)

Lemma follows_protocol_app (cs cs' : list mtp.call) :
  forall e,
  mtp.follows_protocol e (cs ++ cs') =
  match mtp.follows_protocol e cs with
  | Some e' => mtp.follows_protocol e' cs'
  | None => None
  end.
Proof.
  induction cs as [|c cs IH]; intros e; simpl; [reflexivity|].
  destruct c, e; simpl; auto.
Qed.

Lemma follows_protocol_exhausted (cs : list mtp.call) :
  forall e', mtp.follows_protocol true cs = Some e' ->
  e' = true /\ forallb mtp.is_Stream2 cs = true /\ mtp.hook_calls cs = 0.
Proof.
  induction cs as [|c cs IH]; intros e' H; simpl in *.
  - inv H. auto.
  - destruct c; try discriminate. simpl. apply IH in H. tauto.
Qed.

Lemma follows_protocol_hook_calls (cs : list mtp.call) :
  forall e', mtp.follows_protocol false cs = Some e' ->
  mtp.hook_calls cs = (if e' then 1 else 0).
Proof.
  induction cs as [|c cs IH]; intros e' H; simpl in *.
  - inv H. reflexivity.
  - destruct c; try discriminate; unfold mtp.hook_calls in *; simpl.
    + auto.
    + apply follows_protocol_exhausted in H.
      destruct H as [He [_ Hn]]. subst e'.
      unfold mtp.hook_calls in Hn. rewrite Hn. reflexivity.
Qed.

Section InputProtocol.

Import mtp.
Import JoinedObjectInputStream.

Variables S1 S2 : IObjectInputStream.

Lemma Read_protocol (j : t S1 S2) (size : nat) :
  follows_protocol (_stream1Exhausted j) (snd (Read j size))
  = Some (_stream1Exhausted (snd (fst (Read j size)))).
Proof.
  unfold Read, CheckCancelled.
  destruct (_cancelled j); simpl.
  - destruct (_stream1Exhausted j); reflexivity.
  - destruct (_stream1Exhausted j) eqn:Hex; simpl.
    + destruct (in_Read S2 (_stream2 j) size); simpl. rewrite Hex. auto.
    + destruct (in_Read S1 (_stream1 j) size) as [[d1|e] s1]; simpl;
        rewrite ?Hex; auto.
      destruct (length d1 <? size); simpl; rewrite ?Hex; auto.
      destruct (in_Read S2 (_stream2 j) (size - length d1)) as [[d2|e] s2];
        reflexivity.
Qed.

Lemma Read_exhausted (j : t S1 S2) (size : nat) :
  _stream1Exhausted j = true ->
  _stream1Exhausted (snd (fst (Read j size))) = true /\
  _stream1 (snd (fst (Read j size))) = _stream1 j /\
  forallb is_Stream2 (snd (Read j size)) = true.
Proof.
  intros Hex. unfold Read, CheckCancelled.
  destruct (_cancelled j); simpl; auto.
  rewrite Hex. simpl.
  destruct (in_Read S2 (_stream2 j) size); simpl. auto.
Qed.

Lemma Read_exhausts (j : t S1 S2) (size : nat) :
  _cancelled j = false ->
  _stream1Exhausted j = false ->
  (_stream1Exhausted (snd (fst (Read j size))) = true <->
   exists d1 s1, in_Read S1 (_stream1 j) size = (Ok d1, s1) /\
                 length d1 < size).
Proof.
  intros Hc Hex. unfold Read, CheckCancelled. rewrite Hc, Hex. simpl.
  destruct (in_Read S1 (_stream1 j) size) as [[d1|e] s1]; simpl.
  - destruct (length d1 <? size) eqn:Hshort.
    + apply Nat.ltb_lt in Hshort.
      destruct (in_Read S2 (_stream2 j) (size - length d1)) as [[d2|e] s2];
        simpl; split; eauto.
    + apply Nat.ltb_ge in Hshort. simpl. rewrite Hex.
      split; [discriminate|]. intros (d & s & Heq & Hlt). inv Heq. lia.
  - rewrite Hex. split; [discriminate|]. intros (d & s & Heq & _).
    discriminate.
Qed.

Lemma run_protocol (reqs : list request) :
  forall j : t S1 S2,
  follows_protocol (_stream1Exhausted j) (snd (run j reqs))
  = Some (_stream1Exhausted (fst (run j reqs))).
Proof.
  induction reqs as [|[size|] reqs IH]; intros j; simpl.
  - reflexivity.
  - pose proof (Read_protocol j size) as Hstep.
    destruct (Read j size) as [[r j1] cs]. simpl in Hstep.
    specialize (IH j1). destruct (run j1 reqs) as [j2 cs']. simpl in *.
    rewrite follows_protocol_app, Hstep. exact IH.
  - apply (IH (Cancel j)).
Qed.

End InputProtocol.

Section OutputProtocol.

Import mtp.
Import JoinedObjectOutputStream.

Variables S1 S2 : IObjectOutputStream.

Lemma Write_protocol (j : t S1 S2) (data : list u8) :
  follows_protocol (_stream1Exhausted j) (snd (Write j data))
  = Some (_stream1Exhausted (snd (fst (Write j data)))).
Proof.
  unfold Write, CheckCancelled.
  destruct (_cancelled j); simpl.
  - destruct (_stream1Exhausted j); reflexivity.
  - destruct (_stream1Exhausted j) eqn:Hex; simpl.
    + destruct (out_Write S2 (_stream2 j) data); simpl. rewrite Hex. auto.
    + destruct (out_Write S1 (_stream1 j) data) as [[r|e] s1]; simpl;
        rewrite ?Hex; auto.
      destruct (r <? length data); simpl; rewrite ?Hex; auto.
      destruct (out_Write S2 (_stream2 j) (skipn r data)) as [[r2|e] s2];
        reflexivity.
Qed.

Lemma Write_exhausted (j : t S1 S2) (data : list u8) :
  _stream1Exhausted j = true ->
  _stream1Exhausted (snd (fst (Write j data))) = true /\
  _stream1 (snd (fst (Write j data))) = _stream1 j /\
  forallb is_Stream2 (snd (Write j data)) = true.
Proof.
  intros Hex. unfold Write, CheckCancelled.
  destruct (_cancelled j); simpl; auto.
  rewrite Hex. simpl.
  destruct (out_Write S2 (_stream2 j) data); simpl. auto.
Qed.

Lemma Write_exhausts (j : t S1 S2) (data : list u8) :
  _cancelled j = false ->
  _stream1Exhausted j = false ->
  (_stream1Exhausted (snd (fst (Write j data))) = true <->
   exists r s1, out_Write S1 (_stream1 j) data = (Ok r, s1) /\
                r < length data).
Proof.
  intros Hc Hex. unfold Write, CheckCancelled. rewrite Hc, Hex. simpl.
  destruct (out_Write S1 (_stream1 j) data) as [[r|e] s1]; simpl.
  - destruct (r <? length data) eqn:Hshort.
    + apply Nat.ltb_lt in Hshort.
      destruct (out_Write S2 (_stream2 j) (skipn r data)) as [[r2|e] s2];
        simpl; split; eauto.
    + apply Nat.ltb_ge in Hshort. simpl. rewrite Hex.
      split; [discriminate|]. intros (d & s & Heq & Hlt). inv Heq. lia.
  - rewrite Hex. split; [discriminate|]. intros (d & s & Heq & _).
    discriminate.
Qed.

Lemma run_write_protocol (reqs : list request) :
  forall (j : t S1 S2) (pending : list u8),
  follows_protocol (_stream1Exhausted j) (snd (run j pending reqs))
  = Some (_stream1Exhausted (fst (run j pending reqs))).
Proof.
  induction reqs as [|[size|] reqs IH]; intros j pending; simpl.
  - reflexivity.
  - pose proof (Write_protocol j (firstn size pending)) as Hstep.
    destruct (Write j (firstn size pending)) as [[r j1] cs]. simpl in Hstep.
    specialize (IH j1 (skipn size pending)).
    destruct (run j1 (skipn size pending) reqs) as [j2 cs']. simpl in *.
    rewrite follows_protocol_app, Hstep. exact IH.
  - apply (IH (Cancel j)).
Qed.

End OutputProtocol.

Section JoinedInputCalls.

Import mtp.
Import JoinedObjectInputStream.

Variables S1 S2 : IObjectInputStream.
Variable c1 : in_state S1 -> list u8.
Variable c2 : in_state S2 -> list u8.

Hypothesis reads1 : reads_content S1 c1.
Hypothesis reads2 : reads_content S2 c2.

(** The call in which the first stream comes back short is completed from
    the second stream. *)
Lemma Read_switch (j : t S1 S2) (size : nat) :
  _cancelled j = false ->
  _stream1Exhausted j = false ->
  length (c1 (_stream1 j)) < size ->
  exists j',
    Read j size =
      (Ok (c1 (_stream1 j)
           ++ firstn (size - length (c1 (_stream1 j))) (c2 (_stream2 j))),
       j',
       [Stream1 size; OnStream1Exhausted;
        Stream2 (size - length (c1 (_stream1 j)))]) /\
    _stream1Exhausted j' = true.
Proof.
  intros Hc Hex Hlt. unfold Read, CheckCancelled. rewrite Hc, Hex. simpl.
  destruct (reads1 (_stream1 j) size) as [s1 [Hr1 _]]. rewrite Hr1.
  rewrite firstn_all2 by lia.
  apply Nat.ltb_lt in Hlt. rewrite Hlt.
  destruct (reads2 (_stream2 j) (size - length (c1 (_stream1 j))))
    as [s2 [Hr2 _]].
  simpl. rewrite Hr2. eexists. split; reflexivity.
Qed.

(** Before that, a call is served by the first stream alone. *)
Lemma Read_first (j : t S1 S2) (size : nat) :
  _cancelled j = false ->
  _stream1Exhausted j = false ->
  size <= length (c1 (_stream1 j)) ->
  exists j',
    Read j size = (Ok (firstn size (c1 (_stream1 j))), j', [Stream1 size]) /\
    _stream1Exhausted j' = false.
Proof.
  intros Hc Hex Hle. unfold Read, CheckCancelled. rewrite Hc, Hex. simpl.
  destruct (reads1 (_stream1 j) size) as [s1 [Hr1 _]]. rewrite Hr1.
  rewrite length_firstn.
  replace (Nat.min size (length (c1 (_stream1 j))) <? size) with false
    by (symmetry; apply Nat.ltb_ge; lia).
  eexists. split; [reflexivity|]. exact Hex.
Qed.

(** After it, a call is served by the second stream alone. *)
Lemma Read_second (j : t S1 S2) (size : nat) :
  _cancelled j = false ->
  _stream1Exhausted j = true ->
  exists j',
    Read j size = (Ok (firstn size (c2 (_stream2 j))), j', [Stream2 size]) /\
    _stream1Exhausted j' = true.
Proof.
  intros Hc Hex. unfold Read, CheckCancelled. rewrite Hc, Hex. simpl.
  destruct (reads2 (_stream2 j) size) as [s2 [Hr2 _]]. rewrite Hr2.
  eexists. split; [reflexivity|]. exact Hex.
Qed.

End JoinedInputCalls.

(** *** The streams used as examples *)

Lemma ByteArrayObjectInputStream_reads :
  mtp.reads_content mtp.ByteArrayObjectInputStream (fun left => left).
Proof.
  intros s size. exists (skipn size s). split; reflexivity.
Qed.

Lemma FixedSizeByteArrayObjectOutputStream_writes :
  mtp.writes_content mtp.FixedSizeByteArrayObjectOutputStream fst.
Proof.
  intros [stored room] data. simpl.
  eexists. eexists. split; [reflexivity|]. simpl. split; [lia|reflexivity].
Qed.

Lemma FixedSizeByteArrayObjectOutputStream_room :
  stream_laws.writes_with_room mtp.FixedSizeByteArrayObjectOutputStream
    fst snd.
Proof.
  intros [stored room] data. simpl.
  eexists. split; [reflexivity|]. simpl. split.
  - f_equal. rewrite Nat.min_comm, <- firstn_firstn.
    rewrite firstn_all. reflexivity.
  - lia.
Qed.

(** *** C1 *)

(** C1: reading a joined input stream to its end yields the content of the
    first stream followed by the content of the second.  A [Read] is served
    by the first stream while that one fills the request; the [Read] in
    which it comes back short is completed from the second stream within
    the same call, and every later [Read] is served by the second stream
    alone.  In the output direction, the bytes that a joined output stream
    takes are stored in the first stream and, behind them, in the second.
    Where the two parts store what they have room for, a [Write] goes to
    the first stream while that one takes all of it; the [Write] that the
    first stream takes short is completed by the second stream within the
    same call, with the bytes the first had no room for, and every later
    [Write] goes to the second stream alone.  Writing a sequence of buffers
    then takes as many bytes as the two parts have room for, the first
    stream storing the leading bytes up to its room and the second the
    bytes that follow them. *)
Theorem joined_stream_concatenates
  (I1 I2 : mtp.IObjectInputStream)
  (c1 : mtp.in_state I1 -> list mtp.u8)
  (c2 : mtp.in_state I2 -> list mtp.u8)
  (O1 O2 : mtp.IObjectOutputStream)
  (st1 : mtp.out_state O1 -> list mtp.u8)
  (st2 : mtp.out_state O2 -> list mtp.u8)
  (a : mtp.in_state I1) (b : mtp.in_state I2)
  (o1 : mtp.out_state O1) (o2 : mtp.out_state O2)
  (fuel chunk : nat) (buffers : list (list mtp.u8)) :
  mtp.reads_content I1 c1 ->
  mtp.reads_content I2 c2 ->
  mtp.writes_content O1 st1 ->
  mtp.writes_content O2 st2 ->
  0 < chunk ->
  length (c1 a) + length (c2 b) < fuel ->
  (mtp.read_all I1 fuel chunk a = Some (Ok (c1 a)) /\
   mtp.read_all I2 fuel chunk b = Some (Ok (c2 b)) /\
   mtp.read_all (mtp.JoinedObjectInputStream.as_stream I1 I2) fuel chunk
     (mtp.JoinedObjectInputStream.make I1 I2 a b)
   = Some (Ok (c1 a ++ c2 b))) /\
  (forall (j : mtp.JoinedObjectInputStream.t I1 I2) (size : nat),
     mtp.JoinedObjectInputStream._cancelled j = false ->
     let left1 := c1 (mtp.JoinedObjectInputStream._stream1 j) in
     let left2 := c2 (mtp.JoinedObjectInputStream._stream2 j) in
     exists j',
       mtp.JoinedObjectInputStream._stream1Exhausted j' =
         (mtp.JoinedObjectInputStream._stream1Exhausted j
          || (length left1 <? size)) /\
       mtp.JoinedObjectInputStream.Read j size =
         if mtp.JoinedObjectInputStream._stream1Exhausted j
         then (Ok (firstn size left2), j', [mtp.Stream2 size])
         else if length left1 <? size
         then (Ok (left1 ++ firstn (size - length left1) left2), j',
               [mtp.Stream1 size; mtp.OnStream1Exhausted;
                mtp.Stream2 (size - length left1)])
         else (Ok (firstn size left1), j', [mtp.Stream1 size])) /\
  (exists n j' x y,
     mtp.write_all (mtp.JoinedObjectOutputStream.as_stream O1 O2)
       (mtp.JoinedObjectOutputStream.make O1 O2 o1 o2) buffers = (Ok n, j') /\
     n <= length (concat buffers) /\
     st1 (mtp.JoinedObjectOutputStream._stream1 j') = st1 o1 ++ x /\
     st2 (mtp.JoinedObjectOutputStream._stream2 j') = st2 o2 ++ y /\
     x ++ y = firstn n (concat buffers)) /\
  (forall (room1 : mtp.out_state O1 -> nat)
          (room2 : mtp.out_state O2 -> nat),
     stream_laws.writes_with_room O1 st1 room1 ->
     stream_laws.writes_with_room O2 st2 room2 ->
     (forall (j : mtp.JoinedObjectOutputStream.t O1 O2)
             (data : list mtp.u8),
        mtp.JoinedObjectOutputStream._cancelled j = false ->
        let size := length data in
        let r1 := room1 (mtp.JoinedObjectOutputStream._stream1 j) in
        let r2 := room2 (mtp.JoinedObjectOutputStream._stream2 j) in
        exists j',
          mtp.JoinedObjectOutputStream._stream1Exhausted j' =
            (mtp.JoinedObjectOutputStream._stream1Exhausted j
             || (r1 <? size)) /\
          mtp.JoinedObjectOutputStream.Write j data =
            (if mtp.JoinedObjectOutputStream._stream1Exhausted j
             then (Ok (Nat.min size r2), j', [mtp.Stream2 size])
             else if r1 <? size
             then (Ok (r1 + Nat.min (size - r1) r2), j',
                   [mtp.Stream1 size; mtp.OnStream1Exhausted;
                    mtp.Stream2 (size - r1)])
             else (Ok size, j', [mtp.Stream1 size])) /\
          st1 (mtp.JoinedObjectOutputStream._stream1 j') =
            st1 (mtp.JoinedObjectOutputStream._stream1 j) ++
            (if mtp.JoinedObjectOutputStream._stream1Exhausted j
             then [] else firstn r1 data) /\
          st2 (mtp.JoinedObjectOutputStream._stream2 j') =
            st2 (mtp.JoinedObjectOutputStream._stream2 j) ++
            (if mtp.JoinedObjectOutputStream._stream1Exhausted j
             then firstn r2 data else firstn r2 (skipn r1 data))) /\
     (exists j',
        mtp.write_all (mtp.JoinedObjectOutputStream.as_stream O1 O2)
          (mtp.JoinedObjectOutputStream.make O1 O2 o1 o2) buffers
        = (Ok (Nat.min (length (concat buffers)) (room1 o1 + room2 o2)),
           j') /\
        st1 (mtp.JoinedObjectOutputStream._stream1 j') =
          st1 o1 ++ firstn (room1 o1) (concat buffers) /\
        st2 (mtp.JoinedObjectOutputStream._stream2 j') =
          st2 o2 ++
          firstn (room2 o2) (skipn (room1 o1) (concat buffers)))).
Proof.
  intros reads1 reads2 writes1 writes2 Hchunk Hfuel.
  split; [|split; [|split]].
  - split; [|split].
    + apply (read_all_good I1 (fun _ => True) c1); auto; [|lia].
      intros s size _. destruct (reads1 s size) as [s' [H1 H2]]. eauto.
    + apply (read_all_good I2 (fun _ => True) c2); auto; [|lia].
      intros s size _. destruct (reads2 s size) as [s' [H1 H2]]. eauto.
    + apply (read_all_good
               (mtp.JoinedObjectInputStream.as_stream I1 I2)
               (fun j => mtp.JoinedObjectInputStream._cancelled j = false)
               (mtp.JoinedObjectInputStream.content c1 c2)).
      * intros s size Hs. apply as_stream_good; auto.
      * exact Hchunk.
      * reflexivity.
      * unfold mtp.JoinedObjectInputStream.content. simpl.
        rewrite length_app. exact Hfuel.
  - intros j size Hc left1 left2. subst left1 left2.
    destruct (mtp.JoinedObjectInputStream._stream1Exhausted j) eqn:Hex.
    + destruct (Read_second _ _ _ reads2 j size Hc Hex) as [j' [Hr Hex']].
      exists j'. auto.
    + simpl.
      destruct (length (c1 (mtp.JoinedObjectInputStream._stream1 j)) <? size)
        eqn:Hshort.
      * apply Nat.ltb_lt in Hshort.
        destruct (Read_switch _ _ _ _ reads1 reads2 j size Hc Hex Hshort)
          as [j' [Hr Hex']].
        exists j'. auto.
      * apply Nat.ltb_ge in Hshort.
        destruct (Read_first _ _ _ reads1 j size Hc Hex Hshort)
          as [j' [Hr Hex']].
        exists j'. auto.
  - destruct (write_all_stored _ _ _ _ writes1 writes2 buffers
                (mtp.JoinedObjectOutputStream.make O1 O2 o1 o2) eq_refl)
      as (n & j' & x & y & Hw & Hle & Hx & Hy & Hxy & _).
    exists n, j', x, y. auto.
  - intros room1 room2 rooms1 rooms2. split.
    + intros j data Hc size r1 r2. subst size r1 r2.
      destruct (Write_room _ _ _ _ _ _ rooms1 rooms2 j data Hc)
        as (j' & Hex & Hw & Hs1 & Hs2 & _).
      exists j'. auto.
    + apply (write_all_room _ _ _ _ _ _ rooms1 rooms2 buffers
               (mtp.JoinedObjectOutputStream.make O1 O2 o1 o2) eq_refl).
Qed.

(** The input: [1; 2; 3] joined with [4; 5], read two bytes at a time.  The
    output: a stream with room for three bytes joined with one with room
    for two, given [1; 2], [3; 4; 5] and [6; 7]: the first stream takes
    [1; 2] and then [3], the second completes that write with [4; 5], and
    of the last buffer nothing is taken, both parts being full. *)
Lemma joined_stream_concatenates_witness :
  let a := [Byte.x01; Byte.x02; Byte.x03] in
  let b := [Byte.x04; Byte.x05] in
  let O := mtp.FixedSizeByteArrayObjectOutputStream in
  let j0 := mtp.JoinedObjectOutputStream.make O O ([], 3) ([], 2) in
  let j1 := mtp.JoinedObjectOutputStream.set_stream1 j0
              ([Byte.x01; Byte.x02], 1) in
  (0 < 2 /\ length a + length b < 6 /\
   mtp.read_all
     (mtp.JoinedObjectInputStream.as_stream
        mtp.ByteArrayObjectInputStream mtp.ByteArrayObjectInputStream)
     6 2
     (mtp.JoinedObjectInputStream.make
        mtp.ByteArrayObjectInputStream mtp.ByteArrayObjectInputStream a b)
   = Some (Ok (a ++ b))) /\
  (exists j',
     mtp.JoinedObjectOutputStream.Write j1
       [Byte.x03; Byte.x04; Byte.x05] =
       (Ok 3, j',
        [mtp.Stream1 3; mtp.OnStream1Exhausted; mtp.Stream2 2]) /\
     mtp.JoinedObjectOutputStream._stream1Exhausted j' = true /\
     fst (mtp.JoinedObjectOutputStream._stream1 j') =
       [Byte.x01; Byte.x02; Byte.x03] /\
     fst (mtp.JoinedObjectOutputStream._stream2 j') =
       [Byte.x04; Byte.x05]) /\
  (exists j',
     mtp.write_all (mtp.JoinedObjectOutputStream.as_stream O O) j0
       [[Byte.x01; Byte.x02]; [Byte.x03; Byte.x04; Byte.x05];
        [Byte.x06; Byte.x07]] = (Ok 5, j') /\
     fst (mtp.JoinedObjectOutputStream._stream1 j') =
       [Byte.x01; Byte.x02; Byte.x03] /\
     fst (mtp.JoinedObjectOutputStream._stream2 j') =
       [Byte.x04; Byte.x05]).
Proof.
  intros a b O j0 j1.
  destruct (joined_stream_concatenates
              mtp.ByteArrayObjectInputStream
              mtp.ByteArrayObjectInputStream
              (fun left => left) (fun left => left)
              O O fst fst a b ([], 3) ([], 2) 6 2
              [[Byte.x01; Byte.x02]; [Byte.x03; Byte.x04; Byte.x05];
               [Byte.x06; Byte.x07]]
              ByteArrayObjectInputStream_reads
              ByteArrayObjectInputStream_reads
              FixedSizeByteArrayObjectOutputStream_writes
              FixedSizeByteArrayObjectOutputStream_writes
              ltac:(lia) ltac:(simpl; lia))
    as [[_ [_ Hread]] [_ [_ Hroom]]].
  destruct (Hroom snd snd
              FixedSizeByteArrayObjectOutputStream_room
              FixedSizeByteArrayObjectOutputStream_room)
    as [Hwrite Hall].
  split; [|split].
  - split; [lia|]. split; [simpl; lia|]. exact Hread.
  - destruct (Hwrite j1 [Byte.x03; Byte.x04; Byte.x05] eq_refl)
      as (j' & Hex & Hw & Hs1 & Hs2).
    exists j'. repeat split; assumption.
  - exact Hall.
Defined.

(** *** C2 *)

Lemma run_keeps_sizes (S1 S2 : mtp.IObjectInputStream)
  (reqs : list mtp.request) :
  forall j : mtp.JoinedObjectInputStream.t S1 S2,
  mtp.JoinedObjectInputStream.GetSize
    (fst (mtp.JoinedObjectInputStream.run j reqs))
  = mtp.JoinedObjectInputStream.GetSize j.
Proof.
  induction reqs as [|[size|] reqs IH]; intros j; simpl.
  - reflexivity.
  - assert (Hstep : mtp.JoinedObjectInputStream.GetSize
                      (snd (fst (mtp.JoinedObjectInputStream.Read j size)))
                    = mtp.JoinedObjectInputStream.GetSize j).
    { unfold mtp.JoinedObjectInputStream.Read, mtp.CheckCancelled.
      repeat break_match; reflexivity. }
    destruct (mtp.JoinedObjectInputStream.Read j size) as [[r j1] cs].
    specialize (IH j1).
    destruct (mtp.JoinedObjectInputStream.run j1 reqs) as [j2 cs'].
    simpl in *. congruence.
  - rewrite IH. reflexivity.
Qed.

(** C2 does not hold as stated: the two sizes are added as 64-bit
    unsigned numbers, so the sum of the sizes [2^64 - 1] and [1] is
    reported as [0]. *)
Lemma GetSize_joined_wraps :
  let a := (2 ^ 64 - 1)%Z in
  let b := 1%Z in
  let j := mtp.JoinedObjectInputStream.make
             mtp.ZeroInputStream mtp.ZeroInputStream a b in
  mtp.JoinedObjectInputStream.GetSize j = 0%Z /\
  mtp.JoinedObjectInputStream.GetSize j
  <> (mtp.in_GetSize mtp.ZeroInputStream a
      + mtp.in_GetSize mtp.ZeroInputStream b)%Z.
Proof.
  vm_compute. split; [reflexivity|discriminate].
Qed.

(** C2, amended: [GetSize] of a joined input stream is the sum of the
    sizes its two streams reported when it was built, modulo [2^64]; it is
    the sum itself whenever that is below [2^64], and no [Read] or [Cancel]
    changes it. *)
Theorem GetSize_joined
  (S1 S2 : mtp.IObjectInputStream)
  (s1 : mtp.in_state S1) (s2 : mtp.in_state S2) :
  (0 <= mtp.in_GetSize S1 s1 < 2 ^ 64)%Z ->
  (0 <= mtp.in_GetSize S2 s2 < 2 ^ 64)%Z ->
  let j := mtp.JoinedObjectInputStream.make S1 S2 s1 s2 in
  let sum := (mtp.in_GetSize S1 s1 + mtp.in_GetSize S2 s2)%Z in
  mtp.JoinedObjectInputStream.GetSize j = (sum mod 2 ^ 64)%Z /\
  ((sum < 2 ^ 64)%Z -> mtp.JoinedObjectInputStream.GetSize j = sum) /\
  (forall reqs,
     mtp.JoinedObjectInputStream.GetSize
       (fst (mtp.JoinedObjectInputStream.run j reqs))
     = mtp.JoinedObjectInputStream.GetSize j).
Proof.
  intros H1 H2 j sum.
  assert (Hmod : mtp.JoinedObjectInputStream.GetSize j = (sum mod 2 ^ 64)%Z).
  { unfold mtp.JoinedObjectInputStream.GetSize, j, sum. simpl.
    unfold mtp.to_size_t, mtp.u64_modulus.
    rewrite <- Zplus_mod. reflexivity. }
  split; [exact Hmod|]. split.
  - intros Hlt. rewrite Hmod. apply Z.mod_small. unfold sum. lia.
  - intros reqs. apply run_keeps_sizes.
Qed.

Lemma GetSize_joined_witness :
  mtp.JoinedObjectInputStream.GetSize
    (mtp.JoinedObjectInputStream.make
       mtp.ByteArrayObjectInputStream mtp.ByteArrayObjectInputStream
       [Byte.x01; Byte.x02; Byte.x03] [Byte.x04; Byte.x05])
  = 5%Z.
Proof.
  apply (GetSize_joined
           mtp.ByteArrayObjectInputStream mtp.ByteArrayObjectInputStream
           [Byte.x01; Byte.x02; Byte.x03] [Byte.x04; Byte.x05]);
    simpl; lia.
Defined.

(** *** C3 *)

(** C3: [Read] and [Write] check the cancellation flag before anything
    else.  Once the flag is set, in whatever state the stream is, the next
    [Read] or [Write] throws the cancellation exception, calls neither
    underlying stream nor the hook, and leaves the stream as it was. *)
Theorem cancelled_joined_stream_throws
  (I1 I2 : mtp.IObjectInputStream) (O1 O2 : mtp.IObjectOutputStream)
  (ji : mtp.JoinedObjectInputStream.t I1 I2)
  (jo : mtp.JoinedObjectOutputStream.t O1 O2)
  (size : nat) (data : list mtp.u8) :
  mtp.JoinedObjectInputStream.Read
    (mtp.JoinedObjectInputStream.Cancel ji) size
  = (Throw OperationCancelledException,
     mtp.JoinedObjectInputStream.Cancel ji, []) /\
  mtp.JoinedObjectOutputStream.Write
    (mtp.JoinedObjectOutputStream.Cancel jo) data
  = (Throw OperationCancelledException,
     mtp.JoinedObjectOutputStream.Cancel jo, []) /\
  mtp.JoinedObjectInputStream._stream1
    (mtp.JoinedObjectInputStream.Cancel ji)
  = mtp.JoinedObjectInputStream._stream1 ji /\
  mtp.JoinedObjectInputStream._stream2
    (mtp.JoinedObjectInputStream.Cancel ji)
  = mtp.JoinedObjectInputStream._stream2 ji /\
  mtp.JoinedObjectOutputStream._stream1
    (mtp.JoinedObjectOutputStream.Cancel jo)
  = mtp.JoinedObjectOutputStream._stream1 jo /\
  mtp.JoinedObjectOutputStream._stream2
    (mtp.JoinedObjectOutputStream.Cancel jo)
  = mtp.JoinedObjectOutputStream._stream2 jo.
Proof.
  repeat split.
Qed.

(** *** C10 *)

(** C10: the exhaustion flag of a joined stream starts false.  Over any
    sequence of [Read] (or [Write]) and [Cancel] calls on a new stream the
    calls it makes are in order: the first stream only while the flag is
    false, then the hook [OnStream1Exhausted], which goes with the setting
    of the flag, then the second stream only; the hook is called once if
    the flag ends up set and not at all otherwise.  A call that starts with
    the flag false sets it exactly when the first stream returns short; a
    call that starts with the flag set leaves it set, leaves the first
    stream alone and calls the second stream only. *)
Theorem stream1Exhausted_monotone
  (I1 I2 : mtp.IObjectInputStream) (O1 O2 : mtp.IObjectOutputStream)
  (a : mtp.in_state I1) (b : mtp.in_state I2)
  (o1 : mtp.out_state O1) (o2 : mtp.out_state O2)
  (reqs : list mtp.request) (pending : list mtp.u8) :
  let ji := mtp.JoinedObjectInputStream.make I1 I2 a b in
  let jo := mtp.JoinedObjectOutputStream.make O1 O2 o1 o2 in
  let ri := mtp.JoinedObjectInputStream.run ji reqs in
  let ro := mtp.JoinedObjectOutputStream.run jo pending reqs in
  (mtp.JoinedObjectInputStream._stream1Exhausted ji = false /\
   mtp.follows_protocol false (snd ri)
   = Some (mtp.JoinedObjectInputStream._stream1Exhausted (fst ri)) /\
   mtp.hook_calls (snd ri)
   = (if mtp.JoinedObjectInputStream._stream1Exhausted (fst ri)
      then 1 else 0) /\
   forall (j : mtp.JoinedObjectInputStream.t I1 I2) (size : nat),
     let r := mtp.JoinedObjectInputStream.Read j size in
     (mtp.JoinedObjectInputStream._stream1Exhausted j = true ->
      mtp.JoinedObjectInputStream._stream1Exhausted (snd (fst r)) = true /\
      mtp.JoinedObjectInputStream._stream1 (snd (fst r))
      = mtp.JoinedObjectInputStream._stream1 j /\
      forallb mtp.is_Stream2 (snd r) = true) /\
     (mtp.JoinedObjectInputStream._cancelled j = false ->
      mtp.JoinedObjectInputStream._stream1Exhausted j = false ->
      (mtp.JoinedObjectInputStream._stream1Exhausted (snd (fst r)) = true
       <-> exists d1 s1,
             mtp.in_Read I1 (mtp.JoinedObjectInputStream._stream1 j) size
             = (Ok d1, s1) /\ length d1 < size))) /\
  (mtp.JoinedObjectOutputStream._stream1Exhausted jo = false /\
   mtp.follows_protocol false (snd ro)
   = Some (mtp.JoinedObjectOutputStream._stream1Exhausted (fst ro)) /\
   mtp.hook_calls (snd ro)
   = (if mtp.JoinedObjectOutputStream._stream1Exhausted (fst ro)
      then 1 else 0) /\
   forall (j : mtp.JoinedObjectOutputStream.t O1 O2) (data : list mtp.u8),
     let r := mtp.JoinedObjectOutputStream.Write j data in
     (mtp.JoinedObjectOutputStream._stream1Exhausted j = true ->
      mtp.JoinedObjectOutputStream._stream1Exhausted (snd (fst r)) = true /\
      mtp.JoinedObjectOutputStream._stream1 (snd (fst r))
      = mtp.JoinedObjectOutputStream._stream1 j /\
      forallb mtp.is_Stream2 (snd r) = true) /\
     (mtp.JoinedObjectOutputStream._cancelled j = false ->
      mtp.JoinedObjectOutputStream._stream1Exhausted j = false ->
      (mtp.JoinedObjectOutputStream._stream1Exhausted (snd (fst r)) = true
       <-> exists n s1,
             mtp.out_Write O1 (mtp.JoinedObjectOutputStream._stream1 j) data
             = (Ok n, s1) /\ n < length data))).
Proof.
  intros ji jo ri ro. split.
  - pose proof (run_protocol I1 I2 reqs ji) as Hp. simpl in Hp.
    split; [reflexivity|]. split; [exact Hp|]. split.
    + apply follows_protocol_hook_calls. exact Hp.
    + intros j size r. split.
      * apply Read_exhausted.
      * apply Read_exhausts.
  - pose proof (run_write_protocol O1 O2 reqs jo pending) as Hp. simpl in Hp.
    split; [reflexivity|]. split; [exact Hp|]. split.
    + apply follows_protocol_hook_calls. exact Hp.
    + intros j data r. split.
      * apply Write_exhausted.
      * apply Write_exhausts.
Qed.

Lemma stream1Exhausted_monotone_witness :
  mtp.hook_calls
    (snd (mtp.JoinedObjectInputStream.run
            (mtp.JoinedObjectInputStream.make
               mtp.ByteArrayObjectInputStream mtp.ByteArrayObjectInputStream
               [Byte.x01; Byte.x02; Byte.x03] [Byte.x04; Byte.x05])
            [mtp.DoTransfer 2; mtp.DoTransfer 2; mtp.DoCancel;
             mtp.DoTransfer 2]))
  = 1 /\
  mtp.hook_calls
    (snd (mtp.JoinedObjectOutputStream.run
            (mtp.JoinedObjectOutputStream.make
               mtp.FixedSizeByteArrayObjectOutputStream
               mtp.FixedSizeByteArrayObjectOutputStream
               ([], 3) ([], 10))
            [Byte.x01; Byte.x02; Byte.x03; Byte.x04; Byte.x05]
            [mtp.DoTransfer 2; mtp.DoTransfer 2; mtp.DoCancel;
             mtp.DoTransfer 2]))
  = 1.
Proof.
  pose proof (stream1Exhausted_monotone
                mtp.ByteArrayObjectInputStream mtp.ByteArrayObjectInputStream
                mtp.FixedSizeByteArrayObjectOutputStream
                mtp.FixedSizeByteArrayObjectOutputStream
                [Byte.x01; Byte.x02; Byte.x03] [Byte.x04; Byte.x05]
                ([], 3) ([], 10)
                [mtp.DoTransfer 2; mtp.DoTransfer 2; mtp.DoCancel;
                 mtp.DoTransfer 2]
                [Byte.x01; Byte.x02; Byte.x03; Byte.x04; Byte.x05]) as H.
  cbv zeta in H.
  destruct H as [[_ [_ [Hin _]]] [_ [_ [Hout _]]]].
  split; [exact Hin | exact Hout].
Defined.

(** ** The command line session *)

(** *** Strings *)

Section Strings.

Import cli.

Local Open Scope string_scope.

Lemma str_length_app (a b : string) :
  String.length (a ++ b) = String.length a + String.length b.
Proof.
  induction a as [|c a IH]; simpl; [reflexivity|]. rewrite IH. reflexivity.
Qed.

Lemma str_app_assoc (a b c : string) : (a ++ b) ++ c = a ++ b ++ c.
Proof.
  induction a as [|x a IH]; simpl; [reflexivity|]. rewrite IH. reflexivity.
Qed.

Lemma str_app_nil_r (a : string) : a ++ "" = a.
Proof.
  induction a as [|x a IH]; simpl; [reflexivity|]. rewrite IH. reflexivity.
Qed.

Lemma find_bounds (s : string) (c : ascii) :
  forall p n, find s c p = Some n -> p <= n < String.length s.
Proof.
  induction s as [|a s IH]; intros p n H; simpl in *; [discriminate|].
  destruct p as [|p].
  - destruct (Ascii.eqb a c).
    + inv H. lia.
    + destruct (find s c 0) as [m|] eqn:Hf; inv H.
      apply IH in Hf. lia.
  - destruct (find s c p) as [m|] eqn:Hf; inv H.
    apply IH in Hf. lia.
Qed.

Lemma find_shift (pre s : string) (c : ascii) (p : nat) :
  find (pre ++ s) c (String.length pre + p)
  = option_map (Nat.add (String.length pre)) (find s c p).
Proof.
  induction pre as [|a pre IH]; simpl.
  - destruct (find s c p); reflexivity.
  - rewrite IH. destruct (find s c p); reflexivity.
Qed.

Lemma substring_shift (pre s : string) (p n : nat) :
  substring (String.length pre + p) n (pre ++ s) = substring p n s.
Proof.
  induction pre as [|a pre IH]; simpl; [reflexivity|]. exact IH.
Qed.

Lemma substring_prefix (e r : string) :
  substring 0 (String.length e) (e ++ r) = e.
Proof.
  induction e as [|a e IH]; simpl.
  - destruct r; reflexivity.
  - rewrite IH. reflexivity.
Qed.

Lemma find_cons_none (a : ascii) (e : string) (c : ascii) :
  find (String a e) c 0 = None <-> Ascii.eqb a c = false /\ find e c 0 = None.
Proof.
  simpl. destruct (Ascii.eqb a c).
  - split; [discriminate|]. intros [H _]. discriminate.
  - destruct (find e c 0); simpl; split; try discriminate; auto.
    intros [_ H]. discriminate.
Qed.

Lemma find_first (e r : string) (c : ascii) :
  find e c 0 = None ->
  find (e ++ String c r) c 0 = Some (String.length e).
Proof.
  induction e as [|a e IH]; intros H.
  - simpl. rewrite Ascii.eqb_refl. reflexivity.
  - apply find_cons_none in H. destruct H as [Ha He].
    simpl. rewrite Ha, (IH He). reflexivity.
Qed.

Lemma find_app_none (e e' : string) (c : ascii) :
  find e c 0 = None -> find e' c 0 = None -> find (e ++ e') c 0 = None.
Proof.
  induction e as [|a e IH]; intros H H'; [exact H'|].
  apply find_cons_none in H. destruct H as [Ha He].
  change (String a e ++ e') with (String a (e ++ e')).
  apply find_cons_none. auto.
Qed.

Lemma tolower_slash (c : ascii) :
  Ascii.eqb (tolower c) (tolower "/") = Ascii.eqb c "/".
Proof.
  destruct c as [[] [] [] [] [] [] [] []]; reflexivity.
Qed.

Lemma BeginsWith_slash (s : string) :
  BeginsWith s "/" =
  match s with
  | String c _ => Ascii.eqb c "/"
  | EmptyString => false
  end.
Proof.
  destruct s as [|c s]; [reflexivity|].
  unfold BeginsWith. simpl. rewrite tolower_slash.
  destruct (Ascii.eqb c "/") eqn:Hc; [|reflexivity].
  apply Ascii.eqb_eq in Hc. subst c. reflexivity.
Qed.

End Strings.

(** *** The loop of Resolve *)

Section ResolveLoop.

Import mtp.
Import cli.

Local Open Scope string_scope.

Local Open Scope nat_scope.

Variable W : Type.
Variable world : World W.
Variable session : Session.
Variable w : W.

Local Abbreviation loop := (Resolve_loop world session).
Local Abbreviation entity_step := (Resolve_entity world session w).
Local Abbreviation from := (Resolve_from world session w).

(** Rounds beyond [String.length path - p] are never used. *)
Lemma Resolve_loop_rounds (path : Path) :
  forall r1 r2 p id,
  String.length path - p <= r1 ->
  String.length path - p <= r2 ->
  loop r1 w path p id = loop r2 w path p id.
Proof.
  induction r1 as [|r1 IH]; intros r2 p id H1 H2.
  - destruct r2 as [|r2]; simpl; [reflexivity|].
    replace (p <? String.length path) with false
      by (symmetry; apply Nat.ltb_ge; lia).
    reflexivity.
  - destruct r2 as [|r2]; simpl.
    + replace (p <? String.length path) with false
        by (symmetry; apply Nat.ltb_ge; lia).
      reflexivity.
    + destruct (p <? String.length path) eqn:Hp; [|reflexivity].
      destruct (entity_step id _) as [id'|e]; simpl; [|reflexivity].
      assert (Hnext : p <= match find path "/" p with
                           | Some n => n
                           | None => String.length path
                           end).
      { destruct (find path "/" p) as [n|] eqn:Hf.
        - apply find_bounds in Hf. lia.
        - apply Nat.ltb_lt in Hp. lia. }
      apply IH; lia.
Qed.

(** The loop looks at the path from [p] on only. *)
Lemma Resolve_loop_shift (pre s : string) :
  forall rounds p id,
  loop rounds w (pre ++ s) (String.length pre + p) id = loop rounds w s p id.
Proof.
  induction rounds as [|rounds IH]; intros p id; simpl; [reflexivity|].
  rewrite str_length_app, find_shift.
  replace (String.length pre + p <? String.length pre + String.length s)
    with (p <? String.length s).
  2:{ destruct (p <? String.length s) eqn:Hp; symmetry.
      - apply Nat.ltb_lt in Hp. apply Nat.ltb_lt. lia.
      - apply Nat.ltb_ge in Hp. apply Nat.ltb_ge. lia. }
  destruct (p <? String.length s); [|reflexivity].
  unfold substr.
  destruct (find s "/" p) as [n|] eqn:Hf; simpl.
  - replace (String.length pre + n - (String.length pre + p)) with (n - p)
      by lia.
    rewrite substring_shift.
    destruct (entity_step id _); simpl; [|reflexivity].
    replace (String.length pre + n + 1) with (String.length pre + (n + 1))
      by lia.
    apply IH.
  - replace (String.length pre + String.length s - (String.length pre + p))
      with (String.length s - p) by lia.
    rewrite substring_shift.
    destruct (entity_step id _); simpl; [|reflexivity].
    replace (String.length pre + String.length s + 1)
      with (String.length pre + (String.length s + 1)) by lia.
    apply IH.
Qed.

(** A path [e/r] is resolved by the entity [e] and then the path [r]. *)
Lemma Resolve_from_cons (e r : string) (id : ObjectId) :
  find e "/" 0 = None ->
  from (e ++ "/" ++ r) id = (id' <- entity_step id e ;; from r id').
Proof.
  intros He. unfold Resolve_from.
  rewrite str_length_app. simpl String.length.
  replace (String.length e + S (String.length r))
    with (S (String.length e + String.length r)) by lia.
  cbn [Resolve_loop].
  rewrite str_length_app. simpl String.length.
  replace (0 <? String.length e + S (String.length r)) with true
    by (symmetry; apply Nat.ltb_lt; lia).
  change (e ++ "/" ++ r) with (e ++ String "/" r).
  rewrite (find_first e r "/" He).
  unfold substr. rewrite Nat.sub_0_r, substring_prefix.
  destruct (entity_step id e) as [id'|x]; simpl; [|reflexivity].
  change (e ++ String "/" r) with (e ++ "/" ++ r).
  rewrite <- str_app_assoc.
  replace (String.length e + 1) with (String.length (e ++ "/") + 0)
    by (rewrite str_length_app; simpl; lia).
  rewrite Resolve_loop_shift.
  apply Resolve_loop_rounds; lia.
Qed.

(** A path without a slash is resolved as one entity. *)
Lemma Resolve_from_last (e : string) (id : ObjectId) :
  find e "/" 0 = None ->
  from e id = entity_step id e.
Proof.
  intros He. unfold Resolve_from.
  destruct e as [|c e]; [reflexivity|].
  simpl String.length. cbn [Resolve_loop].
  replace (0 <? String.length (String c e)) with true by reflexivity.
  rewrite He. unfold substr.
  rewrite Nat.sub_0_r.
  rewrite <- (str_app_nil_r (String c e)) at 2.
  rewrite substring_prefix.
  destruct (entity_step id (String c e)) as [id'|x]; simpl; [|reflexivity].
  rewrite (Resolve_loop_rounds (String c e) (String.length e) 0);
    simpl; try lia.
  reflexivity.
Qed.

(** An empty entity or [.] between two slashes changes nothing. *)
Lemma Resolve_from_noop (noop b : string) :
  (forall id, entity_step id noop = Ok id) ->
  find noop "/" 0 = None ->
  forall a e id,
  find e "/" 0 = None ->
  from (e ++ a ++ "/" ++ noop ++ "/" ++ b) id = from (e ++ a ++ "/" ++ b) id.
Proof.
  intros Hnoop Hfind.
  induction a as [|c a IH]; intros e id He.
  - change (e ++ "" ++ "/" ++ noop ++ "/" ++ b)
      with (e ++ "/" ++ (noop ++ "/" ++ b)).
    change (e ++ "" ++ "/" ++ b) with (e ++ "/" ++ b).
    rewrite !(Resolve_from_cons e _ id He).
    destruct (entity_step id e) as [id'|x]; cbn [bind]; [|reflexivity].
    rewrite (Resolve_from_cons noop b id' Hfind), Hnoop. reflexivity.
  - destruct (Ascii.eqb c "/") eqn:Hc.
    + apply Ascii.eqb_eq in Hc. subst c.
      change (e ++ String "/" a ++ "/" ++ noop ++ "/" ++ b)
        with (e ++ "/" ++ ("" ++ a ++ "/" ++ noop ++ "/" ++ b)).
      change (e ++ String "/" a ++ "/" ++ b)
        with (e ++ "/" ++ ("" ++ a ++ "/" ++ b)).
      rewrite !(Resolve_from_cons e _ id He).
      destruct (entity_step id e) as [id'|x]; cbn [bind]; [|reflexivity].
      apply (IH "" id'). reflexivity.
    + change (e ++ String c a ++ "/" ++ noop ++ "/" ++ b)
        with (e ++ String c "" ++ (a ++ "/" ++ noop ++ "/" ++ b)).
      change (e ++ String c a ++ "/" ++ b)
        with (e ++ String c "" ++ (a ++ "/" ++ b)).
      rewrite <- !(str_app_assoc e).
      apply IH. apply find_app_none; auto.
      simpl. rewrite Hc. reflexivity.
Qed.

End ResolveLoop.

Section SessionProperties.

Local Open Scope string_scope.
Local Open Scope nat_scope.

(** *** C4 *)

(** C4: an empty path component and the component [.] leave the object
    that is being resolved as it is.  The path [/] resolves to [Root]; and
    for every state of the device, every current directory and all strings
    [a] and [b], the paths [a/./b] and [a//b] resolve as [a/b] does: to the
    same object, or with the same exception. *)
Theorem Resolve_dot_noop
  (W : Type) (world : cli.World W) (session : cli.Session) (w : W)
  (a b : string) :
  cli.Resolve world session w "/" = Ok mtp.Root /\
  cli.Resolve world session w (a ++ "/./" ++ b)
  = cli.Resolve world session w (a ++ "/" ++ b) /\
  cli.Resolve world session w (a ++ "//" ++ b)
  = cli.Resolve world session w (a ++ "/" ++ b) /\
  (forall id, cli.Resolve_entity world session w id "" = Ok id) /\
  (forall id, cli.Resolve_entity world session w id "." = Ok id).
Proof.
  split; [reflexivity|].
  assert (Hstart : forall mid : string,
            cli.BeginsWith (a ++ "/" ++ mid) "/"
            = cli.BeginsWith (a ++ "/" ++ b) "/").
  { intros mid. rewrite !BeginsWith_slash. destruct a; reflexivity. }
  split; [|split; [|split; reflexivity]].
  - unfold cli.Resolve.
    change (a ++ "/./" ++ b)%string with (a ++ "/" ++ ("./" ++ b))%string.
    rewrite Hstart.
    apply (Resolve_from_noop W world session w "." b
             (fun id => eq_refl) eq_refl a "" _ eq_refl).
  - unfold cli.Resolve.
    change (a ++ "//" ++ b)%string with (a ++ "/" ++ ("/" ++ b))%string.
    rewrite Hstart.
    apply (Resolve_from_noop W world session w "" b
             (fun id => eq_refl) eq_refl a "" _ eq_refl).
Qed.

(** *** C5 *)

(** C5: the component [..] resolves to what [GetObjectParent] returns for
    the current object, with [Device] replaced by [Root].  So, when the
    component [a] is found in the current directory and the parent that the
    device reports for it is the current directory ([Device] standing for
    [Root]), the path [a/../b] resolves as the relative path [b] does. *)
Theorem Resolve_dotdot
  (W : Type) (world : cli.World W) (session : cli.Session) (w : W)
  (a b : string) (ida parent : mtp.ObjectId) :
  a <> ""%string -> a <> "."%string -> a <> ".."%string ->
  cli.find a "/" 0 = None ->
  cli.BeginsWith b "/" = false ->
  cli.ResolveObjectChild world session w (cli._cd session) a = Ok ida ->
  cli.GetObjectParent world w ida = Ok parent ->
  (if (parent =? mtp.Device)%Z then mtp.Root else parent) = cli._cd session ->
  cli.Resolve world session w (a ++ "/../" ++ b)
  = cli.Resolve world session w b /\
  cli.Resolve world session w ".."
  = (id <- cli.GetObjectParent world w (cli._cd session) ;;
     Ok (if (id =? mtp.Device)%Z then mtp.Root else id)).
Proof.
  intros Ha0 Ha1 Ha2 Hfind Hb Hchild Hparent Hfold.
  split.
  - unfold cli.Resolve. rewrite Hb.
    assert (Hrel : cli.BeginsWith (a ++ "/../" ++ b) "/" = false).
    { rewrite BeginsWith_slash. destruct a as [|c a']; [congruence|].
      simpl. apply find_cons_none in Hfind. tauto. }
    rewrite Hrel.
    change (a ++ "/../" ++ b)%string
      with (a ++ "/" ++ (".." ++ "/" ++ b))%string.
    rewrite (Resolve_from_cons W world session w a _ _ Hfind).
    assert (Hstep : cli.Resolve_entity world session w (cli._cd session) a
                    = Ok ida).
    { unfold cli.Resolve_entity.
      apply String.eqb_neq in Ha0, Ha1, Ha2. rewrite Ha0, Ha1, Ha2.
      exact Hchild. }
    rewrite Hstep. cbn [bind].
    rewrite (Resolve_from_cons W world session w ".." b ida eq_refl).
    unfold cli.Resolve_entity at 1. cbn [String.eqb Ascii.eqb Bool.eqb orb].
    rewrite Hparent. cbn [bind]. rewrite Hfold. reflexivity.
  - unfold cli.Resolve.
    change (cli.BeginsWith ".." "/") with false.
    rewrite (Resolve_from_last W world session w ".." _ eq_refl).
    reflexivity.
Qed.

(** *** C6 *)

(** C6: [ResolveObjectChild] lists the handles under the parent and reads
    the filename of one handle after the other; it returns the first handle
    whose filename is the component, compared as strings (so with case);
    when the filenames of all handles differ from the component it throws
    the error that names the component. *)
Theorem ResolveObjectChild_first_match
  (W : Type) (world : cli.World W) (session : cli.Session) (w : W)
  (parent : mtp.ObjectId) (entity : string) (handles : list mtp.ObjectId) :
  cli.GetObjectHandles world w (cli._cs session) mtp.ObjectFormat.Any parent
  = Ok handles ->
  (forall before object after,
     handles = (before ++ object :: after)%list ->
     Forall (fun o => exists name,
               cli.GetObjectStringProperty world w o
                 mtp.ObjectProperty.ObjectFilename = Ok name /\
               name <> entity) before ->
     cli.GetObjectStringProperty world w object
       mtp.ObjectProperty.ObjectFilename = Ok entity ->
     cli.ResolveObjectChild world session w parent entity = Ok object) /\
  (Forall (fun o => exists name,
             cli.GetObjectStringProperty world w o
               mtp.ObjectProperty.ObjectFilename = Ok name /\
             name <> entity) handles ->
   cli.ResolveObjectChild world session w parent entity
   = Throw (runtime_error ("could not find " ++ entity ++ " in path"))).
Proof.
  intros Hlist. unfold cli.ResolveObjectChild. rewrite Hlist. cbn [bind].
  clear Hlist. split.
  - intros before object after -> Hbefore Hobject.
    induction Hbefore as [|o before [name [Hname Hneq]] _ IH]; simpl.
    + rewrite Hobject, String.eqb_refl. reflexivity.
    + rewrite Hname. apply String.eqb_neq in Hneq. rewrite Hneq. exact IH.
  - intros Hall.
    induction Hall as [|o others [name [Hname Hneq]] _ IH]; simpl.
    + reflexivity.
    + rewrite Hname. apply String.eqb_neq in Hneq. rewrite Hneq. exact IH.
Qed.

(** *** C9 *)

(** C9: for a date of 15 characters with [T] at offset 8, that is
    [YYYYMMDD], [T], [hhmmss], [FormatTime] returns
    [YYYY-MM-DD hh:mm:ss]. *)
Theorem FormatTime_inserts_separators (timespec : string) :
  String.length timespec = 15 ->
  String.get 8 timespec = Some "T"%char ->
  exists YYYY MM DD hh mm ss : string,
    String.length YYYY = 4 /\ String.length MM = 2 /\
    String.length DD = 2 /\ String.length hh = 2 /\
    String.length mm = 2 /\ String.length ss = 2 /\
    timespec = YYYY ++ MM ++ DD ++ "T" ++ hh ++ mm ++ ss /\
    cli.FormatTime timespec
    = YYYY ++ "-" ++ MM ++ "-" ++ DD ++ " " ++ hh ++ ":" ++ mm ++ ":" ++ ss.
Proof.
  intros Hlen HT.
  do 15 (destruct timespec as [|? timespec]; [discriminate|]).
  destruct timespec; [|discriminate].
  simpl in HT. inv HT.
  exists (String a (String a0 (String a1 (String a2 "")))),
         (String a3 (String a4 "")), (String a5 (String a6 "")),
         (String a8 (String a9 "")), (String a10 (String a11 "")),
         (String a12 (String a13 "")).
  repeat split.
Qed.

Lemma FormatTime_inserts_separators_witness :
  exists YYYY MM DD hh mm ss : string,
    String.length YYYY = 4 /\ String.length MM = 2 /\
    String.length DD = 2 /\ String.length hh = 2 /\
    String.length mm = 2 /\ String.length ss = 2 /\
    "20160229T235959" = YYYY ++ MM ++ DD ++ "T" ++ hh ++ mm ++ ss /\
    cli.FormatTime "20160229T235959"
    = YYYY ++ "-" ++ MM ++ "-" ++ DD ++ " " ++ hh ++ ":" ++ mm ++ ":" ++ ss.
Proof.
  apply (FormatTime_inserts_separators "20160229T235959"); reflexivity.
Defined.

End SessionProperties.


(** *** Witnesses of C5 and C6 on the example phone *)

Section SessionWitnesses.

Import example.

Local Open Scope string_scope.

Lemma Resolve_dotdot_witness :
  cli.Resolve world in_DCIM st0 "Camera/../Camera/img_0001.jpg"
  = cli.Resolve world in_DCIM st0 "Camera/img_0001.jpg".
Proof.
  apply (Resolve_dotdot state world in_DCIM st0
           "Camera" "Camera/img_0001.jpg" 2%Z 1%Z);
    solve [discriminate | reflexivity].
Defined.

Lemma ResolveObjectChild_first_match_witness :
  cli.ResolveObjectChild world at_root st0 2%Z "img_0001.jpg" = Ok 4%Z /\
  cli.ResolveObjectChild world at_root st0 2%Z "Img_0001.jpg"
  = Throw (runtime_error "could not find Img_0001.jpg in path").
Proof.
  split.
  - apply (proj1 (ResolveObjectChild_first_match state world at_root st0
                    2%Z "img_0001.jpg" [3%Z; 4%Z] eq_refl)
             [3%Z] 4%Z []).
    + reflexivity.
    + constructor; [|constructor].
      exists "IMG_0001.JPG". split; [reflexivity|discriminate].
    + reflexivity.
  - apply (proj2 (ResolveObjectChild_first_match state world at_root st0
                    2%Z "Img_0001.jpg" [3%Z; 4%Z] eq_refl)).
    constructor; [|constructor; [|constructor]].
    + exists "IMG_0001.JPG". split; [reflexivity|discriminate].
    + exists "img_0001.jpg". split; [reflexivity|discriminate].
Defined.

End SessionWitnesses.

(** *** Recursive put and get *)

Section Transfers.

Import mtp.
Import cli.

Local Open Scope string_scope.
Local Open Scope list_scope.

Variable W : Type.
Variable world : World W.
Variable session : Session.

Lemma Put_visits_itself (depth : nat) (w : W) (parentId : ObjectId)
  (dst : string) (src : LocalPath) (r : result unit) (w' : W)
  (evs : list event) :
  Put world session depth w parentId dst src = Some (r, w', evs) ->
  In (PutVisit parentId dst src) evs.
Proof.
  destruct depth as [|depth]; simpl; [discriminate|].
  intros H. repeat break_match_in H; inv H; simpl; auto.
Qed.

Lemma Put_entries_skips_dots
  (put : W -> ObjectId -> string -> LocalPath -> option (outcome W))
  (dirId : ObjectId) (dst : string) (src : LocalPath)
  (entries : list readdir_result) :
  forall w,
  Put_entries put w dirId dst src entries
  = Put_entries put w dirId dst src
      (filter (fun r => negb (is_dot r)) entries).
Proof.
  induction entries as [|[d_name|error] entries IH]; intros w; simpl.
  - reflexivity.
  - destruct (String.eqb d_name "." || String.eqb d_name "..") eqn:Hdot;
      simpl.
    + apply IH.
    + rewrite Hdot.
      destruct (put w dirId _ _)
        as [[[[u|e] w1] evs]|]; try reflexivity.
      rewrite IH. reflexivity.
  - reflexivity.
Qed.

Lemma Put_entries_visits
  (put : W -> ObjectId -> string -> LocalPath -> option (outcome W))
  (dirId : ObjectId) (dst : string) (src : LocalPath) :
  (forall w p d s r w' evs,
     put w p d s = Some (r, w', evs) -> In (PutVisit p d s) evs) ->
  forall entries w w2 evs d_name,
  Put_entries put w dirId dst src entries = Some (Ok tt, w2, evs) ->
  In (Entry d_name) entries ->
  is_dot (Entry d_name) = false ->
  In (PutVisit dirId (dst ++ "/" ++ d_name)%string
        (src ++ "/" ++ d_name)%string) evs.
Proof.
  intros Hput.
  induction entries as [|[x|error] entries IH];
    intros w w2 evs d_name Hrun Hin Hdot; simpl in *.
  - contradiction.
  - destruct (String.eqb x "." || String.eqb x "..") eqn:Hx.
    + destruct Hin as [Heq|Hin]; [inv Heq; congruence|].
      eapply IH; eauto.
    + destruct (put w dirId _ _)
        as [[[[u|e] w1] evs1]|] eqn:Hone; try discriminate.
      destruct (Put_entries put w1 dirId dst src entries)
        as [[[r w3] evs3]|] eqn:Hrest; try discriminate.
      inv Hrun. apply in_or_app.
      destruct Hin as [Heq|Hin].
      * inv Heq. left. eapply Hput; eauto.
      * right. eapply IH; eauto.
  - discriminate.
Qed.

Lemma Put_entries_stops
  (put : W -> ObjectId -> string -> LocalPath -> option (outcome W))
  (dirId : ObjectId) (dst : string) (src : LocalPath)
  (d_name : string) (after : list readdir_result)
  (e : exception) (w1 w2 : W) (evs2 : list event) :
  is_dot (Entry d_name) = false ->
  put w1 dirId (dst ++ "/" ++ d_name)%string (src ++ "/" ++ d_name)%string
  = Some (Throw e, w2, evs2) ->
  forall before w evs1,
  Put_entries put w dirId dst src before = Some (Ok tt, w1, evs1) ->
  Put_entries put w dirId dst src (before ++ Entry d_name :: after)
  = Some (Throw e, w2, evs1 ++ evs2).
Proof.
  intros Hdot Hthrow.
  induction before as [|[x|error] before IH]; intros w evs1 Hrun;
    simpl in *.
  - inv Hrun. rewrite Hdot, Hthrow. reflexivity.
  - destruct (String.eqb x "." || String.eqb x ".."); [auto|].
    destruct (put w dirId _ _)
      as [[[[u|e'] w'] evs']|]; try discriminate.
    destruct (Put_entries put w' dirId dst src before)
      as [[[r w''] evs'']|] eqn:Hrest; try discriminate.
    inv Hrun. rewrite (IH w' evs'' Hrest), app_assoc. reflexivity.
  - discriminate.
Qed.

(** A directory that [opendir] cannot open: the put has made or found the
    destination, reports the failure with [perror] and returns. *)
Lemma Put_unopened (depth : nat) (w : W) (parentId : ObjectId)
  (dst : string) (src : LocalPath) (st_mode : Z) (dirId : ObjectId)
  (w1 : W) :
  stat world w src = inr st_mode ->
  S_ISDIR st_mode = true ->
  MakeOrResolveDirectory world session w parentId dst src = (Ok dirId, w1) ->
  opendir world w1 src = None ->
  Put world session (S depth) w parentId dst src
  = Some (Ok tt, w1, [PutVisit parentId dst src; perror "opendir"]).
Proof.
  intros Hstat Hdir Hmake Hopen.
  cbn [Put]. rewrite Hstat, Hdir, Hmake, Hopen. reflexivity.
Qed.

(** After an entry whose put returns, the loop goes on with the entries
    that follow it. *)
Lemma Put_entries_goes_on
  (put : W -> ObjectId -> string -> LocalPath -> option (outcome W))
  (dirId : ObjectId) (dst : string) (src : LocalPath)
  (d_name : string) (after : list readdir_result)
  (w1 w2 : W) (evs2 : list event) :
  is_dot (Entry d_name) = false ->
  put w1 dirId (dst ++ "/" ++ d_name)%string (src ++ "/" ++ d_name)%string
  = Some (Ok tt, w2, evs2) ->
  forall before w evs1,
  Put_entries put w dirId dst src before = Some (Ok tt, w1, evs1) ->
  Put_entries put w dirId dst src (before ++ Entry d_name :: after)
  = match Put_entries put w2 dirId dst src after with
    | None => None
    | Some (r, w3, evs3) => Some (r, w3, evs1 ++ evs2 ++ evs3)
    end.
Proof.
  intros Hdot Hreturn.
  induction before as [|[x|error] before IH]; intros w evs1 Hrun;
    simpl in *.
  - inv Hrun. rewrite Hdot, Hreturn. reflexivity.
  - destruct (String.eqb x "." || String.eqb x ".."); [auto|].
    destruct (put w dirId _ _)
      as [[[[u|e'] w'] evs']|]; try discriminate.
    destruct (Put_entries put w' dirId dst src before)
      as [[[r w''] evs'']|] eqn:Hrest; try discriminate.
    inv Hrun. rewrite (IH w' evs'' Hrest).
    destruct (Put_entries put w2 dirId dst src after)
      as [[[r3 w3] evs3]|]; [|reflexivity].
    rewrite app_assoc. reflexivity.
  - discriminate.
Qed.

Lemma Get_handles_stops
  (get : W -> LocalPath -> ObjectId -> option (outcome W))
  (dst : LocalPath) (id : ObjectId) (info : ObjectInfo)
  (after : list ObjectId)
  (e : exception) (w1 w2 : W) (evs2 : list event) :
  GetObjectInfo world w1 id = Ok info ->
  get w1 (dst ++ "/" ++ Filename info)%string id = Some (Throw e, w2, evs2) ->
  forall before w evs1,
  Get_handles world get w dst before = Some (Ok tt, w1, evs1) ->
  Get_handles world get w dst (before ++ id :: after)
  = Some (Throw e, w2, evs1 ++ evs2).
Proof.
  intros Hinfo Hthrow.
  induction before as [|x before IH]; intros w evs1 Hrun; simpl in *.
  - inv Hrun. rewrite Hinfo, Hthrow. reflexivity.
  - destruct (GetObjectInfo world w x) as [info'|e']; try discriminate.
    destruct (get w _ x)
      as [[[[u|e'] w'] evs']|]; try discriminate.
    destruct (Get_handles world get w' dst before)
      as [[[r w''] evs'']|] eqn:Hrest; try discriminate.
    inv Hrun. rewrite (IH w' evs'' Hrest), app_assoc. reflexivity.
Qed.

End Transfers.

Section TransferProperties.

Import mtp.
Import cli.

Local Open Scope string_scope.
Local Open Scope nat_scope.

(** *** C7 *)

(** C7 does not hold as stated: the existing child is looked up and used
    after any failure of [CreateDirectory], not only when the device
    reports that the object exists.  Here the device answers [StoreFull],
    and the existing object [Music] (handle 5) becomes the destination. *)
Lemma MakeOrResolveDirectory_after_StoreFull :
  fst (CreateDirectory example.world example.st_full "Music" Root)
  = Throw (InvalidResponseException 0x200C) /\
  MakeOrResolveDirectory example.world example.at_root example.st_full
    Root "Music" "Music"
  = (Ok 5%Z, example.st_full).
Proof.
  split; reflexivity.
Qed.

(** The lookup after a failed [CreateDirectory] is by [src], the whole
    local path: for the source [DCIM/Camera] the existing object [Camera]
    is not found. *)
Lemma MakeOrResolveDirectory_looks_up_src :
  MakeOrResolveDirectory example.world example.at_root example.st0
    1%Z "DCIM/Camera" "DCIM/Camera"
  = (Throw (runtime_error "could not find DCIM/Camera in path"),
     example.st0).
Proof.
  reflexivity.
Qed.

(** C7, amended: for a directory source, recursive put first calls
    [CreateDirectory] for the last component of [dst] under the parent.  If
    that returns, the new object is the destination.  If it throws,
    whatever the exception, a child of the parent is looked up by name and
    used as the destination; for a source path that is the last component
    of [dst] it is the child of that name.  If the source directory then
    cannot be opened, the put reports that with [perror] and returns
    normally, having visited no entry.  Otherwise the loop passes over the
    entries [.] and [..], and when the put returns normally it has visited
    every other entry of the directory. *)
Theorem Put_directory
  (W : Type) (world : World W) (session : Session)
  (depth : nat) (w : W) (parentId : ObjectId) (dst : string)
  (src : LocalPath) (st_mode : Z)
  (created : result NewObjectInfo) (w1 : W) (dirId : ObjectId) :
  stat world w src = inr st_mode ->
  S_ISDIR st_mode = true ->
  CreateDirectory world w (GetFilename dst) parentId = (created, w1) ->
  match created with
  | Ok info => dirId = NewObjectId info
  | Throw _ =>
    src = GetFilename dst /\
    ResolveObjectChild world session w1 parentId (GetFilename dst) = Ok dirId
  end ->
  MakeOrResolveDirectory world session w parentId dst src = (Ok dirId, w1) /\
  match opendir world w1 src with
  | None =>
    Put world session (S depth) w parentId dst src
    = Some (Ok tt, w1, [PutVisit parentId dst src; perror "opendir"])
  | Some entries =>
    Put world session (S depth) w parentId dst src
    = match Put_entries (Put world session depth) w1 dirId dst src
              (filter (fun r => negb (is_dot r)) entries) with
      | None => None
      | Some (r, w2, evs) => Some (r, w2, PutVisit parentId dst src :: evs)
      end /\
    (forall w2 evs d_name,
       Put world session (S depth) w parentId dst src
       = Some (Ok tt, w2, evs) ->
       In (Entry d_name) entries ->
       is_dot (Entry d_name) = false ->
       In (PutVisit dirId (dst ++ "/" ++ d_name) (src ++ "/" ++ d_name)) evs)
  end.
Proof.
  intros Hstat Hdir Hcreate Hdest.
  assert (Hmake : MakeOrResolveDirectory world session w parentId dst src
                  = (Ok dirId, w1)).
  { unfold MakeOrResolveDirectory. rewrite Hcreate.
    destruct created as [info|e].
    - subst dirId. reflexivity.
    - destruct Hdest as [Hsrc Hchild]. rewrite Hsrc, Hchild. reflexivity. }
  split; [exact Hmake|].
  destruct (opendir world w1 src) as [entries|] eqn:Hopen.
  - assert (Hput : Put world session (S depth) w parentId dst src
                   = match Put_entries (Put world session depth) w1 dirId
                           dst src entries with
                     | None => None
                     | Some (r, w2, evs) =>
                       Some (r, w2, PutVisit parentId dst src :: evs)
                     end).
    { cbn [Put]. rewrite Hstat, Hdir, Hmake, Hopen. reflexivity. }
    split.
    + rewrite Hput, Put_entries_skips_dots. reflexivity.
    + intros w2 evs d_name Hrun Hin Hdot.
      rewrite Hput in Hrun.
      destruct (Put_entries (Put world session depth) w1 dirId dst src
                  entries)
        as [[[r w3] evs3]|] eqn:Hloop; [|discriminate].
      inv Hrun. right.
      eapply Put_entries_visits; eauto.
      intros. eapply Put_visits_itself; eauto.
  - apply (Put_unopened W world session depth w parentId dst src st_mode
             dirId w1 Hstat Hdir Hmake Hopen).
Qed.

(** The put of [Music], which the device has already: the existing object
    is the destination and the one entry is visited.  The put of
    [album/private], which cannot be opened: the directory is made on the
    device, the failure is reported and the put returns. *)
Lemma Put_directory_witness :
  (MakeOrResolveDirectory example.world example.at_root example.st0
     Root "Music" "Music"
   = (Ok 5%Z, example.st0) /\
   Put example.world example.at_root 3 example.st0 Root "Music" "Music"
   = Some (Ok tt, example.st0_with_d,
           [PutVisit Root "Music" "Music";
            PutVisit 5%Z "Music/d.mp3" "Music/d.mp3"])) /\
  (exists w1,
     MakeOrResolveDirectory example_private.world example.at_root
       example_private.st0 Root "album/private" "album/private"
     = (Ok 9%Z, w1) /\
     Put example_private.world example.at_root 3 example_private.st0
       Root "album/private" "album/private"
     = Some (Ok tt, w1,
             [PutVisit Root "album/private" "album/private";
              perror "opendir"])).
Proof.
  split.
  - destruct (Put_directory example.state example.world example.at_root
                2 example.st0 Root "Music" "Music" 0x41ED%Z
                (Throw example.GeneralError) example.st0 5%Z
                eq_refl eq_refl eq_refl (conj eq_refl eq_refl))
      as [Hmake Hcase].
    change (opendir example.world example.st0 "Music")
      with (Some [Entry "."; Entry ".."; Entry "d.mp3"]) in Hcase.
    destruct Hcase as [Hput _].
    split; [exact Hmake|].
    rewrite Hput. reflexivity.
  - eexists.
    eapply (Put_directory example.state example_private.world
              example.at_root 2 example_private.st0 Root
              "album/private" "album/private" 0x41ED%Z
              _ _ 9%Z eq_refl eq_refl eq_refl eq_refl).
Defined.

(** *** C8 *)

(** C8: an error affecting a single file of a recursive transfer is to be
    logged, and the traversal is to go on with the remaining entries.  The
    code does not do that.  The put of the
    directory [album], whose second entry cannot be examined by [stat],
    throws at that entry: the third entry [c.mp3] is not visited and not
    stored, and nothing is printed.  The get of the folder [Music], whose
    second object the device refuses to send, throws at that object: the
    third object is not visited. *)
Lemma recursive_transfer_aborts :
  (exists w',
     Put example.world example.at_root 3 example.st0 Root "album" "album"
     = Some (Throw (runtime_error "stat failed: No such file or directory"),
             w',
             [PutVisit Root "album" "album";
              PutVisit 9%Z "album/a.mp3" "album/a.mp3";
              PutVisit 9%Z "album/broken" "album/broken"]) /\
     existsb (fun o => String.eqb (example.name o) "c.mp3")
       (example.children w' 9%Z) = false) /\
  (exists w',
     Get example.world example.at_root 3 example.st_refusing "out" 5%Z
     = Some (Throw (InvalidResponseException 0x200F), w',
             [GetVisit "out" 5%Z;
              GetVisit "out/a.mp3" 6%Z;
              GetVisit "out/b.mp3" 7%Z]) /\
     existsb (String.eqb "out/c.mp3") (example.written w') = false).
Proof.
  split; eexists; split; vm_compute; reflexivity.
Qed.

(** The path beside it in the same loop does what the claim says: an entry
    that is a directory which cannot be opened is reported with [perror],
    and the loop goes on with the entries after it. *)
Lemma Put_goes_on_after_failed_opendir
  (W : Type) (world : World W) (session : Session)
  (depth : nat) (w : W) (parentId : ObjectId) (dst : string)
  (src : LocalPath) (st_mode : Z) (dirId : ObjectId) (w1 : W)
  (before : list readdir_result) (d_name : string)
  (after : list readdir_result) (w2 : W) (evs1 : list event)
  (st_mode' : Z) (subId : ObjectId) (w3 : W) :
  stat world w src = inr st_mode ->
  S_ISDIR st_mode = true ->
  MakeOrResolveDirectory world session w parentId dst src = (Ok dirId, w1) ->
  opendir world w1 src = Some (before ++ Entry d_name :: after)%list ->
  Put_entries (Put world session (S depth)) w1 dirId dst src before
  = Some (Ok tt, w2, evs1) ->
  is_dot (Entry d_name) = false ->
  stat world w2 (src ++ "/" ++ d_name) = inr st_mode' ->
  S_ISDIR st_mode' = true ->
  MakeOrResolveDirectory world session w2 dirId
    (dst ++ "/" ++ d_name) (src ++ "/" ++ d_name) = (Ok subId, w3) ->
  opendir world w3 (src ++ "/" ++ d_name) = None ->
  Put world session (S (S depth)) w parentId dst src
  = match Put_entries (Put world session (S depth)) w3 dirId dst src
            after with
    | None => None
    | Some (r, w4, evs3) =>
      Some (r, w4,
            PutVisit parentId dst src ::
            (evs1 ++
             [PutVisit dirId (dst ++ "/" ++ d_name)%string
                (src ++ "/" ++ d_name)%string;
              perror "opendir"] ++ evs3)%list)
    end.
Proof.
  intros Hstat Hdir Hmake Hopen Hbefore Hdot Hstat' Hdir' Hmake' Hopen'.
  pose proof (Put_unopened W world session depth w2 dirId
                (dst ++ "/" ++ d_name) (src ++ "/" ++ d_name) st_mode'
                subId w3 Hstat' Hdir' Hmake' Hopen') as Hsub.
  remember (S depth) as depth' eqn:Hdepth.
  cbn [Put]. rewrite Hstat, Hdir, Hmake, Hopen.
  rewrite (Put_entries_goes_on W (Put world session depth') dirId dst
             src d_name after w2 w3 _ Hdot Hsub before w1 evs1 Hbefore).
  destruct (Put_entries (Put world session depth') w3 dirId dst src
              after) as [[[r w4] evs3]|]; reflexivity.
Qed.

(** The put of the directory [album] whose second entry [private] cannot be
    opened: the failure is reported, and the third entry [c.mp3] is visited
    and stored. *)
Lemma Put_goes_on_after_failed_opendir_example :
  exists w',
    Put example_private.world example.at_root 3 example_private.st0
      Root "album" "album"
    = Some (Ok tt, w',
            [PutVisit Root "album" "album";
             PutVisit 9%Z "album/a.mp3" "album/a.mp3";
             PutVisit 9%Z "album/private" "album/private";
             perror "opendir";
             PutVisit 9%Z "album/c.mp3" "album/c.mp3"]) /\
    existsb (fun o => String.eqb (example.name o) "c.mp3")
      (example.children w' 9%Z) = true.
Proof.
  eexists.
  split.
  - eapply eq_trans.
    + eapply (Put_goes_on_after_failed_opendir example.state
                example_private.world example.at_root
                1 example_private.st0 Root "album" "album" 0x41ED%Z 9%Z _
                [Entry "."; Entry ".."; Entry "a.mp3"] "private"
                [Entry "c.mp3"] _
                [PutVisit 9%Z "album/a.mp3" "album/a.mp3"]
                0x41ED%Z _ _);
        reflexivity.
    + vm_compute. reflexivity.
  - vm_compute. reflexivity.
Defined.

(** An entry whose transfer throws ends the traversal, in a recursive put
    of a directory and in a recursive get of an association: the exception
    leaves the whole operation and the entries after it are not visited. *)
Lemma recursive_transfer_stops_at_first_error
  (W : Type) (world : World W) (session : Session) :
  (forall depth w parentId dst src st_mode dirId w1
          before d_name after w2 evs1 e w3 evs2,
     stat world w src = inr st_mode ->
     S_ISDIR st_mode = true ->
     MakeOrResolveDirectory world session w parentId dst src
     = (Ok dirId, w1) ->
     opendir world w1 src = Some (before ++ Entry d_name :: after)%list ->
     Put_entries (Put world session depth) w1 dirId dst src before
     = Some (Ok tt, w2, evs1) ->
     is_dot (Entry d_name) = false ->
     Put world session depth w2 dirId
       (dst ++ "/" ++ d_name) (src ++ "/" ++ d_name)
     = Some (Throw e, w3, evs2) ->
     Put world session (S depth) w parentId dst src
     = Some (Throw e, w3, PutVisit parentId dst src :: (evs1 ++ evs2)%list))
  /\
  (forall depth w dst srcId v before id after w2 evs1 info e w3 evs2,
     GetObjectIntegerProperty world w srcId ObjectProperty.ObjectFormat
     = Ok v ->
     (v mod 2 ^ 16)%Z = ObjectFormat.Association ->
     GetObjectHandles world (mkdir world w dst) (_cs session)
       ObjectFormat.Any srcId
     = Ok (before ++ id :: after)%list ->
     Get_handles world (Get world session depth) (mkdir world w dst)
       dst before
     = Some (Ok tt, w2, evs1) ->
     GetObjectInfo world w2 id = Ok info ->
     Get world session depth w2 (dst ++ "/" ++ Filename info) id
     = Some (Throw e, w3, evs2) ->
     Get world session (S depth) w dst srcId
     = Some (Throw e, w3, GetVisit dst srcId :: (evs1 ++ evs2)%list)).
Proof.
  split.
  - intros depth w parentId dst src st_mode dirId w1 before d_name after
      w2 evs1 e w3 evs2 Hstat Hdir Hmake Hopen Hbefore Hdot Hthrow.
    cbn [Put]. rewrite Hstat, Hdir, Hmake, Hopen.
    rewrite (Put_entries_stops W (Put world session depth) dirId dst src
               d_name after e w2 w3 evs2 Hdot Hthrow before w1 evs1 Hbefore).
    reflexivity.
  - intros depth w dst srcId v before id after w2 evs1 info e w3 evs2
      Hformat Hassoc Hlist Hbefore Hinfo Hthrow.
    cbn [Get]. rewrite Hformat, Hassoc, Hlist.
    change (ObjectFormat.Association =? ObjectFormat.Association)%Z
      with true. cbv iota.
    rewrite (Get_handles_stops W world (Get world session depth) dst id info
               after e w2 w3 evs2 Hinfo Hthrow before _ evs1 Hbefore).
    reflexivity.
Qed.

Lemma recursive_transfer_stops_at_first_error_witness :
  (exists w3,
     Put example.world example.at_root 3 example.st0 Root "album" "album"
     = Some (Throw (runtime_error "stat failed: No such file or directory"),
             w3,
             [PutVisit Root "album" "album";
              PutVisit 9%Z "album/a.mp3" "album/a.mp3";
              PutVisit 9%Z "album/broken" "album/broken"])) /\
  (exists w3,
     Get example.world example.at_root 3 example.st_refusing "out" 5%Z
     = Some (Throw (InvalidResponseException 0x200F), w3,
             [GetVisit "out" 5%Z;
              GetVisit "out/a.mp3" 6%Z;
              GetVisit "out/b.mp3" 7%Z])).
Proof.
  split; eexists.
  - eapply (proj1 (recursive_transfer_stops_at_first_error
                    example.state example.world example.at_root)
             2 example.st0 Root "album" "album" 0x41ED%Z 9%Z _
             [Entry "."; Entry ".."; Entry "a.mp3"] "broken" [Entry "c.mp3"]
             _ [PutVisit 9%Z "album/a.mp3" "album/a.mp3"] _ _
             [PutVisit 9%Z "album/broken" "album/broken"]);
      reflexivity.
  - eapply (proj2 (recursive_transfer_stops_at_first_error
                    example.state example.world example.at_root)
             2 example.st_refusing "out" 5%Z 0x3001%Z
             [6%Z] 7%Z [8%Z] _ [GetVisit "out/a.mp3" 6%Z]
             {| Filename := "b.mp3"; ObjectFormat_ := 0x3009%Z;
                ObjectCompressedSize := 0%Z; CaptureDate := "" |} _ _
             [GetVisit "out/b.mp3" 7%Z]);
      reflexivity.
Defined.

End TransferProperties.

(** * Part III: more of the code *)

(** ** Joined streams of joined streams *)

Section JoinedBounds.

Import mtp.
Import stream_laws.

(** X1: a joined input stream of two streams that never return more than
    they are asked for never returns more than it is asked for; the same
    holds for the bytes a joined output stream takes.  A [Read] of no bytes
    never moves a joined stream on to its second stream. *)
Theorem joined_stream_keeps_to_size
  (I1 I2 : IObjectInputStream) (O1 O2 : IObjectOutputStream) :
  reads_at_most I1 -> reads_at_most I2 ->
  writes_at_most O1 -> writes_at_most O2 ->
  reads_at_most (JoinedObjectInputStream.as_stream I1 I2) /\
  writes_at_most (JoinedObjectOutputStream.as_stream O1 O2) /\
  (forall j : JoinedObjectInputStream.t I1 I2,
     JoinedObjectInputStream._stream1Exhausted
       (snd (fst (JoinedObjectInputStream.Read j 0)))
     = JoinedObjectInputStream._stream1Exhausted j).
Proof.
  intros R1 R2 W1 W2. split; [|split].
  - intros j size d j'. simpl.
    unfold JoinedObjectInputStream.Read, CheckCancelled.
    destruct (JoinedObjectInputStream._cancelled j); simpl; [discriminate|].
    destruct (JoinedObjectInputStream._stream1Exhausted j); simpl.
    + destruct (in_Read I2 (JoinedObjectInputStream._stream2 j) size)
        as [r s2] eqn:H2.
      simpl. intros H. inv H. eapply R2; eauto.
    + destruct (in_Read I1 (JoinedObjectInputStream._stream1 j) size)
        as [[d1|e] s1] eqn:H1; simpl; [|discriminate].
      destruct (length d1 <? size) eqn:Hshort.
      * apply Nat.ltb_lt in Hshort.
        destruct (in_Read I2 (JoinedObjectInputStream._stream2 j)
                    (size - length d1)) as [[d2|e] s2] eqn:H2;
          simpl; intros H; inv H.
        apply R2 in H2. rewrite length_app. lia.
      * simpl. intros H. inv H. eapply R1; eauto.
  - intros j data r j'. simpl.
    unfold JoinedObjectOutputStream.Write, CheckCancelled.
    destruct (JoinedObjectOutputStream._cancelled j); simpl; [discriminate|].
    destruct (JoinedObjectOutputStream._stream1Exhausted j); simpl.
    + destruct (out_Write O2 (JoinedObjectOutputStream._stream2 j) data)
        as [r2 s2] eqn:H2.
      simpl. intros H. inv H. eapply W2; eauto.
    + destruct (out_Write O1 (JoinedObjectOutputStream._stream1 j) data)
        as [[r1|e] s1] eqn:H1; simpl; [|discriminate].
      destruct (r1 <? length data) eqn:Hshort.
      * apply Nat.ltb_lt in Hshort.
        destruct (out_Write O2 (JoinedObjectOutputStream._stream2 j)
                    (skipn r1 data)) as [[r2|e] s2] eqn:H2;
          simpl; intros H; inv H.
        apply W2 in H2. rewrite length_skipn in H2. lia.
      * simpl. intros H. inv H. eapply W1; eauto.
  - intros j. unfold JoinedObjectInputStream.Read, CheckCancelled.
    destruct (JoinedObjectInputStream._cancelled j); simpl; [reflexivity|].
    destruct (JoinedObjectInputStream._stream1Exhausted j) eqn:Hex; simpl.
    + destruct (in_Read I2 (JoinedObjectInputStream._stream2 j) 0).
      simpl. exact Hex.
    + destruct (in_Read I1 (JoinedObjectInputStream._stream1 j) 0)
        as [[d1|e] s1]; simpl; exact Hex.
Qed.

Lemma ByteArrayObjectInputStream_reads_at_most :
  reads_at_most ByteArrayObjectInputStream.
Proof.
  intros s size d s' H. simpl in H. inv H.
  rewrite length_firstn. lia.
Qed.

Lemma FixedSizeByteArrayObjectOutputStream_writes_at_most :
  writes_at_most FixedSizeByteArrayObjectOutputStream.
Proof.
  intros s data r s' H. simpl in H. inv H. lia.
Qed.

Lemma joined_stream_keeps_to_size_witness :
  reads_at_most
    (JoinedObjectInputStream.as_stream
       ByteArrayObjectInputStream ByteArrayObjectInputStream) /\
  writes_at_most
    (JoinedObjectOutputStream.as_stream
       FixedSizeByteArrayObjectOutputStream
       FixedSizeByteArrayObjectOutputStream).
Proof.
  destruct (joined_stream_keeps_to_size
              ByteArrayObjectInputStream ByteArrayObjectInputStream
              FixedSizeByteArrayObjectOutputStream
              FixedSizeByteArrayObjectOutputStream
              ByteArrayObjectInputStream_reads_at_most
              ByteArrayObjectInputStream_reads_at_most
              FixedSizeByteArrayObjectOutputStream_writes_at_most
              FixedSizeByteArrayObjectOutputStream_writes_at_most)
    as [Hr [Hw _]].
  split; assumption.
Defined.

End JoinedBounds.

Section JoinedNesting.

Import mtp.
Import stream_laws.
Import JoinedObjectInputStream.

Lemma reads_content_always (S : IObjectInputStream)
  (c : in_state S -> list u8) :
  reads_content S c -> reads_content_while S (fun _ => True) c.
Proof.
  intros H s size _. destruct (H s size) as [s' [Hr Hc]]. eauto.
Qed.

(** A joined stream over two streams with contents is a stream with a
    content, as long as it is not cancelled. *)
Lemma joined_reads_content_while
  (S1 S2 : IObjectInputStream)
  (good1 : in_state S1 -> Prop) (good2 : in_state S2 -> Prop)
  (c1 : in_state S1 -> list u8) (c2 : in_state S2 -> list u8) :
  reads_content_while S1 good1 c1 ->
  reads_content_while S2 good2 c2 ->
  reads_content_while (as_stream S1 S2)
    (fun j => _cancelled j = false /\
              (_stream1Exhausted j = false -> good1 (_stream1 j)) /\
              good2 (_stream2 j))
    (content c1 c2).
Proof.
  intros reads1 reads2 j size (Hc & Hg1 & Hg2).
  simpl. unfold Read, content, CheckCancelled. rewrite Hc. simpl.
  destruct (_stream1Exhausted j) eqn:Hex; simpl.
  - destruct (reads2 (_stream2 j) size Hg2) as [s2 [Hr [Hrest Hg2']]].
    rewrite Hr. eexists. split; [reflexivity|].
    simpl. rewrite Hex. simpl. repeat split; auto; try discriminate.
  - destruct (reads1 (_stream1 j) size (Hg1 eq_refl))
      as [s1 [Hr1 [Hrest1 Hg1']]].
    rewrite Hr1.
    rewrite firstn_app, skipn_app.
    destruct (length (firstn size (c1 (_stream1 j))) <? size) eqn:Hshort.
    + apply Nat.ltb_lt in Hshort. rewrite length_firstn in Hshort.
      rewrite (@firstn_all2 _ size (c1 (_stream1 j))) by lia.
      rewrite (@skipn_all2 _ size (c1 (_stream1 j))) by lia.
      simpl.
      destruct (reads2 (_stream2 j) (size - length (c1 (_stream1 j))) Hg2)
        as [s2 [Hr2 [Hrest2 Hg2']]].
      rewrite Hr2. eexists. split; [reflexivity|]. simpl.
      repeat split; auto; try discriminate.
    + apply Nat.ltb_ge in Hshort. rewrite length_firstn in Hshort.
      replace (size - length (c1 (_stream1 j))) with 0 by lia.
      simpl. rewrite app_nil_r.
      eexists. split; [reflexivity|]. simpl. rewrite Hex, Hrest1.
      repeat split; auto.
Qed.

(** X2: joined input streams nest: a joined stream whose first or second
    part is itself a joined stream is drained to the three contents in
    order, whichever way the three streams are grouped. *)
Theorem joined_stream_nests
  (A B C : IObjectInputStream)
  (ca : in_state A -> list u8) (cb : in_state B -> list u8)
  (cc : in_state C -> list u8)
  (a : in_state A) (b : in_state B) (c : in_state C)
  (fuel chunk : nat) :
  reads_content A ca -> reads_content B cb -> reads_content C cc ->
  0 < chunk ->
  length (ca a) + length (cb b) + length (cc c) < fuel ->
  read_all (as_stream (as_stream A B) C) fuel chunk
    (make (as_stream A B) C (make A B a b) c)
  = Some (Ok (ca a ++ cb b ++ cc c)) /\
  read_all (as_stream A (as_stream B C)) fuel chunk
    (make A (as_stream B C) a (make B C b c))
  = Some (Ok (ca a ++ cb b ++ cc c)).
Proof.
  intros Ha Hb Hc Hchunk Hfuel.
  apply reads_content_always in Ha, Hb, Hc.
  pose proof (joined_reads_content_while A B _ _ ca cb Ha Hb) as Hab.
  pose proof (joined_reads_content_while B C _ _ cb cc Hb Hc) as Hbc.
  split.
  - pose proof (joined_reads_content_while (as_stream A B) C _ _ _ cc
                  Hab Hc) as Habc.
    rewrite (read_all_good _ _ _ Habc chunk Hchunk fuel).
    + unfold content. simpl. rewrite <- app_assoc. reflexivity.
    + simpl. repeat split; auto.
    + unfold content. simpl. rewrite !length_app. lia.
  - pose proof (joined_reads_content_while A (as_stream B C) _ _ ca _
                  Ha Hbc) as Habc.
    rewrite (read_all_good _ _ _ Habc chunk Hchunk fuel).
    + reflexivity.
    + simpl. repeat split; auto.
    + unfold content. simpl. rewrite !length_app. lia.
Qed.

Lemma joined_stream_nests_witness :
  read_all
    (as_stream (as_stream ByteArrayObjectInputStream
                  ByteArrayObjectInputStream)
       ByteArrayObjectInputStream) 7 2
    (make (as_stream ByteArrayObjectInputStream ByteArrayObjectInputStream)
       ByteArrayObjectInputStream
       (make ByteArrayObjectInputStream ByteArrayObjectInputStream
          [Byte.x01] [Byte.x02; Byte.x03])
       [Byte.x04; Byte.x05; Byte.x06])
  = Some (Ok ([Byte.x01] ++ [Byte.x02; Byte.x03]
              ++ [Byte.x04; Byte.x05; Byte.x06])).
Proof.
  apply (joined_stream_nests
           ByteArrayObjectInputStream ByteArrayObjectInputStream
           ByteArrayObjectInputStream
           (fun left => left) (fun left => left) (fun left => left)
           [Byte.x01] [Byte.x02; Byte.x03] [Byte.x04; Byte.x05; Byte.x06]
           7 2
           ByteArrayObjectInputStream_reads
           ByteArrayObjectInputStream_reads
           ByteArrayObjectInputStream_reads);
    simpl; lia.
Defined.

End JoinedNesting.

(** ** Strings of the session *)

Section SessionStrings.

Import mtp.
Import cli.
Import cli_Session.

Local Open Scope string_scope.
Local Open Scope nat_scope.

Lemma tolower_NUL (c : ascii) : tolower c = NUL -> c = NUL.
Proof.
  destruct c as [[] [] [] [] [] [] [] []]; vm_compute; intros H;
    solve [reflexivity | discriminate].
Qed.

Lemma substring_0_0 (s : string) : substring 0 0 s = "".
Proof.
  destruct s; reflexivity.
Qed.

Lemma strncasecmp_is_0_iff (prefix : string) :
  find prefix NUL 0 = None ->
  forall str,
  strncasecmp_is_0 str prefix (String.length prefix) = true <->
  String.length prefix <= String.length str /\
  lower (substr str 0 (String.length prefix)) = lower prefix.
Proof.
  unfold substr.
  induction prefix as [|p prefix IH]; intros Hnul str.
  - simpl. rewrite substring_0_0. split; auto. intros _. split; [lia|auto].
  - apply find_cons_none in Hnul. destruct Hnul as [Hp Hnul].
    apply Ascii.eqb_neq in Hp.
    simpl String.length. cbn [strncasecmp_is_0 front rest].
    destruct str as [|x str]; cbn [front rest].
    + destruct (Ascii.eqb (tolower NUL) (tolower p)) eqn:Heq.
      * apply Ascii.eqb_eq in Heq. symmetry in Heq.
        apply tolower_NUL in Heq. contradiction.
      * split; [discriminate|]. simpl. intros [H _]. lia.
    + destruct (Ascii.eqb (tolower x) (tolower p)) eqn:Heq.
      * apply Ascii.eqb_eq in Heq.
        assert (Hx : Ascii.eqb x NUL = false).
        { apply Ascii.eqb_neq. intros ->. symmetry in Heq.
          apply tolower_NUL in Heq. contradiction. }
        rewrite Hx, (IH Hnul str). simpl. rewrite Heq.
        split.
        -- intros [Hle Hlow]. split; [lia|]. rewrite Hlow. reflexivity.
        -- intros [Hle Hlow]. split; [lia|]. inv Hlow. reflexivity.
      * apply Ascii.eqb_neq in Heq.
        split; [discriminate|]. simpl. intros [_ Hlow]. inv Hlow.
        contradiction.
Qed.

Lemma BeginsWith_spec (str prefix : string) :
  find prefix NUL 0 = None ->
  (BeginsWith str prefix = true <->
   String.length prefix <= String.length str /\
   lower (substr str 0 (String.length prefix)) = lower prefix).
Proof.
  intros Hnul. unfold BeginsWith.
  destruct (String.length str <? String.length prefix) eqn:Hlen.
  - apply Nat.ltb_lt in Hlen. split; [discriminate|]. intros [H _]. lia.
  - apply strncasecmp_is_0_iff. exact Hnul.
Qed.

(** X3: for a prefix without a NUL character, [BeginsWith str prefix]
    holds exactly when [str] is at least as long as the prefix and its
    first characters are those of the prefix up to the case of letters. *)
Theorem BeginsWith_iff (str prefix : string) :
  find prefix NUL 0 = None ->
  (BeginsWith str prefix = true <->
   String.length prefix <= String.length str /\
   lower (substr str 0 (String.length prefix)) = lower prefix).
Proof.
  intros Hnul. unfold BeginsWith.
  destruct (String.length str <? String.length prefix) eqn:Hlen.
  - apply Nat.ltb_lt in Hlen. split; [discriminate|]. intros [H _]. lia.
  - apply strncasecmp_is_0_iff. exact Hnul.
Qed.

Lemma BeginsWith_iff_witness :
  BeginsWith "LSEXT /dcim" "lsext" = true <->
  String.length "lsext" <= String.length "LSEXT /dcim" /\
  lower (substr "LSEXT /dcim" 0 (String.length "lsext")) = lower "lsext".
Proof.
  apply (BeginsWith_iff "LSEXT /dcim" "lsext"). reflexivity.
Defined.

(** *** GetFilename and GetDirname *)

Lemma rfind_none (s : string) (c : ascii) :
  rfind s c = None <-> find s c 0 = None.
Proof.
  induction s as [|a s IH]; [simpl; tauto|].
  rewrite find_cons_none. simpl.
  destruct (rfind s c) as [n|].
  - split; [discriminate|]. intros [_ H]. apply IH in H. discriminate.
  - destruct (Ascii.eqb a c).
    + split; [discriminate|]. intros [H _]. discriminate.
    + split; [|reflexivity]. intros _. split; [reflexivity|].
      apply IH. reflexivity.
Qed.

Lemma rfind_last (dir file : string) (c : ascii) :
  find file c 0 = None ->
  rfind (dir ++ String c file) c = Some (String.length dir).
Proof.
  intros Hfile. apply rfind_none in Hfile.
  induction dir as [|a dir IH]; simpl.
  - rewrite Hfile, Ascii.eqb_refl. reflexivity.
  - rewrite IH. reflexivity.
Qed.

Lemma rfind_split (s : string) (c : ascii) :
  forall n, rfind s c = Some n ->
  exists dir file,
    s = dir ++ String c file /\ String.length dir = n /\
    find file c 0 = None.
Proof.
  induction s as [|a s IH]; intros n H; simpl in H; [discriminate|].
  destruct (rfind s c) as [m|] eqn:Hr.
  - inv H. destruct (IH m eq_refl) as (dir & file & Hs & Hlen & Hfile).
    exists (String a dir), file. subst s. simpl. auto.
  - destruct (Ascii.eqb a c) eqn:Ha; [|discriminate].
    inv H. apply Ascii.eqb_eq in Ha. subst a.
    exists "", s. apply rfind_none in Hr. auto.
Qed.

Lemma substr_from_tail (dir file : string) (c : ascii) :
  substr_from (dir ++ String c file) (String.length dir + 1) = file.
Proof.
  unfold substr_from.
  change (dir ++ String c file) with (dir ++ (String c "" ++ file)).
  rewrite <- str_app_assoc.
  replace (String.length dir + 1)
    with (String.length (dir ++ String c "") + 0)
    by (rewrite str_length_app; simpl; lia).
  rewrite substring_shift.
  rewrite !str_length_app. simpl String.length.
  replace (String.length dir + 1 + String.length file
           - (String.length dir + 1 + 0)) with (String.length file) by lia.
  rewrite <- (str_app_nil_r file) at 2.
  apply substring_prefix.
Qed.

Lemma GetFilename_join (dir file : string) :
  find file "/" 0 = None ->
  GetFilename (dir ++ "/" ++ file) = file /\
  GetDirname (dir ++ "/" ++ file) = dir.
Proof.
  intros Hfile. unfold GetFilename, GetDirname.
  change (dir ++ "/" ++ file) with (dir ++ String "/" file).
  rewrite (rfind_last dir file "/" Hfile).
  split.
  - apply substr_from_tail.
  - apply substring_prefix.
Qed.

(** X4: [GetDirname] and [GetFilename] split a path at its last slash and
    lose nothing: for a path with a slash, the directory, a slash and the
    filename make up the path again; a path without a slash is its own
    filename and has the empty directory.  The filename never contains a
    slash. *)
Theorem GetDirname_GetFilename (path : string) :
  (if match find path "/" 0 with Some _ => true | None => false end
   then GetDirname path ++ "/" ++ GetFilename path = path
   else GetFilename path = path /\ GetDirname path = "") /\
  find (GetFilename path) "/" 0 = None.
Proof.
  destruct (rfind path "/") as [n|] eqn:Hr.
  - destruct (rfind_split path "/" n Hr) as (dir & file & Hs & Hlen & Hfile).
    destruct (GetFilename_join dir file Hfile) as [Hf Hd].
    change (dir ++ "/" ++ file) with (dir ++ String "/" file) in Hf, Hd.
    rewrite <- Hs in Hf, Hd. rewrite Hf, Hd.
    destruct (find path "/" 0) eqn:Hfind.
    + split; [symmetry; exact Hs | exact Hfile].
    + apply rfind_none in Hfind. congruence.
  - unfold GetFilename, GetDirname. rewrite Hr.
    apply rfind_none in Hr. rewrite Hr. auto.
Qed.

(** X5: of a directory and a filename without a slash, joined by a slash,
    [GetFilename] gives back the filename and [GetDirname] the
    directory. *)
Theorem GetFilename_of_join (dir file : string) :
  find file "/" 0 = None ->
  GetFilename (dir ++ "/" ++ file) = file /\
  GetDirname (dir ++ "/" ++ file) = dir.
Proof.
  intros Hfile. unfold GetFilename, GetDirname.
  change (dir ++ "/" ++ file) with (dir ++ String "/" file).
  rewrite (rfind_last dir file "/" Hfile).
  split.
  - apply substr_from_tail.
  - apply substring_prefix.
Qed.

Lemma GetFilename_of_join_witness :
  GetFilename ("/DCIM/Camera" ++ "/" ++ "IMG 1.JPG") = "IMG 1.JPG" /\
  GetDirname ("/DCIM/Camera" ++ "/" ++ "IMG 1.JPG") = "/DCIM/Camera".
Proof.
  apply (GetFilename_of_join "/DCIM/Camera" "IMG 1.JPG"). reflexivity.
Defined.

End SessionStrings.

(** ** Paths of the session *)

Section SessionPaths.

Import mtp.
Import cli.
Import cli_Session.

Local Open Scope string_scope.
Local Open Scope nat_scope.

Variable W : Type.
Variable world : World W.
Variable session : Session.
Variable w : W.

Local Abbreviation entity_step := (Resolve_entity world session w).
Local Abbreviation from := (Resolve_from world session w).

Lemma bind_Ok (A : Type) (r : result A) : (x <- r ;; Ok x) = r.
Proof.
  destruct r; reflexivity.
Qed.

Lemma Resolve_from_empty (id : ObjectId) : from "" id = Ok id.
Proof.
  reflexivity.
Qed.

(** Resolving [a/b] is resolving [a] and, from there, [b]. *)
Lemma Resolve_from_app (b : string) :
  forall a e id,
  find e "/" 0 = None ->
  from ((e ++ a) ++ "/" ++ b) id = (id' <- from (e ++ a) id ;; from b id').
Proof.
  induction a as [|c a IH]; intros e id He.
  - rewrite str_app_nil_r.
    rewrite (Resolve_from_cons W world session w e b id He).
    rewrite (Resolve_from_last W world session w e id He).
    reflexivity.
  - destruct (Ascii.eqb c "/") eqn:Hc.
    + apply Ascii.eqb_eq in Hc. subst c.
      change ((e ++ String "/" a) ++ "/" ++ b)
        with ((e ++ "/" ++ ("" ++ a)) ++ "/" ++ b).
      rewrite (str_app_assoc e), (str_app_assoc "/").
      change (e ++ String "/" a) with (e ++ "/" ++ ("" ++ a)).
      rewrite !(Resolve_from_cons W world session w e _ id He).
      destruct (entity_step id e) as [id'|x]; cbn [bind]; [|reflexivity].
      apply (IH "" id'). reflexivity.
    + change (e ++ String c a) with (e ++ String c "" ++ a).
      rewrite <- (str_app_assoc e).
      apply IH. apply find_app_none; auto.
      simpl. rewrite Hc. reflexivity.
Qed.

Lemma BeginsWith_slash_app (a b : string) :
  a <> "" -> BeginsWith (a ++ b) "/" = BeginsWith a "/".
Proof.
  intros Ha. rewrite !BeginsWith_slash.
  destruct a; [congruence|reflexivity].
Qed.

(** X6: resolution composes along a path: for a path [a] that is not
    empty and a relative path [b], resolving [a/b] is resolving [a] and
    then resolving [b] with the result as the current directory (so it
    fails as [a] fails when [a] cannot be resolved); and a slash at the
    end of [a] changes nothing. *)
Theorem Resolve_composes (a b : string) :
  a <> "" ->
  BeginsWith b "/" = false ->
  Resolve world session w (a ++ "/" ++ b)
  = (id <- Resolve world session w a ;;
     Resolve world (with_cd session id) w b) /\
  Resolve world session w (a ++ "/") = Resolve world session w a.
Proof.
  intros Ha Hb.
  assert (Hgen : forall b',
            Resolve world session w (a ++ "/" ++ b')
            = (id <- Resolve world session w a ;; from b' id)).
  { intros b'. unfold Resolve. rewrite (BeginsWith_slash_app a _ Ha).
    apply (Resolve_from_app b' a "" _ eq_refl). }
  split.
  - rewrite Hgen.
    destruct (Resolve world session w a) as [id|e]; cbn [bind];
      [|reflexivity].
    unfold Resolve. rewrite Hb. reflexivity.
  - change (a ++ "/") with (a ++ "/" ++ "").
    rewrite (Hgen ""). apply bind_Ok.
Qed.

(** *** ResolvePath *)

(** X7: [ResolvePath] resolves the part of the path before its last slash
    and hands back the part behind it.  A path without a slash stays in the
    current directory; so does a path whose only slash is at its front,
    like [/name]: what is before the slash is the empty path, which
    resolves to the current directory and not to [Root]. *)
Theorem ResolvePath_splits (dir file : string) :
  find file "/" 0 = None ->
  ResolvePath world session w (dir ++ "/" ++ file)
  = (Resolve world session w dir, file) /\
  ResolvePath world session w file = (Ok (_cd session), file) /\
  ResolvePath world session w ("/" ++ file) = (Ok (_cd session), file).
Proof.
  intros Hfile.
  assert (Hjoin : forall d,
            ResolvePath world session w (d ++ "/" ++ file)
            = (Resolve world session w d, file)).
  { intros d. unfold ResolvePath.
    change (d ++ "/" ++ file) with (d ++ String "/" file).
    rewrite (rfind_last d file "/" Hfile).
    rewrite substr_from_tail. unfold substr. rewrite substring_prefix.
    reflexivity. }
  split; [apply Hjoin|]. split.
  - unfold ResolvePath. apply rfind_none in Hfile. rewrite Hfile.
    reflexivity.
  - apply (Hjoin "").
Qed.

(** *** CurrentDirectory *)

Lemma pathname_app (l1 l2 : list string) :
  pathname (l1 ++ l2) = pathname l1 ++ pathname l2.
Proof.
  induction l1 as [|n l1 IH]; simpl; [reflexivity|].
  rewrite IH, !str_app_assoc. reflexivity.
Qed.

Lemma CurrentDirectory_loop_walks (top : ObjectId) :
  top = Device \/ top = Root ->
  forall up fuel id acc,
  walks_up world w id up top ->
  length up < fuel ->
  CurrentDirectory_loop world fuel w id acc
  = Some (Ok (pathname (rev (map snd up)) ++ acc)).
Proof.
  intros Htop.
  induction up as [|[i n] up IH]; intros fuel id acc Hup Hfuel;
    (destruct fuel as [|fuel]; [simpl in Hfuel; lia|]); simpl in *.
  - subst id. destruct Htop as [-> | ->]; reflexivity.
  - destruct Hup as (-> & Hd & Hr & Hname & p & Hparent & Hrest).
    apply Z.eqb_neq in Hd, Hr. rewrite Hd, Hr. simpl.
    rewrite Hname, Hparent.
    rewrite pathname_app. simpl. rewrite !str_app_assoc. simpl.
    destruct (p =? Device)%Z eqn:Hp.
    + apply Z.eqb_eq in Hp. subst p.
      destruct up as [|[i' n'] up]; [reflexivity|].
      simpl in Hrest. destruct Hrest as (Heq & Hne & _). congruence.
    + rewrite (IH fuel p _ Hrest) by lia. reflexivity.
Qed.

Lemma CurrentDirectory_walks
  (up : list (ObjectId * string)) (top : ObjectId) (fuel : nat) :
  top = Device \/ top = Root ->
  walks_up world w (_cd session) up top ->
  length up < fuel ->
  CurrentDirectory world session fuel w
  = Some (Ok ("/" ++ pathname (rev (map snd up)))).
Proof.
  intros Htop Hup Hfuel. unfold CurrentDirectory.
  rewrite (CurrentDirectory_loop_walks top Htop up fuel _ "" Hup Hfuel).
  rewrite str_app_nil_r. reflexivity.
Qed.

(** X8: when walking up from the current directory through the parents
    that the device reports ends at [Root] or [Device], [CurrentDirectory]
    prints the filenames met, from the top down, each with a slash before
    and the last with a slash behind; in [Root] it prints a single
    slash. *)
Theorem CurrentDirectory_prints_path
  (up : list (ObjectId * string)) (top : ObjectId) (fuel : nat) :
  top = Device \/ top = Root ->
  walks_up world w (_cd session) up top ->
  length up < fuel ->
  CurrentDirectory world session fuel w
  = Some (Ok ("/" ++ pathname (rev (map snd up)))).
Proof.
  intros Htop Hup Hfuel. unfold CurrentDirectory.
  rewrite (CurrentDirectory_loop_walks top Htop up fuel _ "" Hup Hfuel).
  rewrite str_app_nil_r. reflexivity.
Qed.

Lemma last_cons (A : Type) (a d : A) (l : list A) :
  last (a :: l) d = last l a.
Proof.
  revert a d. induction l as [|b l IH]; intros a d; [reflexivity|].
  change (last (a :: b :: l) d) with (last (b :: l) d).
  rewrite (IH b d), (IH b a). reflexivity.
Qed.

Lemma Resolve_from_walks_down (down : list (ObjectId * string)) :
  forall start,
  walks_down world session w start down ->
  from (pathname (map snd down)) start = Ok (last (map fst down) start).
Proof.
  induction down as [|[i n] down IH]; intros start Hdown; simpl in Hdown.
  - reflexivity.
  - destruct Hdown as ((Hn0 & Hn1 & Hn2 & Hslash) & Hchild & Hrest).
    cbn [map snd fst pathname].
    rewrite (Resolve_from_cons W world session w n _ start Hslash).
    assert (Hstep : entity_step start n = Ok i).
    { unfold Resolve_entity.
      apply String.eqb_neq in Hn0, Hn1, Hn2. rewrite Hn0, Hn1, Hn2.
      exact Hchild. }
    rewrite Hstep. cbn [bind]. rewrite (IH i Hrest).
    rewrite last_cons. reflexivity.
Qed.

(** X9: the path that [CurrentDirectory] prints leads back to the current
    directory: when the walk up ends at [Root] or [Device] and the names
    met are found again from [Root] down, [Resolve] of the printed path is
    the current directory. *)
Theorem Resolve_CurrentDirectory
  (up : list (ObjectId * string)) (top : ObjectId) (fuel : nat) :
  _cd session <> Device ->
  top = Device \/ top = Root ->
  walks_up world w (_cd session) up top ->
  walks_down world session w Root (rev up) ->
  length up < fuel ->
  exists path,
    CurrentDirectory world session fuel w = Some (Ok path) /\
    Resolve world session w path = Ok (_cd session).
Proof.
  intros Hcd Htop Hup Hdown Hfuel.
  exists ("/" ++ pathname (rev (map snd up))).
  split; [apply (CurrentDirectory_walks up top); auto|].
  unfold Resolve. rewrite BeginsWith_slash. simpl Ascii.eqb. cbv iota.
  change ("/" ++ pathname (rev (map snd up)))
    with ("" ++ "/" ++ pathname (rev (map snd up))).
  rewrite (Resolve_from_cons W world session w "" _ Root eq_refl).
  cbn [Resolve_entity String.eqb orb bind].
  rewrite <- map_rev.
  rewrite (Resolve_from_walks_down (rev up) Root Hdown).
  f_equal.
  destruct up as [|[i n] up]; simpl in *.
  - destruct Htop as [-> | ->]; congruence.
  - destruct Hup as (-> & _). rewrite map_app. simpl.
    apply last_last.
Qed.

(** *** Cat *)

Lemma c_str_no_NUL (s : string) : find (c_str s) NUL 0 = None.
Proof.
  induction s as [|c s IH]; [reflexivity|]. simpl.
  destruct (Ascii.eqb c NUL) eqn:Hc; [reflexivity|].
  apply find_cons_none. auto.
Qed.

Lemma c_str_length (s : string) : String.length (c_str s) <= String.length s.
Proof.
  induction s as [|c s IH]; simpl; [lia|].
  destruct (Ascii.eqb c NUL); simpl; lia.
Qed.

Lemma c_str_id (s : string) : find s NUL 0 = None -> c_str s = s.
Proof.
  induction s as [|c s IH]; intros H; [reflexivity|].
  apply find_cons_none in H. destruct H as [Hc Hs].
  simpl. rewrite Hc, (IH Hs). reflexivity.
Qed.

Lemma string_of_list_byte_length (l : list Byte.byte) :
  String.length (string_of_list_byte l) = length l.
Proof.
  induction l as [|b l IH]; [reflexivity|].
  simpl. f_equal. exact IH.
Qed.

(** X10: [Cat] writes the object as a C string: it never writes a NUL
    character, and it writes at most the bytes of the object and one
    newline.  An object without NUL bytes is written as it is; a newline
    is added behind it exactly when the object is empty or already ends
    with a newline. *)
Theorem Cat_output
  (GetObject_ByteArray : W -> ObjectId -> result (list Byte.byte))
  (path : Path) (id : ObjectId) (data : list Byte.byte) :
  Resolve world session w path = Ok id ->
  GetObject_ByteArray w id = Ok data ->
  let text := string_of_list_byte data in
  exists out,
    Cat world session GetObject_ByteArray w path = Ok out /\
    find out NUL 0 = None /\
    String.length out <= length data + 1 /\
    (find text NUL 0 = None ->
     out = text ++
           (if match back text with
               | None => true
               | Some c => Ascii.eqb c newline
               end
            then String newline "" else "")).
Proof.
  intros Hid Hdata text. subst text. unfold Cat. rewrite Hid. cbn [bind].
  rewrite Hdata. cbn [bind].
  eexists. split; [reflexivity|]. split; [|split].
  - apply find_app_none; [apply c_str_no_NUL|].
    destruct (match back (string_of_list_byte data) with
              | None => true
              | Some c => Ascii.eqb c newline
              end); reflexivity.
  - rewrite str_length_app.
    pose proof (c_str_length (string_of_list_byte data)) as Hlen.
    rewrite string_of_list_byte_length in Hlen.
    destruct (match back (string_of_list_byte data) with
              | None => true
              | Some c => Ascii.eqb c newline
              end); simpl; lia.
  - intros Hnul. rewrite (c_str_id _ Hnul). reflexivity.
Qed.

End SessionPaths.

Section SessionPathsWitnesses.

Local Open Scope string_scope.

Lemma Resolve_composes_witness :
  cli.Resolve example.world example.at_root example.st0
    ("/DCIM" ++ "/" ++ "Camera/img_0001.jpg")
  = (id <- cli.Resolve example.world example.at_root example.st0 "/DCIM" ;;
     cli.Resolve example.world (cli_Session.with_cd example.at_root id)
       example.st0 "Camera/img_0001.jpg").
Proof.
  apply (Resolve_composes example.state example.world example.at_root
           example.st0 "/DCIM" "Camera/img_0001.jpg");
    [discriminate | reflexivity].
Defined.

Lemma ResolvePath_splits_witness :
  cli_Session.ResolvePath example.world example.in_DCIM example.st0
    ("Camera" ++ "/" ++ "img_0001.jpg")
  = (cli.Resolve example.world example.in_DCIM example.st0 "Camera",
     "img_0001.jpg") /\
  cli_Session.ResolvePath example.world example.in_DCIM example.st0
    "img_0001.jpg"
  = (Ok 1%Z, "img_0001.jpg") /\
  cli_Session.ResolvePath example.world example.in_DCIM example.st0
    ("/" ++ "img_0001.jpg")
  = (Ok 1%Z, "img_0001.jpg").
Proof.
  apply (ResolvePath_splits example.state example.world example.in_DCIM
           example.st0 "Camera" "img_0001.jpg").
  reflexivity.
Defined.

Lemma CurrentDirectory_prints_path_witness :
  cli_Session.CurrentDirectory example.world
    {| cli._cs := mtp.AllStorages; cli._cd := 2%Z;
       cli._interactive := false |} 3 example.st0
  = Some (Ok "/DCIM/Camera/").
Proof.
  apply (CurrentDirectory_prints_path example.state example.world
           {| cli._cs := mtp.AllStorages; cli._cd := 2%Z;
              cli._interactive := false |} example.st0
           [(2%Z, "Camera"); (1%Z, "DCIM")] mtp.Device 3).
  - left. reflexivity.
  - simpl. repeat split; try discriminate.
    exists 1%Z. repeat split; try discriminate.
    exists 0%Z. split; reflexivity.
  - simpl. lia.
Defined.

Lemma Resolve_CurrentDirectory_witness :
  exists path,
    cli_Session.CurrentDirectory example.world
      {| cli._cs := mtp.AllStorages; cli._cd := 2%Z;
         cli._interactive := false |} 3 example.st0
    = Some (Ok path) /\
    cli.Resolve example.world
      {| cli._cs := mtp.AllStorages; cli._cd := 2%Z;
         cli._interactive := false |} example.st0 path
    = Ok 2%Z.
Proof.
  apply (Resolve_CurrentDirectory example.state example.world
           {| cli._cs := mtp.AllStorages; cli._cd := 2%Z;
              cli._interactive := false |} example.st0
           [(2%Z, "Camera"); (1%Z, "DCIM")] mtp.Device 3).
  - discriminate.
  - left. reflexivity.
  - simpl. repeat split; try discriminate.
    exists 1%Z. repeat split; try discriminate.
    exists 0%Z. split; reflexivity.
  - simpl. unfold cli_Session.names_child.
    repeat split; try discriminate.
  - simpl. lia.
Defined.

Lemma Cat_output_witness :
  exists out,
    cli_Session.Cat example.world example.at_root
      (fun _ _ => Ok [Byte.x68; Byte.x69; Byte.x0a]) example.st0
      "/Music/a.mp3"
    = Ok out /\
    cli.find out cli.NUL 0 = None /\
    String.length out <= 3 + 1 /\
    (cli.find (string_of_list_byte [Byte.x68; Byte.x69; Byte.x0a])
       cli.NUL 0 = None ->
     out = string_of_list_byte [Byte.x68; Byte.x69; Byte.x0a]
           ++ String cli_Session.newline "").
Proof.
  exact (Cat_output example.state example.world example.at_root example.st0
           (fun _ _ => Ok [Byte.x68; Byte.x69; Byte.x0a])
           "/Music/a.mp3" 6%Z [Byte.x68; Byte.x69; Byte.x0a]
           eq_refl eq_refl).
Defined.

End SessionPathsWitnesses.

(** ** The interfaces of a USB configuration *)

Section UsbConfiguration.

Import usb.

Local Open Scope Z_scope.

(** X11: [GetInterface] gives the interface at [idx] exactly for
    [0 <= idx < GetInterfaceCount()]; any other index, a negative one
    included, ends in [std::out_of_range].  The alternate setting that is
    passed plays no part. *)
Theorem GetInterface_in_range
  (Iface Device Config : Type) (c : Configuration Iface)
  (device : Device) (config : Config) (idx settings : Z) (i : Iface) :
  - 2 ^ 31 <= idx < 2 ^ 31 ->
  Z.of_nat (length (_interfaces c)) < 2 ^ 31 ->
  (GetInterface c device config idx settings = Some (device, config, i) <->
   0 <= idx < GetInterfaceCount c /\
   nth_error (_interfaces c) (Z.to_nat idx) = Some i).
Proof.
  intros Hidx Hlen.
  assert (Hcount : GetInterfaceCount c = Z.of_nat (length (_interfaces c))).
  { unfold GetInterfaceCount, size_t_to_int.
    rewrite Z.mod_small by lia. lia. }
  rewrite Hcount. unfold GetInterface, at_, int_to_size_t.
  destruct (Z_lt_le_dec idx 0) as [Hneg|Hpos].
  - rewrite <- (Z.mod_add idx 1 (2 ^ 64)) by lia.
    rewrite Z.mod_small by lia.
    replace (idx + 1 * 2 ^ 64 <? Z.of_nat (length (_interfaces c)))
      with false by (symmetry; apply Z.ltb_ge; lia).
    split; [discriminate|]. intros [H _]. lia.
  - rewrite Z.mod_small by lia.
    destruct (idx <? Z.of_nat (length (_interfaces c))) eqn:Hlt.
    + apply Z.ltb_lt in Hlt.
      destruct (nth_error (_interfaces c) (Z.to_nat idx)) as [x|].
      * split.
        -- intros H. inv H. split; [lia|reflexivity].
        -- intros [_ H]. inv H. reflexivity.
      * split; [discriminate|]. intros [_ H]. discriminate.
    + apply Z.ltb_ge in Hlt. split; [discriminate|]. intros [H _]. lia.
Qed.

Lemma GetInterface_in_range_witness :
  GetInterface
    {| bConfigurationValue := 1; _interfaces := [10; 20; 30] |}
    tt tt 1 7 = Some (tt, tt, 20) <->
  0 <= 1 < GetInterfaceCount
             {| bConfigurationValue := 1; _interfaces := [10; 20; 30] |} /\
  nth_error [10; 20; 30] (Z.to_nat 1) = Some 20.
Proof.
  apply (GetInterface_in_range Z unit unit
           {| bConfigurationValue := 1; _interfaces := [10; 20; 30] |}
           tt tt 1 7 20); simpl; lia.
Defined.

End UsbConfiguration.

(** ** Recursive get *)

Section GetChildren.

Import mtp.
Import cli.

Local Open Scope string_scope.
Local Open Scope nat_scope.

Variable W : Type.
Variable world : World W.
Variable session : Session.

Lemma Get_visits_itself (depth : nat) (w : W) (dst : LocalPath)
  (srcId : ObjectId) (r : result unit) (w' : W) (evs : list event) :
  Get world session depth w dst srcId = Some (r, w', evs) ->
  In (GetVisit dst srcId) evs.
Proof.
  destruct depth as [|depth]; simpl; [discriminate|].
  intros H. repeat break_match_in H; inv H; simpl; auto.
Qed.

Lemma Get_handles_visits
  (get : W -> LocalPath -> ObjectId -> option (outcome W))
  (dst : LocalPath) :
  (forall w d i r w' evs,
     get w d i = Some (r, w', evs) -> In (GetVisit d i) evs) ->
  forall handles w w2 evs id,
  Get_handles world get w dst handles = Some (Ok tt, w2, evs) ->
  In id handles ->
  exists w1 info,
    GetObjectInfo world w1 id = Ok info /\
    In (GetVisit (dst ++ "/" ++ Filename info) id) evs.
Proof.
  intros Hget.
  induction handles as [|x handles IH]; intros w w2 evs id Hrun Hin;
    simpl in *; [contradiction|].
  destruct (GetObjectInfo world w x) as [info|e] eqn:Hinfo;
    [|discriminate].
  destruct (get w _ x) as [[[[u|e] w1] evs1]|] eqn:Hone; try discriminate.
  destruct (Get_handles world get w1 dst handles)
    as [[[r w3] evs3]|] eqn:Hrest; try discriminate.
  inv Hrun.
  destruct Hin as [Heq|Hin].
  - subst x. exists w, info. split; [exact Hinfo|].
    apply in_or_app. left. eapply Hget; eauto.
  - destruct (IH w1 w2 evs3 id Hrest Hin) as (w' & info' & Hi & Hv).
    exists w', info'. split; [exact Hi|].
    apply in_or_app. right. exact Hv.
Qed.

(** X12: a recursive get of an association that returns normally has
    visited every handle that the device listed under it, each with the
    destination made of the local directory, a slash and the filename that
    the device reported for the handle; the local directory is made before
    the handles are listed. *)
Theorem Get_visits_children
  (depth : nat) (w : W) (dst : LocalPath) (srcId : ObjectId)
  (v : Z) (obj : list ObjectId) (w2 : W) (evs : list event) :
  GetObjectIntegerProperty world w srcId ObjectProperty.ObjectFormat
  = Ok v ->
  (v mod 2 ^ 16)%Z = ObjectFormat.Association ->
  GetObjectHandles world (mkdir world w dst) (_cs session)
    ObjectFormat.Any srcId = Ok obj ->
  Get world session (S depth) w dst srcId = Some (Ok tt, w2, evs) ->
  forall id, In id obj ->
  exists w1 info,
    GetObjectInfo world w1 id = Ok info /\
    In (GetVisit (dst ++ "/" ++ Filename info) id) evs.
Proof.
  intros Hformat Hassoc Hlist Hrun id Hin.
  cbn [Get] in Hrun. rewrite Hformat, Hassoc, Hlist in Hrun.
  change (ObjectFormat.Association =? ObjectFormat.Association)%Z
    with true in Hrun. cbv iota in Hrun.
  destruct (Get_handles world (Get world session depth)
              (mkdir world w dst) dst obj)
    as [[[r w3] evs3]|] eqn:Hloop; [|discriminate].
  inv Hrun.
  destruct (Get_handles_visits (Get world session depth) dst
              (Get_visits_itself depth) obj _ _ _ id Hloop Hin)
    as (w1 & info & Hi & Hv).
  exists w1, info. split; [exact Hi|]. right. exact Hv.
Qed.

End GetChildren.

Section GetChildrenWitness.

Local Open Scope string_scope.

Lemma Get_visits_children_witness :
  exists w1 info,
    cli.GetObjectInfo example.world w1 7%Z = Ok info /\
    In (cli.GetVisit ("out" ++ "/" ++ mtp.Filename info) 7%Z)
       [cli.GetVisit "out" 5%Z; cli.GetVisit "out/a.mp3" 6%Z;
        cli.GetVisit "out/b.mp3" 7%Z; cli.GetVisit "out/c.mp3" 8%Z].
Proof.
  eapply (Get_visits_children example.state example.world example.at_root
            2 example.st0 "out" 5%Z 0x3001%Z [6%Z; 7%Z; 8%Z]);
    [reflexivity | reflexivity | reflexivity | reflexivity | simpl; auto].
Defined.

End GetChildrenWitness.

(** ** Listing *)

Section ListingProperties.

Import mtp.
Import cli.
Import cli_Session.
Import cli_Shell.

Local Open Scope string_scope.
Local Open Scope nat_scope.

Variable W : Type.
Variable world : World W.
Variable session : Session.
Variable GetObjectPropertyListSupported : W -> bool.
Variable GetObjectPropertyList :
  W -> ObjectId -> ObjectFormat.t -> ObjectProperty.t -> Z -> Z ->
  result (list u8).
Variable Parse :
  list u8 -> list (ObjectId * ObjectProperty.t * string) * option exception.

Lemma List_handles_app (w : W) (extended : bool)
  (l1 l2 : list ObjectId) :
  List_handles world w extended (l1 ++ l2)
  = (List_handles world w extended l1
     ++ List_handles world w extended l2)%list.
Proof.
  induction l1 as [|x l1 IH]; simpl; [reflexivity|].
  rewrite IH. reflexivity.
Qed.

Lemma List_handles_length (w : W) (extended : bool) (l : list ObjectId) :
  length (List_handles world w extended l) = length l.
Proof.
  induction l as [|x l IH]; simpl; [reflexivity|].
  rewrite IH. reflexivity.
Qed.

(** X13: when [List] goes through the handles (for the extended listing,
    or when the device has no property lists) an object whose info cannot
    be read costs one error line and nothing else: the objects before and
    after it are listed as without it, [List] returns normally, and there
    is one line for every handle. *)
Theorem List_continues_after_error
  (w : W) (parent : ObjectId) (extended : bool)
  (before after : list ObjectId) (objectId : ObjectId) (e : exception) :
  negb extended && GetObjectPropertyListSupported w = false ->
  GetObjectHandles world w (_cs session) ObjectFormat.Any parent
  = Ok (before ++ objectId :: after)%list ->
  GetObjectInfo world w objectId = Throw e ->
  List world session GetObjectPropertyListSupported GetObjectPropertyList
    Parse w parent extended
  = (Ok tt,
     (List_handles world w extended before
      ++ error_line e :: List_handles world w extended after)%list) /\
  length (List_handles world w extended (before ++ objectId :: after)%list)
  = length (before ++ objectId :: after)%list.
Proof.
  intros Hbranch Hlist Hinfo. split; [|apply List_handles_length].
  unfold List.
  rewrite Hbranch, Hlist, List_handles_app. simpl. rewrite Hinfo.
  reflexivity.
Qed.

End ListingProperties.

(** ** Completion of paths *)

Section CompletionProperties.

Import mtp.
Import cli.
Import cli_Session.
Import cli_Shell.

Local Open Scope string_scope.
Local Open Scope nat_scope.

Lemma lower_app (a b : string) : lower (a ++ b) = lower a ++ lower b.
Proof.
  induction a as [|c a IH]; simpl; [reflexivity|]. rewrite IH. reflexivity.
Qed.

Lemma substring_app_l (a b : string) (n : nat) :
  n <= String.length a -> substring 0 n (a ++ b) = substring 0 n a.
Proof.
  revert n. induction a as [|c a IH]; intros n Hn; simpl in *.
  - assert (n = 0) by lia. subst n. rewrite substring_0_0. reflexivity.
  - destruct n as [|n]; [reflexivity|]. rewrite IH by lia. reflexivity.
Qed.

Lemma substring_app_r (a b : string) (n : nat) :
  substring 0 (String.length a + n) (a ++ b) = a ++ substring 0 n b.
Proof.
  induction a as [|c a IH]; simpl; [reflexivity|]. rewrite IH. reflexivity.
Qed.

Lemma find_app_none_inv (a b : string) (c : ascii) :
  find (a ++ b) c 0 = None -> find a c 0 = None /\ find b c 0 = None.
Proof.
  induction a as [|x a IH]; intros H; [auto|].
  change (String x a ++ b) with (String x (a ++ b)) in H.
  apply find_cons_none in H. destruct H as [Hx H].
  apply IH in H. destruct H as [Ha Hb].
  split; [apply find_cons_none; auto | exact Hb].
Qed.

(** A name that begins with the typed file part, put behind the typed
    directory, begins with the typed path; what is appended behind does
    not matter. *)
Lemma BeginsWith_under (dir name filePrefix suffix : string) :
  find (dir ++ filePrefix) NUL 0 = None ->
  BeginsWith name filePrefix = true ->
  BeginsWith (dir ++ name ++ suffix) (dir ++ filePrefix) = true.
Proof.
  intros Hnul Hbegins.
  destruct (find_app_none_inv dir filePrefix NUL Hnul) as [_ Hfp].
  apply (BeginsWith_spec name filePrefix Hfp) in Hbegins.
  destruct Hbegins as [Hlen Hlow].
  apply (BeginsWith_spec _ _ Hnul).
  rewrite !str_length_app. split; [lia|].
  unfold substr in *. rewrite substring_app_r.
  rewrite substring_app_l by exact Hlen.
  rewrite !lower_app, Hlow. reflexivity.
Qed.

Variable W : Type.
Variable world : World W.
Variable session : Session.

Lemma CompletePath_loop_items (w : W) (dir filePrefix : string) :
  forall handles r items,
  CompletePath_loop world w dir filePrefix handles = (r, items) ->
  forall item, In item items ->
  exists name suffix,
    BeginsWith name filePrefix = true /\
    let candidate :=
      (if negb (String.eqb dir "") then dir ++ "/" ++ name else name)
      ++ suffix in
    item = if contains candidate " "
           then String quote candidate ++ String quote ""
           else candidate.
Proof.
  induction handles as [|object handles IH]; intros r items Hrun item Hin;
    cbn [CompletePath_loop] in Hrun.
  - inv Hrun. contradiction.
  - destruct (GetObjectStringProperty world w object
                ObjectProperty.ObjectFilename) as [name|e];
      [|inv Hrun; contradiction].
    destruct (BeginsWith name filePrefix) eqn:Hbegins;
      [|eapply IH; eauto].
    destruct (GetObjectIntegerProperty world w object
                ObjectProperty.ObjectFormat) as [v|e];
      [|inv Hrun; contradiction].
    destruct (CompletePath_loop world w dir filePrefix handles)
      as [r' items'] eqn:Hrest.
    inv Hrun. destruct Hin as [Heq|Hin]; [|eapply IH; eauto].
    subst item.
    destruct (_ =? ObjectFormat.Association)%Z.
    + exists name, "/". split; [exact Hbegins|]. reflexivity.
    + exists name, "". split; [exact Hbegins|].
      cbv zeta. rewrite str_app_nil_r. reflexivity.
Qed.

(** X14: every completion that [CompletePath] offers for a typed path
    without NUL characters, with a directory part that is not empty or
    without a slash at all, is a candidate that begins with the typed path
    up to the case of letters; the candidate is put between double quotes
    exactly when it contains a space. *)
Theorem CompletePath_candidates
  (w : W) (path : Path) (r : result unit) (items : list string) :
  find path NUL 0 = None ->
  find path "/" 0 = None \/ GetDirname path <> "" ->
  CompletePath world session w path = (r, items) ->
  forall item, In item items ->
  exists candidate,
    BeginsWith candidate path = true /\
    item = if contains candidate " "
           then String quote candidate ++ String quote ""
           else candidate.
Proof.
  intros Hnul Hshape Hrun item Hin.
  unfold CompletePath, ResolvePath in Hrun.
  destruct (rfind path "/") as [pos|] eqn:Hr.
  - destruct (rfind_split path "/" pos Hr)
      as (dir & file & Hpath & Hlen & Hfile).
    destruct (GetFilename_join dir file Hfile) as [_ Hdir].
    change (dir ++ "/" ++ file) with (dir ++ String "/" file) in Hdir.
    rewrite <- Hpath in Hdir.
    assert (Hfp : substr_from path (pos + 1) = file).
    { rewrite Hpath, <- Hlen. apply substr_from_tail. }
    rewrite Hfp, Hdir in Hrun.
    assert (Hne : dir <> "").
    { destruct Hshape as [Hnone|Hd]; [|congruence].
      apply rfind_none in Hnone. congruence. }
    destruct (Resolve world session w (substr path 0 pos)) as [parent|e];
      [|inv Hrun; contradiction].
    destruct (GetObjectHandles world w (_cs session) ObjectFormat.Any parent)
      as [objectList|e]; [|inv Hrun; contradiction].
    destruct (CompletePath_loop_items w dir file objectList r items
                Hrun item Hin) as (name & suffix & Hbegins & Hitem).
    apply String.eqb_neq in Hne. rewrite Hne in Hitem. simpl negb in Hitem.
    cbv iota zeta in Hitem.
    exists ((dir ++ "/" ++ name) ++ suffix). split; [|exact Hitem].
    rewrite Hpath.
    change (dir ++ String "/" file) with (dir ++ "/" ++ file).
    rewrite <- (str_app_assoc dir "/" file).
    rewrite <- (str_app_assoc dir "/" name).
    rewrite str_app_assoc.
    apply BeginsWith_under; [|exact Hbegins].
    rewrite str_app_assoc.
    change (dir ++ "/" ++ file) with (dir ++ String "/" file).
    rewrite <- Hpath. exact Hnul.
  - unfold GetDirname in Hrun. rewrite Hr in Hrun.
    destruct (GetObjectHandles world w (_cs session) ObjectFormat.Any
                (_cd session)) as [objectList|e];
      [|inv Hrun; contradiction].
    destruct (CompletePath_loop_items w "" path objectList r items
                Hrun item Hin) as (name & suffix & Hbegins & Hitem).
    simpl in Hitem.
    exists (name ++ suffix). split; [|exact Hitem].
    apply (BeginsWith_under "" name path suffix Hnul Hbegins).
Qed.

End CompletionProperties.

(** ** The test of GetObjectPropertyList *)

Section PropertyListVerdict.

Import mtp.
Import cli_Shell.

Variable property_t : Type.
Variable property_eqb : property_t -> property_t -> bool.
Variable All : property_t.

Lemma set_insert_In (x y : ObjectId) (s : list ObjectId) :
  In x (set_insert y s) <-> x = y \/ In x s.
Proof.
  induction s as [|z s IH]; simpl.
  - intuition.
  - destruct (y <? z)%Z; [simpl; intuition|].
    destruct (y =? z)%Z eqn:Heq.
    + apply Z.eqb_eq in Heq. subst z. simpl. intuition.
    + simpl. rewrite IH. intuition.
Qed.

Lemma set_difference_nil (a b : list ObjectId) :
  set_difference a b = [] <-> forall x, In x a -> In x b.
Proof.
  unfold set_difference. induction a as [|y a IH]; simpl.
  - split; [intros _ x []|reflexivity].
  - destruct (existsb (Z.eqb y) b) eqn:Hy; simpl.
    + rewrite IH. apply existsb_exists in Hy.
      destruct Hy as (z & Hz & Heq). apply Z.eqb_eq in Heq. subst z.
      split.
      * intros H x [->|Hx]; auto.
      * intros H x Hx. apply H. auto.
    + split; [discriminate|]. intros H.
      assert (Hin : In y b) by (apply H; auto).
      assert (existsb (Z.eqb y) b = true).
      { apply existsb_exists. exists y. split; [exact Hin|].
        apply Z.eqb_refl. }
      congruence.
Qed.

Lemma fold_on_tuple (property : property_t)
  (tuples : list (ObjectId * property_t)) :
  forall objectList ok objectList' ok',
  fold_left (on_tuple property_eqb All property) tuples (objectList, ok)
  = (objectList', ok') ->
  (ok' = true <->
   ok = true /\
   forall t, In t tuples ->
     property_eqb (snd t) property || property_eqb property All = true) /\
  (forall x, In x objectList' <->
     In x objectList \/
     exists p, In (x, p) tuples /\
       property_eqb p property || property_eqb property All = true).
Proof.
  induction tuples as [|[objectId p] tuples IH];
    intros objectList ok objectList' ok' Hfold; simpl in Hfold.
  - inv Hfold. split.
    + split; [intros H; split; [exact H|intros t []] | tauto].
    + intros x. split; [auto|]. intros [H|(q & [] & _)]. exact H.
  - destruct (property_eqb p property || property_eqb property All) eqn:Hp.
    + apply IH in Hfold. destruct Hfold as [Hok Hlist]. split.
      * rewrite Hok. split.
        -- intros [H Hall]. split; [exact H|].
           intros t [<-|Ht]; [exact Hp|auto].
        -- intros [H Hall]. split; [exact H|]. intros t Ht. apply Hall.
           right. exact Ht.
      * intros x. rewrite Hlist, set_insert_In. split.
        -- intros [[->|H]|(q & Hq & Hacc)]; auto.
           ++ right. exists p. split; [left; reflexivity|exact Hp].
           ++ right. exists q. split; [right; exact Hq|exact Hacc].
        -- intros [H|(q & [Heq|Hq] & Hacc)]; auto.
           ++ inv Heq. auto.
           ++ right. exists q. auto.
    + apply IH in Hfold. destruct Hfold as [Hok Hlist]. split.
      * rewrite Hok. split; [intros [H _]; discriminate|].
        intros [_ Hall]. specialize (Hall (objectId, p) (or_introl eq_refl)).
        simpl in Hall. congruence.
      * intros x. rewrite Hlist. split.
        -- intros [H|(q & Hq & Hacc)]; auto.
           right. exists q. split; [right; exact Hq|exact Hacc].
        -- intros [H|(q & [Heq|Hq] & Hacc)]; auto.
           ++ inv Heq. congruence.
           ++ right. exists q. auto.
Qed.

(** X15: the test of a property list prints [PASSED] exactly when every
    tuple of the list carries the property that was asked for (any
    property when all were asked for) and names an object that
    [GetObjectHandles] listed.  An object that [GetObjectHandles] listed
    and that has no tuple in the property list does not fail the test. *)
Theorem GetObjectPropertyList_verdict_iff
  (originalObjectList : list ObjectId) (property : property_t)
  (tuples : list (ObjectId * property_t)) :
  GetObjectPropertyList_verdict property_eqb All originalObjectList
    property tuples = true <->
  forall t, In t tuples ->
    property_eqb (snd t) property || property_eqb property All = true /\
    In (fst t) originalObjectList.
Proof.
  unfold GetObjectPropertyList_verdict.
  destruct (fold_left (on_tuple property_eqb All property) tuples ([], true))
    as [objectList ok] eqn:Hfold.
  apply fold_on_tuple in Hfold. destruct Hfold as [Hok Hlist].
  destruct (set_difference objectList originalObjectList) as [|x extra]
    eqn:Hdiff.
  - pose proof (proj1 (set_difference_nil _ _) Hdiff) as Hsub.
    rewrite Hok. split.
    + intros [_ Hall] [objectId p] Ht. split; [apply Hall; exact Ht|].
      apply Hsub. apply Hlist. right. exists p.
      split; [exact Ht|]. apply (Hall _ Ht).
    + intros H. split; [reflexivity|]. intros t Ht. apply H. exact Ht.
  - split; [discriminate|]. intros H.
    assert (Hnil : set_difference objectList originalObjectList = []).
    { apply (proj2 (set_difference_nil _ _)). intros y Hy.
      pose proof (proj1 (Hlist y) Hy) as Hy'. clear Hy. rename Hy' into Hy.
      destruct Hy as [[]|(p & Hp & _)]. apply (H _ Hp). }
    congruence.
Qed.

End PropertyListVerdict.

(** ** The command loop *)

Section ShellProperties.

Import cli_Shell.

Local Open Scope string_scope.

Variable St : Type.
Variable Tokenizer : string -> list string.
Variable _commands : list (string * ICommand St).
Variable _running : St -> bool.
Variable _showPrompt : bool.

Local Abbreviation process := (ProcessCommand Tokenizer _commands).
Local Abbreviation loop :=
  (InteractiveInput_loop Tokenizer _commands _running _showPrompt).
Local Abbreviation processed := (all_processed Tokenizer _commands _running).

Lemma InteractiveInput_loop_app (before others : list string) :
  forall st st1 out1,
  processed st before = Some (st1, out1) ->
  loop st (before ++ others)
  = (fst (loop st1 others), (out1 ++ snd (loop st1 others))%list).
Proof.
  induction before as [|input before IH]; intros st st1 out1 H; simpl in *.
  - inv H. destruct (loop st1 others); reflexivity.
  - destruct (process st input) as [[u|e] st'].
    + destruct (negb (_running st')); [discriminate|]. apply IH. exact H.
    + destruct (processed st' before) as [[st'' out]|] eqn:Hrest;
        [|discriminate].
      inv H. rewrite (IH st' st1 out Hrest). simpl.
      rewrite <- app_assoc. reflexivity.
Qed.

(** X16: a command that throws does not end the command loop: it is
    reported (with the hint about a locked device exactly for the response
    [InvalidStorageID]) and the next line is read, in the state the
    command left.  A line whose first token names no command is such a
    command: it throws [invalid command] with the token and leaves the
    state as it was; a line without tokens does nothing at all. *)
Theorem InteractiveInput_continues_after_error
  (st st1 st2 : St) (before after : list string) (out1 : list output)
  (input : string) (e : exception) :
  processed st before = Some (st1, out1) ->
  process st1 input = (Throw e, st2) ->
  loop st (before ++ input :: after)
  = (fst (loop st2 after),
     (out1 ++ report e ++ snd (loop st2 after))%list) /\
  (forall s blank, Tokenizer blank = [] -> process s blank = (Ok tt, s)) /\
  (forall s unknown cmdName args,
     Tokenizer unknown = cmdName :: args ->
     List.find (fun c => String.eqb (fst c) cmdName) _commands = None ->
     process s unknown
     = (Throw (runtime_error ("invalid command " ++ cmdName)), s)).
Proof.
  intros Hbefore Hthrow. split; [|split].
  - rewrite (InteractiveInput_loop_app before (input :: after) st st1 out1
               Hbefore).
    simpl. rewrite Hthrow.
    destruct (loop st2 after) as [st3 out3]. reflexivity.
  - intros s blank Hblank. unfold ProcessCommand. rewrite Hblank.
    reflexivity.
  - intros s unknown cmdName args Htokens Hfind.
    unfold ProcessCommand. rewrite Htokens. simpl. rewrite Hfind.
    reflexivity.
Qed.

(** *** Completion of commands *)

Lemma filter_nil_iff (A : Type) (f : A -> bool) (l : list A) :
  filter f l = [] <-> forall x, In x l -> f x = false.
Proof.
  induction l as [|a l IH]; simpl.
  - split; [intros _ x []|reflexivity].
  - destruct (f a) eqn:Ha.
    + split; [discriminate|]. intros H. specialize (H a (or_introl eq_refl)).
      congruence.
    + rewrite IH. split.
      * intros H x [<-|Hx]; auto.
      * intros H x Hx. apply H. auto.
Qed.

(** X17: [CompletionCallback] never hands an empty array to the line
    editor: it returns [NULL] or at least one match.  For the first word
    of a line that is not empty, the matches are the names of the commands
    that begin with what was typed, up to the case of letters, each as
    often as it is registered; there is no match exactly when no command
    begins so. *)
Theorem CompletionCallback_matches
  (st : St) (lineBuffer text : string) (start end_ : Z) :
  (forall matches,
     CompletionCallback Tokenizer _commands st lineBuffer text start end_
     = Ok (Some matches) -> matches <> []) /\
  (length (Tokenizer lineBuffer) < 2 -> end_ <> 0%Z ->
   let typed := last (Tokenizer lineBuffer) "" in
   (forall matches,
      CompletionCallback Tokenizer _commands st lineBuffer text start end_
      = Ok (Some matches) ->
      matches
      = filter (fun name => cli.BeginsWith name typed)
               (map fst _commands)) /\
   (CompletionCallback Tokenizer _commands st lineBuffer text start end_
    = Ok None <->
    forall name, In name (map fst _commands) ->
                 cli.BeginsWith name typed = false)).
Proof.
  split.
  - intros matches. unfold CompletionCallback.
    destruct (length (Tokenizer lineBuffer) <? 2)%nat.
    + destruct (filter _ (map fst _commands)) as [|m ms];
        intros H; inv H. discriminate.
    + destruct (List.find _ _commands) as [c|]; [|discriminate].
      destruct (Complete (snd c) st _ text) as [[|m ms]|e];
        simpl; intros H; inv H. discriminate.
  - intros Hlen Hend typed. subst typed.
    apply Nat.ltb_lt in Hlen. apply Z.eqb_neq in Hend.
    unfold CompletionCallback. rewrite Hlen, Hend. simpl negb.
    assert (Hf : filter
                   (fun name =>
                      negb (negb (cli.BeginsWith name
                                    (last (Tokenizer lineBuffer) ""))))
                   (map fst _commands)
                 = filter
                     (fun name =>
                        cli.BeginsWith name (last (Tokenizer lineBuffer) ""))
                     (map fst _commands)).
    { apply filter_ext. intros name. apply negb_involutive. }
    rewrite Hf. clear Hf.
    destruct (filter _ (map fst _commands)) as [|m ms] eqn:Hfilter;
      cbv iota.
    + split; [intros matches H; discriminate|].
      split; [intros _|reflexivity].
      apply filter_nil_iff. exact Hfilter.
    + split; [intros matches H; inv H; reflexivity|].
      split; [discriminate|]. intros H.
      apply filter_nil_iff in H. congruence.
Qed.

End ShellProperties.

Section ShellWitnesses.

Import example_shell.

Local Open Scope string_scope.

Lemma List_continues_after_error_witness :
  cli_Shell.List world_unreadable example.at_root no_property_lists
    no_property_list parse_nothing example.st0 5%Z false
  = (Ok tt,
     [cli_Shell.name_line 6%Z "a.mp3";
      cli_Shell.error_line example.AccessDenied;
      cli_Shell.name_line 8%Z "c.mp3"]).
Proof.
  apply (List_continues_after_error example.state world_unreadable
           example.at_root no_property_lists no_property_list parse_nothing
           example.st0 5%Z false [6%Z] [8%Z] 7%Z example.AccessDenied);
    reflexivity.
Defined.

Lemma CompletePath_candidates_witness :
  exists candidate,
    cli.BeginsWith candidate "Camera/img" = true /\
    "Camera/IMG_0001.JPG"
    = if cli_Shell.contains candidate " "
      then String cli_Session.quote candidate
           ++ String cli_Session.quote ""
      else candidate.
Proof.
  apply (CompletePath_candidates example.state example.world
           example.in_DCIM example.st0 "Camera/img" (Ok tt)
           ["Camera/IMG_0001.JPG"; "Camera/img_0001.jpg"]).
  - reflexivity.
  - right. discriminate.
  - reflexivity.
  - left. reflexivity.
Defined.

Lemma InteractiveInput_continues_after_error_witness :
  cli_Shell.InteractiveInput_loop one_token commands snd true (0, true)
    (["count"; ""] ++ "ls" :: ["count"; "quit"; "count"])
  = ((2, false),
     [cli_Shell.error_output (InvalidResponseException 0x2008);
      cli_Shell.locked_hint]).
Proof.
  apply (InteractiveInput_continues_after_error shell_state one_token
           commands snd true (0, true) (1, true) (1, true)
           ["count"; ""] ["count"; "quit"; "count"] [] "ls"
           (InvalidResponseException 0x2008));
    reflexivity.
Defined.

Lemma CompletionCallback_matches_witness :
  cli_Shell.CompletionCallback one_token commands (0, true) "LS" "LS" 0 2
  = Ok None <->
  forall name, In name (map fst commands) ->
               cli.BeginsWith name (last (one_token "LS") "") = false.
Proof.
  apply (CompletionCallback_matches shell_state one_token commands
           (0, true) "LS" "LS" 0%Z 2%Z).
  - simpl. lia.
  - discriminate.
Defined.

End ShellWitnesses.

(** ** What resolution returns *)

Section ResolveResults.

Import mtp.
Import cli.

Local Open Scope string_scope.
Local Open Scope nat_scope.

Variable W : Type.
Variable world : World W.
Variable session : Session.
Variable w : W.

Lemma ResolveObjectChild_loop_Ok (entity : string) :
  forall handles object,
  ResolveObjectChild_loop world w entity handles = Ok object ->
  exists before after,
    handles = (before ++ object :: after)%list /\
    GetObjectStringProperty world w object ObjectProperty.ObjectFilename
    = Ok entity /\
    Forall (fun o => exists name,
              GetObjectStringProperty world w o
                ObjectProperty.ObjectFilename = Ok name /\
              name <> entity) before.
Proof.
  induction handles as [|x handles IH]; intros object H; simpl in H.
  - discriminate.
  - destruct (GetObjectStringProperty world w x
                ObjectProperty.ObjectFilename) as [name|e] eqn:Hname;
      [|discriminate].
    destruct (String.eqb name entity) eqn:Heq.
    + inv H. apply String.eqb_eq in Heq. subst name.
      exists [], handles. auto.
    + destruct (IH object H) as (before & after & Hh & Hobj & Hall).
      exists (x :: before), after. subst handles.
      split; [reflexivity|]. split; [exact Hobj|].
      constructor; [|exact Hall].
      exists name. split; [exact Hname|]. apply String.eqb_neq. exact Heq.
Qed.

Lemma ResolveObjectChild_Ok
  (parent : ObjectId) (entity : string) (object : ObjectId) :
  ResolveObjectChild world session w parent entity = Ok object ->
  exists before after,
    GetObjectHandles world w (_cs session) ObjectFormat.Any parent
    = Ok (before ++ object :: after)%list /\
    GetObjectStringProperty world w object ObjectProperty.ObjectFilename
    = Ok entity /\
    Forall (fun o => exists name,
              GetObjectStringProperty world w o
                ObjectProperty.ObjectFilename = Ok name /\
              name <> entity) before.
Proof.
  unfold ResolveObjectChild. intros H.
  destruct (GetObjectHandles world w (_cs session) ObjectFormat.Any parent)
    as [handles|e]; [|discriminate].
  cbn [bind] in H.
  destruct (ResolveObjectChild_loop_Ok entity handles object H)
    as (before & after & Hh & Hobj & Hall).
  exists before, after. subst handles. auto.
Qed.

(** X18: what [ResolveObjectChild] returns is a handle that the device
    listed under the parent, its filename is the component, and no handle
    listed before it has that filename. *)
Theorem ResolveObjectChild_returns_listed
  (parent : ObjectId) (entity : string) (object : ObjectId) :
  ResolveObjectChild world session w parent entity = Ok object ->
  exists before after,
    GetObjectHandles world w (_cs session) ObjectFormat.Any parent
    = Ok (before ++ object :: after)%list /\
    GetObjectStringProperty world w object ObjectProperty.ObjectFilename
    = Ok entity /\
    Forall (fun o => exists name,
              GetObjectStringProperty world w o
                ObjectProperty.ObjectFilename = Ok name /\
              name <> entity) before.
Proof.
  unfold ResolveObjectChild. intros H.
  destruct (GetObjectHandles world w (_cs session) ObjectFormat.Any parent)
    as [handles|e]; [|discriminate].
  cbn [bind] in H.
  destruct (ResolveObjectChild_loop_Ok entity handles object H)
    as (before & after & Hh & Hobj & Hall).
  exists before, after. subst handles. auto.
Qed.

Local Abbreviation lists_no_Device :=
  (device_laws.lists_no_Device world session w).

Lemma Resolve_entity_not_Device (id : ObjectId) (entity : string)
  (id' : ObjectId) :
  lists_no_Device ->
  id <> Device ->
  Resolve_entity world session w id entity = Ok id' ->
  id' <> Device.
Proof.
  intros Hlists Hid. unfold Resolve_entity.
  destruct (String.eqb entity "" || String.eqb entity ".").
  - intros H. inv H. exact Hid.
  - destruct (String.eqb entity "..").
    + destruct (GetObjectParent world w id) as [p|e]; [|discriminate].
      cbn [bind]. intros H. inv H.
      destruct (p =? Device)%Z eqn:Hp; [discriminate|].
      apply Z.eqb_neq. exact Hp.
    + intros H.
      destruct (ResolveObjectChild_Ok id entity id' H)
        as (before & after & Hh & _).
      intros ->. apply (Hlists id _ Hh).
      apply in_or_app. right. left. reflexivity.
Qed.

Lemma Resolve_loop_not_Device (path : Path) :
  lists_no_Device ->
  forall rounds p id id',
  id <> Device ->
  Resolve_loop world session rounds w path p id = Ok id' ->
  id' <> Device.
Proof.
  intros Hlists.
  induction rounds as [|rounds IH]; intros p id id' Hid H; simpl in H.
  - inv H. exact Hid.
  - destruct (p <? String.length path); [|inv H; exact Hid].
    destruct (Resolve_entity world session w id _) as [id1|e] eqn:Hstep;
      [|discriminate].
    cbn [bind] in H.
    eapply IH; [|exact H].
    eapply Resolve_entity_not_Device; eauto.
Qed.

(** X19: [Resolve] never returns the reserved value [Device]: when the
    current directory is not [Device] and the device lists no handle
    [Device], whatever a path resolves to is not [Device]. *)
Theorem Resolve_never_Device (path : Path) (id : ObjectId) :
  _cd session <> Device ->
  lists_no_Device ->
  Resolve world session w path = Ok id ->
  id <> Device.
Proof.
  intros Hcd Hlists. unfold Resolve, Resolve_from.
  apply Resolve_loop_not_Device; [exact Hlists|].
  destruct (BeginsWith path "/"); [discriminate|exact Hcd].
Qed.

(** *** FormatTime *)

(** X20: [FormatTime] of a formatted time changes nothing, so formatting
    twice is formatting once; and a string that is not 15 characters long
    or has no [T] at offset 8 is returned as it is. *)
Theorem FormatTime_idempotent (timespec : string) :
  FormatTime (FormatTime timespec) = FormatTime timespec /\
  (String.length timespec <> 15 \/ String.get 8 timespec <> Some "T"%char ->
   FormatTime timespec = timespec).
Proof.
  assert (Hother :
            String.length timespec <> 15 \/
            String.get 8 timespec <> Some "T"%char ->
            FormatTime timespec = timespec).
  { intros Hshape. unfold FormatTime.
    destruct (String.length timespec =? 15) eqn:Hlen; [|reflexivity].
    apply Nat.eqb_eq in Hlen. simpl negb. cbn [orb].
    destruct Hshape as [H|H]; [contradiction|].
    destruct (get 8 timespec) as [c|]; [|reflexivity].
    destruct (Ascii.eqb c "T") eqn:Hc; [|reflexivity].
    apply Ascii.eqb_eq in Hc. subst c. congruence. }
  split; [|exact Hother].
  destruct (Nat.eq_dec (String.length timespec) 15) as [Hlen|Hlen].
  - destruct (get 8 timespec) as [c|] eqn:Hget.
    + destruct (Ascii.eqb c "T") eqn:Hc.
      * apply Ascii.eqb_eq in Hc. subst c.
        do 15 (destruct timespec as [|? timespec]; [discriminate|]).
        destruct timespec; [|discriminate].
        simpl in Hget. inv Hget. reflexivity.
      * rewrite Hother; [rewrite Hother|]; auto; right; intros H; inv H;
          rewrite Ascii.eqb_refl in Hc; discriminate.
    + rewrite Hother; [rewrite Hother|]; auto; right; discriminate.
  - rewrite Hother; [rewrite Hother|]; auto.
Qed.

End ResolveResults.

Section ResolveResultsWitnesses.

Local Open Scope string_scope.

Lemma ResolveObjectChild_returns_listed_witness :
  exists before after,
    cli.GetObjectHandles example.world example.st0
      (cli._cs example.at_root) mtp.ObjectFormat.Any 2%Z
    = Ok (before ++ 4%Z :: after)%list /\
    cli.GetObjectStringProperty example.world example.st0 4%Z
      mtp.ObjectProperty.ObjectFilename
    = Ok "img_0001.jpg" /\
    Forall (fun o => exists name,
              cli.GetObjectStringProperty example.world example.st0 o
                mtp.ObjectProperty.ObjectFilename = Ok name /\
              name <> "img_0001.jpg") before.
Proof.
  apply (ResolveObjectChild_returns_listed example.state example.world
           example.at_root example.st0 2%Z "img_0001.jpg" 4%Z).
  reflexivity.
Defined.

Lemma example_lists_no_Device :
  device_laws.lists_no_Device example.world example.at_root example.st0.
Proof.
  intros parent handles H. simpl in H. inv H.
  unfold example.children. intros Hin.
  apply in_map_iff in Hin. destruct Hin as (o & Hid & Ho).
  apply filter_In in Ho. destruct Ho as [Ho _].
  simpl in Ho.
  repeat (destruct Ho as [<-|Ho]; [discriminate|]). exact Ho.
Qed.

Lemma Resolve_never_Device_witness :
  4%Z <> mtp.Device.
Proof.
  apply (Resolve_never_Device example.state example.world example.at_root
           example.st0 "/DCIM/Camera/img_0001.jpg" 4%Z).
  - discriminate.
  - exact example_lists_no_Device.
  - reflexivity.
Defined.

Lemma FormatTime_idempotent_witness :
  cli.FormatTime "2016-02-29 23:59:59" = "2016-02-29 23:59:59".
Proof.
  apply (FormatTime_idempotent "2016-02-29 23:59:59").
  left. discriminate.
Defined.

End ResolveResultsWitnesses.

(** ** The directory that a recursive put writes to *)

Section NestedDirectories.

Import mtp.
Import cli.

Local Open Scope string_scope.
Local Open Scope nat_scope.

Lemma find_app_slash (a b : string) (c : ascii) :
  find (a ++ String c b) c 0 <> None.
Proof.
  induction a as [|x a IH]; simpl.
  - rewrite Ascii.eqb_refl. discriminate.
  - destruct (Ascii.eqb x c); [discriminate|].
    destruct (find (a ++ String c b) c 0); [discriminate|contradiction].
Qed.

(** X21: after a failed [CreateDirectory] the existing directory is looked
    up under the local source path, not under its last component.  So on a
    device whose filenames contain no slash, a source path with a slash
    never ends up in an existing directory: [MakeOrResolveDirectory]
    throws.  Every recursive call of [Put] has such a source path, the
    path of the directory, a slash and the entry. *)
Theorem MakeOrResolveDirectory_nested
  (W : Type) (world : World W) (session : Session) (w w1 : W)
  (parentId : ObjectId) (dst : string) (src : LocalPath) (e : exception) :
  CreateDirectory world w (GetFilename dst) parentId = (Throw e, w1) ->
  find src "/" 0 <> None ->
  (forall handles object name,
     GetObjectHandles world w1 (_cs session) ObjectFormat.Any parentId
     = Ok handles ->
     In object handles ->
     GetObjectStringProperty world w1 object ObjectProperty.ObjectFilename
     = Ok name ->
     find name "/" 0 = None) ->
  (exists e',
     MakeOrResolveDirectory world session w parentId dst src
     = (Throw e', w1)) /\
  (forall d_name, find (src ++ "/" ++ d_name) "/" 0 <> None).
Proof.
  intros Hcreate Hslash Hnames. split.
  - unfold MakeOrResolveDirectory. rewrite Hcreate.
    destruct (ResolveObjectChild world session w1 parentId src)
      as [dirId|e'] eqn:Hchild; [|eauto].
    exfalso.
    destruct (ResolveObjectChild_Ok W world session w1
                parentId src dirId Hchild)
      as (before & after & Hlist & Hname & _).
    apply Hslash.
    apply (Hnames _ dirId src Hlist); [|exact Hname].
    apply in_or_app. right. left. reflexivity.
  - intros d_name. apply (find_app_slash src d_name "/").
Qed.

Lemma MakeOrResolveDirectory_nested_witness :
  exists e',
    MakeOrResolveDirectory example.world example.at_root example.st0
      1%Z "DCIM/Camera" "DCIM/Camera"
    = (Throw e', example.st0).
Proof.
  apply (MakeOrResolveDirectory_nested example.state example.world
           example.at_root example.st0 example.st0 1%Z
           "DCIM/Camera" "DCIM/Camera" example.GeneralError).
  - reflexivity.
  - discriminate.
  - intros handles object name Hlist Hin Hname.
    simpl in Hlist. inv Hlist. simpl in Hin.
    destruct Hin as [<-|[]]. simpl in Hname. inv Hname. reflexivity.
Defined.

End NestedDirectories.
